(** * sharedwealth: a small proof-of-work blockchain node

    Shallow embedding of [transaction.ts], [block.ts], [client.ts],
    [miner.ts], [fakeNet.ts] and [utils.ts], and the properties of the
    node's specification checked against it.

    Modelling conventions.
    - A JavaScript [number] is an integer ([Z]); the development covers the
      integer-valued numbers that print as bare digits (see Numbers below
      for their sums).
    - A JavaScript string is a [string] of bytes.
    - [Map<string,number>] ([Balances], [Nonces]) is a [gmap string Z];
      [Map<string,Transaction>], whose iteration order is observable through
      [serialize] and [rerun], is an insertion-ordered association list.
    - The [crypto] module of the platform (SHA-256, RSA-SHA256) is an
      interface, [Runtime]; every statement holds for all its
      implementations. *)

From Stdlib Require Import ZArith String Ascii List Bool Lia.
From Stdlib Require Import DecimalString DecimalZ.
From stdpp Require Import gmap strings list fin_maps.
Import ListNotations.

Local Open Scope Z_scope.

(** ** Text helpers *)

Definition chars (s : string) : list ascii := list_ascii_of_string s.
Definition text (l : list ascii) : string := string_of_list_ascii l.

(** ** Numbers

    A [number] is a double: it holds every integer from [-2^53] to [2^53],
    and beyond them only the integers of 53 binary digits times a power of
    two.  The sum of two numbers is the number nearest to their sum.  From
    [-(2^53 - 1)] to [2^53 - 1] ([Number.MIN_SAFE_INTEGER] to
    [Number.MAX_SAFE_INTEGER]) a sum or a difference that stays in that
    range is exact.

    The totals of payments, which the code adds up over a list of outputs
    of any length and of any amounts ([totalOutput], and [totalPayments] in
    [postTransaction]), are taken with [Number.add].  A balance credited or
    debited and a counter stepped are taken in [Z]: that is the code's
    result where the operands and the result are safe integers, and a
    statement about its value names the numbers it is for. *)

Definition MAX_SAFE_INTEGER : Z := 2 ^ 53 - 1.

Definition safe_integer (n : Z) : Prop :=
  - MAX_SAFE_INTEGER <= n <= MAX_SAFE_INTEGER.

Module Number.

(** The number nearest to the integer [n] (below [2^1024] in size, where
    the numbers end): [n] itself up to [2^53]; beyond, the nearest multiple
    of the power of two that leaves 53 binary digits, and of two that are
    as near the one with an even 53rd digit. *)
Definition nearest (n : Z) : Z :=
  let a := Z.abs n in
  if a <=? 2 ^ 53 then n
  else
    let unit := 2 ^ (Z.log2 a - 52) in
    let q := a / unit in
    let r := a mod unit in
    let q' := if 2 * r <? unit then q
              else if unit <? 2 * r then q + 1
              else if Z.even q then q else q + 1 in
    Z.sgn n * (q' * unit).

(** [a + b] on numbers. *)
Definition add (a b : Z) : Z := nearest (a + b).

End Number.

(** The sum [acc + x1 + x2 + ...] taken from the left, as [reduce] takes
    it, is exact: [acc], every [x] and every sum on the way is a safe
    integer. *)
Fixpoint sums_exactly (acc : Z) (xs : list Z) : Prop :=
  safe_integer acc
  /\ match xs with
     | [] => True
     | x :: xs' => safe_integer x /\ sums_exactly (acc + x) xs'
     end.

(** ** The platform's [crypto] module, as used by [utils.ts] *)

Definition Key := string.
Definition Signature := string.

Class Runtime := {
  (** [crypto.createHash('sha256').update(s).digest()]: 32 bytes. *)
  sha256 : string -> list ascii;
  sha256_length : forall s, length (sha256 s) = 32%nat;
  (** [crypto.createSign('RSA-SHA256').update(m).sign(k, 'hex')]. *)
  rsa_sign : Key -> string -> Signature;
  (** [crypto.createVerify('RSA-SHA256').update(m).verify(k, sig, 'hex')]. *)
  rsa_verify : Key -> string -> Signature -> bool;
  (** Whether [crypto] reads [k] as a public key (a PEM text).  On a text
      it does not read, [verify] throws instead of answering; [rsa_verify]
      is the answer on the keys it reads. *)
  rsa_key : Key -> bool
}.

(** *** Digest encodings *)

Definition hex_digit (n : N) : ascii :=
  if (n <? 10)%N then ascii_of_N (48 + n) else ascii_of_N (87 + n).

Definition hex_of_byte (c : ascii) : list ascii :=
  let n := N_of_ascii c in [hex_digit (n / 16); hex_digit (n mod 16)].

Definition hex_encode (bs : list ascii) : list ascii :=
  flat_map hex_of_byte bs.

Definition base64_alphabet : list ascii :=
  chars "ABCDEFGHIJKLMNOPQRSTUVWXYZabcdefghijklmnopqrstuvwxyz0123456789+/".

Definition base64_digit (n : N) : ascii :=
  nth (N.to_nat n) base64_alphabet "="%char.

Fixpoint base64_encode (bs : list ascii) : list ascii :=
  match bs with
  | [] => []
  | [a] =>
      let x := N_of_ascii a in
      [base64_digit (x / 4); base64_digit ((x mod 4) * 16); "="; "="]%char
  | [a; b] =>
      let x := N_of_ascii a in
      let y := N_of_ascii b in
      [base64_digit (x / 4); base64_digit ((x mod 4) * 16 + y / 16);
       base64_digit ((y mod 16) * 4); "="%char]
  | a :: b :: c :: rest =>
      let x := N_of_ascii a in
      let y := N_of_ascii b in
      let z := N_of_ascii c in
      base64_digit (x / 4) :: base64_digit ((x mod 4) * 16 + y / 16)
        :: base64_digit ((y mod 16) * 4 + z / 64) :: base64_digit (z mod 64)
        :: base64_encode rest
  end.

Inductive Encoding := Hex | Base64.

(** *** [BigInteger] of jsbn, on the one constructor the node uses,
    [new BigInteger(h, 16)], for a text [h] of hexadecimal digits (what
    [hash] returns); the value is the unsigned number the digits spell. *)

Definition hex_value (c : ascii) : option Z :=
  let n := Z.of_N (N_of_ascii c) in
  if (48 <=? n) && (n <=? 57) then Some (n - 48)
  else if (97 <=? n) && (n <=? 102) then Some (n - 87)
  else if (65 <=? n) && (n <=? 70) then Some (n - 55)
  else None.

Definition BigInteger_hex (s : string) : Z :=
  fold_left (fun acc c => match hex_value c with
                          | Some d => 16 * acc + d
                          | None => acc
                          end) (chars s) 0.

(** The number a digest stands for, most significant byte first. *)
Definition be_value (bs : list ascii) : Z :=
  fold_left (fun acc c => 256 * acc + Z.of_N (N_of_ascii c)) bs 0.

(** One digit more of a number read in base 16. *)
Definition hex_step (acc : Z) (c : ascii) : Z :=
  match hex_value c with
  | Some d => 16 * acc + d
  | None => acc
  end.

(** ** [utils.ts] *)

Module Utils.
Section WithRuntime.
Context {R : Runtime}.

Definition hash (s : string) (encoding : Encoding) : string :=
  text (match encoding with
        | Hex => hex_encode (sha256 s)
        | Base64 => base64_encode (sha256 s)
        end).

Definition sign (privKey : Key) (msg : string) : Signature :=
  rsa_sign privKey msg.

(** The answer of [verify]; on a [pubKey] that [crypto] does not read
    ([rsa_key]) the call throws, and what is said of a call that returns
    is said for the keys it reads. *)
Definition verifySignature (pubKey : Key) (msg : string) (sig : Signature) : bool :=
  rsa_verify pubKey msg sig.

Definition calcAddress (key : Key) : string := hash key Base64.

Definition addressMatchesKey (addr : string) (pubKey : Key) : bool :=
  bool_decide (addr = calcAddress pubKey).

End WithRuntime.
End Utils.

(** ** Insertion-ordered maps

    [Map.prototype.set] and [Map.prototype.get] on an association list in
    insertion order; a repeated key of an object text is resolved the same
    way. *)

Fixpoint assoc_set {A} (k : string) (v : A) (m : list (string * A)) : list (string * A) :=
  match m with
  | [] => [(k, v)]
  | (k', v') :: m' =>
      if String.eqb k' k then (k, v) :: m' else (k', v') :: assoc_set k v m'
  end.

Fixpoint assoc_get {A} (k : string) (m : list (string * A)) : option A :=
  match m with
  | [] => None
  | (k', v) :: m' => if String.eqb k' k then Some v else assoc_get k m'
  end.

Definition assoc_of_entries {A} (es : list (string * A)) : list (string * A) :=
  fold_left (fun m e => assoc_set (fst e) (snd e) m) es [].

(** ** [JSON.stringify] and [JSON.parse]

    The values the node serializes: [undefined] (an absent optional field),
    [null], booleans, integers, strings, arrays and objects.  An object is
    the list of its own properties in creation order. *)

#[warnings="-register-all"]
Inductive json :=
| JUndefined
| JNull
| JBool (b : bool)
| JNum (n : Z)
| JStr (s : string)
| JArr (items : list json)
| JObj (members : list (string * json)).

Module Json.

Definition num_text (n : Z) : list ascii :=
  chars (NilEmpty.string_of_int (Z.to_int n)).

Definition hex4 (c : ascii) : list ascii :=
  ["0"; "0"]%char ++ hex_of_byte c.

(** QuoteJSONString, one code unit at a time. *)
Definition escape_char (c : ascii) : list ascii :=
  if Ascii.eqb c "034" then ["\"; "034"]%char
  else if Ascii.eqb c "\" then ["\"; "\"]%char
  else if Ascii.eqb c "008" then ["\"; "b"]%char
  else if Ascii.eqb c "012" then ["\"; "f"]%char
  else if Ascii.eqb c "010" then ["\"; "n"]%char
  else if Ascii.eqb c "013" then ["\"; "r"]%char
  else if Ascii.eqb c "009" then ["\"; "t"]%char
  else if (N_of_ascii c <? 32)%N then ["\"; "u"]%char ++ hex4 c
  else [c].

Definition quote (s : string) : list ascii :=
  "034"%char :: flat_map escape_char (chars s) ++ ["034"%char].

Fixpoint join (sep : list ascii) (parts : list (list ascii)) : list ascii :=
  match parts with
  | [] => []
  | [p] => p
  | p :: rest => p ++ sep ++ join sep rest
  end.

(** SerializeJSONProperty: an [undefined] member of an object is left out,
    an [undefined] item of an array is written [null]. *)
Fixpoint emit (j : json) : list ascii :=
  match j with
  | JUndefined => chars "null"
  | JNull => chars "null"
  | JBool true => chars "true"
  | JBool false => chars "false"
  | JNum n => num_text n
  | JStr s => quote s
  | JArr items =>
      "["%char :: join [","%char] (map emit items) ++ ["]"%char]
  | JObj members =>
      "{"%char ::
      join [","%char]
        ((fix props (ms : list (string * json)) : list (list ascii) :=
            match ms with
            | [] => []
            | (k, JUndefined) :: ms' => props ms'
            | (k, v) :: ms' => (quote k ++ ":"%char :: emit v) :: props ms'
            end) members)
      ++ ["}"%char]
  end.

Definition stringify (j : json) : string := text (emit j).

(** [JSON.parse], for texts of the values above.  Numbers with a fraction
    or an exponent and escapes of code units above one byte are not among
    them and are refused. *)

Definition is_ws (c : ascii) : bool :=
  Ascii.eqb c " " || Ascii.eqb c "009" || Ascii.eqb c "010" || Ascii.eqb c "013".

Fixpoint skip_ws (s : list ascii) : list ascii :=
  match s with
  | c :: r => if is_ws c then skip_ws r else s
  | [] => []
  end.

Definition is_numchar (c : ascii) : bool :=
  Ascii.eqb c "-" || ((48 <=? N_of_ascii c)%N && (N_of_ascii c <=? 57)%N).

Definition is_fracchar (c : ascii) : bool :=
  Ascii.eqb c "." || Ascii.eqb c "e" || Ascii.eqb c "E".

Fixpoint span (p : ascii -> bool) (s : list ascii) : list ascii * list ascii :=
  match s with
  | c :: r => if p c then let '(a, b) := span p r in (c :: a, b) else ([], s)
  | [] => ([], [])
  end.

Fixpoint strip_prefix (p s : list ascii) : option (list ascii) :=
  match p, s with
  | [], _ => Some s
  | a :: p', b :: s' => if Ascii.eqb a b then strip_prefix p' s' else None
  | _ :: _, [] => None
  end.

Definition parse_number (s : list ascii) : option (Z * list ascii) :=
  let '(tok, rest) := span is_numchar s in
  match rest with
  | c :: _ => if is_fracchar c then None else
      match NilEmpty.int_of_string (text tok) with
      | Some d => if bool_decide (num_text (Z.of_int d) = tok)
                  then Some (Z.of_int d, rest) else None
      | None => None
      end
  | [] =>
      match NilEmpty.int_of_string (text tok) with
      | Some d => if bool_decide (num_text (Z.of_int d) = tok)
                  then Some (Z.of_int d, rest) else None
      | None => None
      end
  end.

Definition unhex_byte (a b : ascii) : option ascii :=
  match hex_value a, hex_value b with
  | Some x, Some y => Some (ascii_of_N (Z.to_N (16 * x + y)))
  | _, _ => None
  end.

(** The text after an opening quote, up to the closing one. *)
Fixpoint parse_string (s : list ascii) : option (list ascii * list ascii) :=
  match s with
  | [] => None
  | c :: r =>
      if Ascii.eqb c "034" then Some ([], r)
      else if Ascii.eqb c "\" then
        match r with
        | e :: r1 =>
            if Ascii.eqb e "u" then
              match r1 with
              | h1 :: h2 :: h3 :: h4 :: r2 =>
                  if Ascii.eqb h1 "0" && Ascii.eqb h2 "0" then
                    match unhex_byte h3 h4, parse_string r2 with
                    | Some x, Some (cs, r') => Some (x :: cs, r')
                    | _, _ => None
                    end
                  else None
              | _ => None
              end
            else
              match (if Ascii.eqb e "034" then Some "034"
                     else if Ascii.eqb e "\" then Some "\"
                     else if Ascii.eqb e "/" then Some "/"
                     else if Ascii.eqb e "b" then Some "008"
                     else if Ascii.eqb e "f" then Some "012"
                     else if Ascii.eqb e "n" then Some "010"
                     else if Ascii.eqb e "r" then Some "013"
                     else if Ascii.eqb e "t" then Some "009"
                     else None)%char, parse_string r1 with
              | Some x, Some (cs, r') => Some (x :: cs, r')
              | _, _ => None
              end
        | [] => None
        end
      else if (N_of_ascii c <? 32)%N then None
      else match parse_string r with
           | Some (cs, r') => Some (c :: cs, r')
           | None => None
           end
  end.

Fixpoint parse_value (fuel : nat) (s : list ascii) : option (json * list ascii) :=
  match fuel with
  | O => None
  | S fuel' =>
      match skip_ws s with
      | [] => None
      | c :: r =>
          if Ascii.eqb c "n" then
            option_map (pair JNull) (strip_prefix (chars "ull") r)
          else if Ascii.eqb c "t" then
            option_map (pair (JBool true)) (strip_prefix (chars "rue") r)
          else if Ascii.eqb c "f" then
            option_map (pair (JBool false)) (strip_prefix (chars "alse") r)
          else if Ascii.eqb c "034" then
            match parse_string r with
            | Some (cs, r') => Some (JStr (text cs), r')
            | None => None
            end
          else if Ascii.eqb c "[" then
            match skip_ws r with
            | c' :: r' =>
                if Ascii.eqb c' "]" then Some (JArr [], r')
                else match parse_items fuel' r with
                     | Some (items, r'') => Some (JArr items, r'')
                     | None => None
                     end
            | [] => None
            end
          else if Ascii.eqb c "{" then
            match skip_ws r with
            | c' :: r' =>
                if Ascii.eqb c' "}" then Some (JObj [], r')
                else match parse_members fuel' r with
                     | Some (ms, r'') => Some (JObj (assoc_of_entries ms), r'')
                     | None => None
                     end
            | [] => None
            end
          else if is_numchar c then
            match parse_number (c :: r) with
            | Some (n, r') => Some (JNum n, r')
            | None => None
            end
          else None
      end
  end
with parse_items (fuel : nat) (s : list ascii) : option (list json * list ascii) :=
  match fuel with
  | O => None
  | S fuel' =>
      match parse_value fuel' s with
      | Some (v, r) =>
          match skip_ws r with
          | c :: r' =>
              if Ascii.eqb c "," then
                match parse_items fuel' r' with
                | Some (vs, r'') => Some (v :: vs, r'')
                | None => None
                end
              else if Ascii.eqb c "]" then Some ([v], r')
              else None
          | [] => None
          end
      | None => None
      end
  end
with parse_members (fuel : nat) (s : list ascii)
  : option (list (string * json) * list ascii) :=
  match fuel with
  | O => None
  | S fuel' =>
      match skip_ws s with
      | q :: r =>
          if Ascii.eqb q "034" then
            match parse_string r with
            | Some (k, r1) =>
                match skip_ws r1 with
                | c1 :: r2 =>
                    if Ascii.eqb c1 ":" then
                      match parse_value fuel' r2 with
                      | Some (v, r3) =>
                          match skip_ws r3 with
                          | c :: r4 =>
                              if Ascii.eqb c "," then
                                match parse_members fuel' r4 with
                                | Some (ms, r5) => Some ((text k, v) :: ms, r5)
                                | None => None
                                end
                              else if Ascii.eqb c "}" then Some ([(text k, v)], r4)
                              else None
                          | [] => None
                          end
                      | None => None
                      end
                    else None
                | [] => None
                end
            | None => None
            end
          else None
      | [] => None
      end
  end.

(** What a text written by [stringify] reads back as: an [undefined]
    member is gone, an [undefined] item is [null]. *)
Fixpoint norm (j : json) : json :=
  match j with
  | JUndefined => JNull
  | JArr items => JArr (map norm items)
  | JObj members =>
      JObj ((fix props (ms : list (string * json)) : list (string * json) :=
               match ms with
               | [] => []
               | (k, JUndefined) :: ms' => props ms'
               | (k, v) :: ms' => (k, norm v) :: props ms'
               end) members)
  | _ => j
  end.

Definition is_undefined (j : json) : bool :=
  match j with JUndefined => true | _ => false end.

(** The members of an object that [stringify] writes. *)
Fixpoint written (ms : list (string * json)) : list (string * json) :=
  match ms with
  | [] => []
  | (k, v) :: ms' => if is_undefined v then written ms' else (k, v) :: written ms'
  end.

(** Objects whose written members have distinct names, at every depth. *)
Fixpoint distinct_names (j : json) : Prop :=
  match j with
  | JArr items => fold_right (fun x P => distinct_names x /\ P) True items
  | JObj members =>
      NoDup (map fst (written members))
      /\ (fix all (ms : list (string * json)) : Prop :=
            match ms with
            | [] => True
            | (_, v) :: ms' => distinct_names v /\ all ms'
            end) members
  | _ => True
  end.

Fixpoint size (j : json) : nat :=
  match j with
  | JArr items => S (fold_right (fun x n => S (size x + n)) 0%nat items)
  | JObj members =>
      S ((fix sum (ms : list (string * json)) : nat :=
            match ms with
            | [] => 0%nat
            | (_, JUndefined) :: ms' => sum ms'
            | (_, v) :: ms' => S (size v + sum ms')
            end) members)
  | _ => 1%nat
  end.

Definition parse (s : string) : option json :=
  match parse_value (S (length (chars s))) (chars s) with
  | Some (j, r) => match skip_ws r with [] => Some j | _ :: _ => None end
  | None => None
  end.

(** *** Notions for the round trip *)

(** The text after a number: no digit, sign, fraction or exponent. *)
Definition stops_number (rest : list ascii) : Prop :=
  match rest with
  | [] => True
  | c :: _ => is_numchar c = false /\ is_fracchar c = false
  end.

(** The text of a member of an object. *)
Definition member_text (kv : string * json) : list ascii :=
  quote (fst kv) ++ ":"%char :: emit (snd kv).

(** The sizes of the members and of the items that are written. *)
Definition members_size (ms : list (string * json)) : nat :=
  fold_right (fun kv n => S (size (snd kv) + n)) 0%nat ms.

Definition items_size (items : list json) : nat :=
  fold_right (fun x n => S (size x + n)) 0%nat items.

(** The first character of the text of a value. *)
Definition value_start (c : ascii) : bool :=
  Ascii.eqb c "n" || Ascii.eqb c "t" || Ascii.eqb c "f" || Ascii.eqb c "034"
  || Ascii.eqb c "[" || Ascii.eqb c "{" || is_numchar c.

(** What the induction gives for a value: its text reads back. *)
Definition reads_back (j : json) : Prop :=
  distinct_names j ->
  forall fuel rest,
    (size j <= fuel)%nat -> stops_number rest ->
    parse_value fuel (emit j ++ rest) = Some (norm j, rest).

End Json.

(** Induction on values, with the items and members of a value as
    premises. *)
Section JsonInduction.
Variable P : json -> Prop.
Hypothesis P_undefined : P JUndefined.
Hypothesis P_null : P JNull.
Hypothesis P_bool : forall b, P (JBool b).
Hypothesis P_num : forall n, P (JNum n).
Hypothesis P_str : forall s, P (JStr s).
Hypothesis P_arr : forall items, Forall P items -> P (JArr items).
Hypothesis P_obj : forall ms, Forall (fun kv => P (snd kv)) ms -> P (JObj ms).

Fixpoint json_nested_ind (j : json) : P j :=
  match j with
  | JUndefined => P_undefined
  | JNull => P_null
  | JBool b => P_bool b
  | JNum n => P_num n
  | JStr s => P_str s
  | JArr items =>
      P_arr items
        ((fix all (l : list json) : Forall P l :=
            match l with
            | [] => @List.Forall_nil _ P
            | x :: l' => @List.Forall_cons _ P x l' (json_nested_ind x) (all l')
            end) items)
  | JObj ms =>
      P_obj ms
        ((fix all (l : list (string * json)) : Forall (fun kv => P (snd kv)) l :=
            match l with
            | [] => @List.Forall_nil _ (fun kv => P (snd kv))
            | (k, v) :: l' =>
                @List.Forall_cons _ (fun kv => P (snd kv)) (k, v) l'
                             (json_nested_ind v) (all l')
            end) ms)
  end.
End JsonInduction.

(** ** [types.ts] *)

Record Output := { amount : Z; address : string }.

Abbreviation Outputs := (list Output).
Abbreviation Balances := (gmap string Z).
Abbreviation Nonces := (gmap string Z).

Record Keypair := { kp_public : Key; kp_private : Key }.

(** ** [transaction.ts] *)

Record Transaction := {
  tx_from : string;
  tx_nonce : Z;
  tx_pubKey : Key;
  tx_sig : option Signature;
  tx_fee : Z;
  tx_outputs : Outputs
}.

Module Transaction.
Section WithRuntime.
Context {R : Runtime}.

Definition TX_CONST : string := "TX".

Definition outputs_json (os : Outputs) : json :=
  JArr (map (fun o => JObj [("amount", JNum (amount o));
                            ("address", JStr (address o))]) os).

(** The object literal hashed by [get id()]. *)
Definition id_json (tx : Transaction) : json :=
  JObj [("from", JStr (tx_from tx));
        ("nonce", JNum (tx_nonce tx));
        ("pubKey", JStr (tx_pubKey tx));
        ("outputs", outputs_json (tx_outputs tx));
        ("fee", JNum (tx_fee tx))].

Definition id (tx : Transaction) : string :=
  Utils.hash (TX_CONST +:+ Json.stringify (id_json tx)) Hex.

Definition set_sig (s : option Signature) (tx : Transaction) : Transaction :=
  {| tx_from := tx_from tx; tx_nonce := tx_nonce tx; tx_pubKey := tx_pubKey tx;
     tx_sig := s; tx_fee := tx_fee tx; tx_outputs := tx_outputs tx |}.

Definition sign (privKey : Key) (tx : Transaction) : Transaction :=
  set_sig (Some (Utils.sign privKey (id tx))) tx.

Definition validSignature (tx : Transaction) : bool :=
  match tx_sig tx with
  | None => false
  | Some s =>
      Utils.addressMatchesKey (tx_from tx) (tx_pubKey tx) &&
      Utils.verifySignature (tx_pubKey tx) (id tx) s
  end.

Definition totalOutput (tx : Transaction) : Z :=
  fold_left (fun totalValue o => Number.add totalValue (amount o))
            (tx_outputs tx) (tx_fee tx).

Definition sufficientFunds (tx : Transaction) (balances : Balances) : bool :=
  match balances !! tx_from tx with
  | None => false
  | Some balance => totalOutput tx <=? balance
  end.

(** The own properties of a [Transaction], in the order the constructor
    assigns them; what [JSON.stringify] sees inside a block. *)
Definition to_json (tx : Transaction) : json :=
  JObj [("from", JStr (tx_from tx));
        ("nonce", JNum (tx_nonce tx));
        ("pubKey", JStr (tx_pubKey tx));
        ("sig", match tx_sig tx with Some s => JStr s | None => JUndefined end);
        ("fee", JNum (tx_fee tx));
        ("outputs", outputs_json (tx_outputs tx))].

End WithRuntime.

(** [new Transaction(obj)] on a parsed object: the fields are read by name,
    [fee] defaults to 0, [sig] may be absent.  A field of another type than
    the class declares is refused. *)
Definition output_of_json (j : json) : option Output :=
  match j with
  | JObj [(ka, JNum a); (kd, JStr d)] =>
      if bool_decide (ka = "amount") && bool_decide (kd = "address")
      then Some {| amount := a; address := d |} else None
  | _ => None
  end.

Fixpoint outputs_of_json (js : list json) : option Outputs :=
  match js with
  | [] => Some []
  | j :: js' =>
      match output_of_json j, outputs_of_json js' with
      | Some o, Some os => Some (o :: os)
      | _, _ => None
      end
  end.

Definition of_json (j : json) : option Transaction :=
  match j with
  | JObj ms =>
      match assoc_get "from" ms, assoc_get "nonce" ms, assoc_get "pubKey" ms,
            assoc_get "outputs" ms with
      | Some (JStr f), Some (JNum n), Some (JStr pk), Some (JArr os) =>
          match outputs_of_json os,
                match assoc_get "sig" ms with
                | None | Some JUndefined => Some None
                | Some (JStr s) => Some (Some s)
                | Some _ => None
                end,
                match assoc_get "fee" ms with
                | None | Some JUndefined => Some 0
                | Some (JNum x) => Some x
                | Some _ => None
                end with
          | Some outs, Some sg, Some fe =>
              Some {| tx_from := f; tx_nonce := n; tx_pubKey := pk; tx_sig := sg;
                      tx_fee := fe; tx_outputs := outs |}
          | _, _, _ => None
          end
      | _, _, _, _ => None
      end
  | _ => None
  end.

End Transaction.

(** ** [block.ts] *)

Definition POW_BASE_TARGET : Z :=
  BigInteger_hex "ffffffffffffffffffffffffffffffffffffffffffffffffffffffffffffffff".

Definition COINBASE_AMT_ALLOWED : Z := 25.

Definition GENESIS_REWARD_ADDR : string := "".
Definition GENESIS_PREV_BLOCK_HASH : string := "".

Record Block := {
  chainLength : Z;
  prevBlockHash : string;
  proof : option Z;
  timestamp : Z;
  target : Z;
  coinbaseReward : Z;
  rewardAddr : string;
  transactions : list (string * Transaction);
  balances : Balances;
  nextNonce : Nonces
}.

Definition set_proof (p : option Z) (b : Block) : Block :=
  {| chainLength := chainLength b; prevBlockHash := prevBlockHash b; proof := p;
     timestamp := timestamp b; target := target b;
     coinbaseReward := coinbaseReward b; rewardAddr := rewardAddr b;
     transactions := transactions b; balances := balances b;
     nextNonce := nextNonce b |}.

Definition set_chainLength (n : Z) (b : Block) : Block :=
  {| chainLength := n; prevBlockHash := prevBlockHash b;
     proof := proof b; timestamp := timestamp b; target := target b;
     coinbaseReward := coinbaseReward b; rewardAddr := rewardAddr b;
     transactions := transactions b; balances := balances b;
     nextNonce := nextNonce b |}.

Definition set_target (t : Z) (b : Block) : Block :=
  {| chainLength := chainLength b; prevBlockHash := prevBlockHash b;
     proof := proof b; timestamp := timestamp b; target := t;
     coinbaseReward := coinbaseReward b; rewardAddr := rewardAddr b;
     transactions := transactions b; balances := balances b;
     nextNonce := nextNonce b |}.

Definition set_transactions (txs : list (string * Transaction)) (b : Block) : Block :=
  {| chainLength := chainLength b; prevBlockHash := prevBlockHash b;
     proof := proof b; timestamp := timestamp b; target := target b;
     coinbaseReward := coinbaseReward b; rewardAddr := rewardAddr b;
     transactions := txs; balances := balances b; nextNonce := nextNonce b |}.

Definition set_balances (bal : Balances) (b : Block) : Block :=
  {| chainLength := chainLength b; prevBlockHash := prevBlockHash b;
     proof := proof b; timestamp := timestamp b; target := target b;
     coinbaseReward := coinbaseReward b; rewardAddr := rewardAddr b;
     transactions := transactions b; balances := bal; nextNonce := nextNonce b |}.

Definition set_nextNonce (nn : Nonces) (b : Block) : Block :=
  {| chainLength := chainLength b; prevBlockHash := prevBlockHash b;
     proof := proof b; timestamp := timestamp b; target := target b;
     coinbaseReward := coinbaseReward b; rewardAddr := rewardAddr b;
     transactions := transactions b; balances := balances b; nextNonce := nn |}.

(** [m.get(k) || 0] *)
Definition get_or_0 (m : gmap string Z) (k : string) : Z := default 0 (m !! k).

Module Block.
Section WithRuntime.
Context {R : Runtime}.

Definition HIT_POW_TARGET : Z := Z.shiftr POW_BASE_TARGET 15.
Definition NEAR_MISS_POW_TARGET : Z := Z.shiftr POW_BASE_TARGET 18.

Definition balanceOf (b : Block) (addr : string) : Z :=
  get_or_0 (balances b) addr.

Definition totalRewards (b : Block) : Z :=
  fold_left (fun reward e => reward + tx_fee (snd e)) (transactions b)
            (coinbaseReward b).

(** The object literal handed to [JSON.stringify] by [serialize]. *)
Definition to_json (b : Block) : json :=
  JObj [("transactions",
         JArr (map (fun e => JArr [JStr (fst e); Transaction.to_json (snd e)])
                   (transactions b)));
        ("prevBlockHash", JStr (prevBlockHash b));
        ("timestamp", JNum (timestamp b));
        ("proof", match proof b with Some p => JNum p | None => JUndefined end);
        ("rewardAddr", JStr (rewardAddr b));
        ("chainLength", JNum (chainLength b))].

Definition serialize (b : Block) : string := Json.stringify (to_json b).

Definition hashVal (b : Block) : string := Utils.hash (serialize b) Hex.

Definition id (b : Block) : string := hashVal b.

Definition isGenesisBlock (b : Block) : bool :=
  bool_decide (prevBlockHash b = GENESIS_PREV_BLOCK_HASH).

Definition hasValidProof (b : Block) : bool :=
  let h := Utils.hash (serialize b) Hex in
  let n := BigInteger_hex h in
  n <? target b.

(** [new Block(rewardAddr, prevBlock, target, coinbaseReward)];
    [now] is the value of [Date.now()]. *)
Definition new (now : Z) (rewardAddr_ : string) (prevBlock : option Block)
    (target_ : Z) (coinbaseReward_ : Z) : Block :=
  let balances0 := match prevBlock with Some p => balances p | None => ∅ end in
  let nextNonce0 := match prevBlock with Some p => nextNonce p | None => ∅ end in
  let balances1 :=
    match prevBlock with
    | Some p =>
        if bool_decide (rewardAddr p = "") then balances0
        else
          let winnerBalance := get_or_0 balances0 (rewardAddr p) in
          <[rewardAddr p := winnerBalance + totalRewards p]> balances0
    | None => balances0
    end in
  {| prevBlockHash := match prevBlock with
                      | Some p => hashVal p
                      | None => GENESIS_PREV_BLOCK_HASH
                      end;
     target := target_;
     balances := balances1;
     nextNonce := nextNonce0;
     transactions := [];
     chainLength := match prevBlock with
                    | Some p => chainLength p + 1
                    | None => 0
                    end;
     timestamp := now;
     rewardAddr := rewardAddr_;
     coinbaseReward := coinbaseReward_;
     proof := None |}.

(** The constructor with its default arguments. *)
Definition new_default (now : Z) (rewardAddr_ : string) (prevBlock : option Block) : Block :=
  new now rewardAddr_ prevBlock HIT_POW_TARGET COINBASE_AMT_ALLOWED.

Definition credit (bal : Balances) (o : Output) : Balances :=
  let oldBalance := get_or_0 bal (address o) in
  <[address o := amount o + oldBalance]> bal.

Definition addTransaction (b : Block) (tx : Transaction) : Block * bool :=
  if bool_decide (is_Some (assoc_get (Transaction.id tx) (transactions b))) then (b, false)
  else if bool_decide (tx_sig tx = None) then (b, false)
  else if negb (Transaction.validSignature tx) then (b, false)
  else if negb (Transaction.sufficientFunds tx (balances b)) then (b, false)
  else
    let nonce := get_or_0 (nextNonce b) (tx_from tx) in
    if tx_nonce tx <? nonce then (b, false)
    else if tx_nonce tx >? nonce then (b, false)
    else
      let nextNonce1 := <[tx_from tx := nonce + 1]> (nextNonce b) in
      let transactions1 := assoc_set (Transaction.id tx) tx (transactions b) in
      let senderBalance := get_or_0 (balances b) (tx_from tx) in
      let balances1 := <[tx_from tx := senderBalance - Transaction.totalOutput tx]> (balances b) in
      let balances2 := fold_left credit (tx_outputs tx) balances1 in
      ({| chainLength := chainLength b; prevBlockHash := prevBlockHash b;
          proof := proof b; timestamp := timestamp b; target := target b;
          coinbaseReward := coinbaseReward b; rewardAddr := rewardAddr b;
          transactions := transactions1; balances := balances2;
          nextNonce := nextNonce1 |}, true).

(** The loop of [rerun]: stops at the first transaction that is refused. *)
Fixpoint readd (b : Block) (txs : list Transaction) : Block * bool :=
  match txs with
  | [] => (b, true)
  | tx :: rest =>
      let '(b', success) := addTransaction b tx in
      if success then readd b' rest else (b', false)
  end.

Definition rerun (b : Block) (prevBlock : Block) : Block * bool :=
  let balances0 := balances prevBlock in
  let nextNonce0 := nextNonce prevBlock in
  let winnerBalance := get_or_0 balances0 (rewardAddr prevBlock) in
  let balances1 :=
    <[rewardAddr prevBlock := winnerBalance + totalRewards prevBlock]> balances0 in
  let txs := transactions b in
  readd {| chainLength := chainLength b; prevBlockHash := prevBlockHash b;
           proof := proof b; timestamp := timestamp b; target := target b;
           coinbaseReward := coinbaseReward b; rewardAddr := rewardAddr b;
           transactions := []; balances := balances1; nextNonce := nextNonce0 |}
        (map snd txs).

(** [Block.deserialize]; [now] is [Date.now()] inside [new Block], and
    [parseInt] of a number that prints as bare digits is that number.  The
    texts read are those with the fields of the types that the classes
    declare, as [serialize] writes them; a text with a [chainLength] that
    is no such number, or with outputs that are not written as
    [{amount, address}], is outside the embedding and gives no block,
    whatever the code makes of it. *)
Fixpoint entries_of_json (js : list json) : option (list (string * Transaction)) :=
  match js with
  | [] => Some []
  | JArr (JStr txID :: txJson :: _) :: js' =>
      match Transaction.of_json txJson, entries_of_json js' with
      | Some tx, Some es => Some ((txID, tx) :: es)
      | _, _ => None
      end
  | _ :: _ => None
  end.

Definition of_json (now : Z) (o : json) : option Block :=
  match o with
  | JObj ms =>
      match assoc_get "rewardAddr" ms, assoc_get "timestamp" ms,
            assoc_get "chainLength" ms, assoc_get "prevBlockHash" ms,
            assoc_get "transactions" ms with
      | Some (JStr ra), Some (JNum ts), Some (JNum cl), Some (JStr ph),
        Some (JArr es) =>
          match entries_of_json es,
                match assoc_get "proof" ms with
                | None | Some JUndefined => Some None
                | Some (JNum p) => Some (Some p)
                | Some _ => None
                end with
          | Some entries, Some pf =>
              let b := new_default now ra None in
              Some {| chainLength := cl; prevBlockHash := ph; proof := pf;
                      timestamp := ts; target := target b;
                      coinbaseReward := coinbaseReward b;
                      rewardAddr := rewardAddr b;
                      transactions := assoc_of_entries entries;
                      balances := balances b; nextNonce := nextNonce b |}
          | _, _ => None
          end
      | _, _, _, _, _ => None
      end
  | _ => None
  end.

Definition deserialize (now : Z) (str : string) : option Block :=
  match Json.parse str with
  | Some o => of_json now o
  | None => None
  end.

(** The blocks built on a state: more transactions offered to the block,
    a child constructed on it, or a block replayed on it, any number of
    times. *)
Inductive built_on (b0 : Block) : Block -> Prop :=
| built_here : built_on b0 b0
| built_add b tx : built_on b0 b -> built_on b0 (fst (addTransaction b tx))
| built_child b now rewardAddr_ target_ coinbaseReward_ :
    built_on b0 b ->
    built_on b0 (new now rewardAddr_ (Some b) target_ coinbaseReward_)
| built_rerun b received :
    built_on b0 b -> built_on b0 (fst (rerun received b)).

End WithRuntime.
End Block.


(** *** Auxiliary notions for the statements about blocks *)

(** The part of a block that admission reads and writes. *)
Definition same_ledger (b1 b2 : Block) : Prop :=
  transactions b1 = transactions b2
  /\ balances b1 = balances b2
  /\ nextNonce b1 = nextNonce b2.

(** The values that [serialize] writes for an output and for an entry of
    [transactions]. *)
Definition output_json (o : Output) : json :=
  JObj [("amount", JNum (amount o)); ("address", JStr (address o))].

Definition entry_json (e : string * Transaction) : json :=
  JArr [JStr (fst e); Transaction.to_json (snd e)].

(** The block that [deserialize] builds from the text of [b]. *)
Definition wire_image (b : Block) : Block :=
  {| chainLength := chainLength b; prevBlockHash := prevBlockHash b;
     proof := proof b; timestamp := timestamp b;
     target := Block.HIT_POW_TARGET; coinbaseReward := COINBASE_AMT_ALLOWED;
     rewardAddr := rewardAddr b; transactions := transactions b;
     balances := ∅; nextNonce := ∅ |}.

(** What [rerun] and [addTransaction] leave of a block. *)
Definition same_header (b b' : Block) : Prop :=
  chainLength b' = chainLength b
  /\ prevBlockHash b' = prevBlockHash b
  /\ proof b' = proof b
  /\ timestamp b' = timestamp b
  /\ rewardAddr b' = rewardAddr b.

Section RerunStart.
Context {R : Runtime}.

(** The state in which [rerun] starts to admit again. *)
Definition rerun_start (b prevBlock : Block) : Block :=
  set_nextNonce (nextNonce prevBlock)
    (set_balances
       (<[rewardAddr prevBlock :=
            get_or_0 (balances prevBlock) (rewardAddr prevBlock)
            + Block.totalRewards prevBlock]> (balances prevBlock))
       (set_transactions [] b)).

End RerunStart.

(** ** [client.ts] and [miner.ts]

    A node is a [Client]; a [Miner] is a [Client] that carries the two
    fields its subclass adds.  Methods run in a state monad over the node:
    a call returns, throws, or (for the two unbounded loops) runs out of the
    fuel it was given.  [console.log] is not part of the state.  The clock
    is read once per call ([now]).  [pendingBlocks] holds each [Set] of
    waiting blocks as the list of its members in insertion order; a block
    has no identity of its own here, so a block that is received again is a
    new member, as any block is that arrives as text.  In the code an
    object that waits already is not added a second time; what is said of
    the blocks that wait is said for texts and for objects that do not
    wait yet. *)

Definition DEFAULT_TX_FEE : Z := 1.
Definition CONFIRMED_DEPTH : Z := 6.
Definition NUM_ROUNDS_MINING : Z := 2000.

Definition MISSING_BLOCK : string := "MISSING_BLOCK".
Definition POST_TRANSACTION : string := "POST_TRANSACTION".
Definition PROOF_FOUND : string := "PROOF_FOUND".
Definition START_MINING : string := "START_MINING".

Inductive Payload :=
| PTransaction (tx : Transaction)
| PString (s : string)
| PNone.

(** What the node asked of its collaborators: the two methods of [Net], and
    [setTimeout(() => this.emit(msg), 0)]. *)
Inductive Effect :=
| Broadcast (msg : string) (o : Payload)
| SendMessage (to : string) (msg : string) (o : Payload)
| EmitLater (msg : string).

Record MinerFields := {
  miningRounds : Z;
  currentBlock : Block
}.

Record Client := {
  name : option string;
  keyPair : Keypair;
  c_address : string;
  nonce : Z;
  pendingSpent : Z;
  blocks : gmap string Block;
  pendingBlocks : gmap string (list Block);
  lastConfirmedBlock : option Block;
  lastBlock : option Block;
  net : list Effect;
  miner : option MinerFields
}.

Inductive Error :=
| InsufficientFunds (requested available : Z)
| GenesisAlreadySet
| TypeError
| SyntaxError.

Inductive Result (A : Type) :=
| Returned (a : A) (c : Client)
| Thrown (e : Error) (c : Client)
| OutOfFuel.
Arguments Returned {A} a c.
Arguments Thrown {A} e c.
Arguments OutOfFuel {A}.

Definition M (A : Type) : Type := Client -> Result A.

Definition ret {A} (a : A) : M A := fun c => Returned a c.
Definition throw {A} (e : Error) : M A := fun c => Thrown e c.
Definition bind {A B} (m : M A) (f : A -> M B) : M B :=
  fun c => match m c with
           | Returned a c' => f a c'
           | Thrown e c' => Thrown e c'
           | OutOfFuel => OutOfFuel
           end.
Definition get : M Client := fun c => Returned c c.
Definition modify (f : Client -> Client) : M unit := fun c => Returned tt (f c).

Declare Scope node_scope.
Delimit Scope node_scope with node.
Notation "x <- m ;; k" := (bind m (fun x => k))
  (at level 100, m at next level, right associativity) : node_scope.
Notation "m ;;; k" := (bind m (fun _ => k))
  (at level 100, right associativity) : node_scope.

Fixpoint for_each {A} (f : A -> M unit) (l : list A) : M unit :=
  match l with
  | [] => ret tt
  | x :: l' => bind (f x) (fun _ => for_each f l')
  end.

Definition set_nonce (n : Z) (c : Client) : Client :=
  {| name := name c; keyPair := keyPair c; c_address := c_address c; nonce := n;
     pendingSpent := pendingSpent c; blocks := blocks c;
     pendingBlocks := pendingBlocks c;
     lastConfirmedBlock := lastConfirmedBlock c; lastBlock := lastBlock c;
     net := net c; miner := miner c |}.

Definition set_blocks (bs : gmap string Block) (c : Client) : Client :=
  {| name := name c; keyPair := keyPair c; c_address := c_address c;
     nonce := nonce c; pendingSpent := pendingSpent c; blocks := bs;
     pendingBlocks := pendingBlocks c;
     lastConfirmedBlock := lastConfirmedBlock c; lastBlock := lastBlock c;
     net := net c; miner := miner c |}.

Definition set_pendingBlocks (ps : gmap string (list Block)) (c : Client) : Client :=
  {| name := name c; keyPair := keyPair c; c_address := c_address c;
     nonce := nonce c; pendingSpent := pendingSpent c; blocks := blocks c;
     pendingBlocks := ps;
     lastConfirmedBlock := lastConfirmedBlock c; lastBlock := lastBlock c;
     net := net c; miner := miner c |}.

Definition set_lastConfirmedBlock (b : option Block) (c : Client) : Client :=
  {| name := name c; keyPair := keyPair c; c_address := c_address c;
     nonce := nonce c; pendingSpent := pendingSpent c; blocks := blocks c;
     pendingBlocks := pendingBlocks c;
     lastConfirmedBlock := b; lastBlock := lastBlock c;
     net := net c; miner := miner c |}.

Definition set_lastBlock (b : option Block) (c : Client) : Client :=
  {| name := name c; keyPair := keyPair c; c_address := c_address c;
     nonce := nonce c; pendingSpent := pendingSpent c; blocks := blocks c;
     pendingBlocks := pendingBlocks c;
     lastConfirmedBlock := lastConfirmedBlock c; lastBlock := b;
     net := net c; miner := miner c |}.

Definition do_effect (e : Effect) (c : Client) : Client :=
  {| name := name c; keyPair := keyPair c; c_address := c_address c;
     nonce := nonce c; pendingSpent := pendingSpent c; blocks := blocks c;
     pendingBlocks := pendingBlocks c;
     lastConfirmedBlock := lastConfirmedBlock c; lastBlock := lastBlock c;
     net := net c ++ [e]; miner := miner c |}.

Definition set_miner (m : option MinerFields) (c : Client) : Client :=
  {| name := name c; keyPair := keyPair c; c_address := c_address c;
     nonce := nonce c; pendingSpent := pendingSpent c; blocks := blocks c;
     pendingBlocks := pendingBlocks c;
     lastConfirmedBlock := lastConfirmedBlock c; lastBlock := lastBlock c;
     net := net c; miner := m |}.

Module Node.
Section WithRuntime.
Context {R : Runtime}.
Local Open Scope node_scope.

(** *** [class Client] *)

Definition setGenesisBlock (startingBlock : Block) : M unit := fun c =>
  match lastBlock c with
  | Some _ => Thrown GenesisAlreadySet c
  | None =>
      let c1 := set_lastConfirmedBlock (Some startingBlock) c in
      let c2 := set_lastBlock (Some startingBlock) c1 in
      Returned tt (set_blocks (<[Block.id startingBlock := startingBlock]> (blocks c2)) c2)
  end.

(** [new Client({name, net, startingBlock})]; [kp] is the pair that
    [generateKeypair()] returns. *)
Definition Client_new (name_ : option string) (kp : Keypair)
    (startingBlock : option Block) : Client :=
  let c := {| name := name_; keyPair := kp;
              c_address := Utils.calcAddress (kp_public kp);
              nonce := 0; pendingSpent := 0; blocks := ∅; pendingBlocks := ∅;
              lastConfirmedBlock := None; lastBlock := None;
              net := []; miner := None |} in
  match startingBlock with
  | Some g => match setGenesisBlock g c with
              | Returned _ c' => c'
              | _ => c
              end
  | None => c
  end.

(** [Block.makeGenesis(clientBalanceMap)]: the genesis block, and what
    [setGenesisBlock] does on each client of the map.  In the code the
    call ends at the first client on which [setGenesisBlock] throws, one
    that has a block already; what is said of [makeGenesis] is said for
    clients that have none. *)
Definition makeGenesis (now : Z) (clientBalanceMap : list (Client * Z))
    : Block * list (Result unit) :=
  let g := Block.new_default now GENESIS_REWARD_ADDR None in
  let g := set_balances
             (fold_left (fun bal e => <[c_address (fst e) := snd e]> bal)
                        clientBalanceMap (balances g)) g in
  (g, map (fun e => setGenesisBlock g (fst e)) clientBalanceMap).

Definition confirmedBalance : M Z := fun c =>
  match lastConfirmedBlock c with
  | Some b => Returned (Block.balanceOf b (c_address c)) c
  | None => Thrown TypeError c
  end.

Definition availableGold : M Z :=
  cb <- confirmedBalance ;;
  c <- get ;;
  ret (cb - pendingSpent c).

Definition postTransaction (outputs : Outputs) (fee : Z) : M unit :=
  let totalPayments :=
    Number.add (fold_left (fun acc o => Number.add acc (amount o)) outputs 0) fee in
  available <- availableGold ;;
  if totalPayments >? available
  then throw (InsufficientFunds totalPayments available)
  else
    c <- get ;;
    let tx := {| tx_from := c_address c; tx_nonce := nonce c;
                 tx_pubKey := kp_public (keyPair c); tx_sig := None;
                 tx_fee := fee; tx_outputs := outputs |} in
    let tx := Transaction.sign (kp_private (keyPair c)) tx in
    modify (fun c => set_nonce (nonce c + 1) c) ;;;
    modify (do_effect (Broadcast POST_TRANSACTION (PTransaction tx))).

Definition requestMissingBlock (block : Block) : M unit :=
  c <- get ;;
  let msg := JObj [("from", JStr (c_address c));
                   ("missing", JStr (prevBlockHash block))] in
  modify (do_effect (Broadcast MISSING_BLOCK (PString (Json.stringify msg)))).

Definition provideMissingBlock (msg : string) : M unit :=
  match Json.parse msg with
  | None => throw SyntaxError
  | Some (JObj ms) =>
      c <- get ;;
      match assoc_get "missing" ms with
      | Some (JStr missing) =>
          match blocks c !! missing with
          | Some block =>
              match assoc_get "from" ms with
              | Some (JStr from) =>
                  modify (do_effect (SendMessage from PROOF_FOUND
                                       (PString (Block.serialize block))))
              | _ => throw TypeError
              end
          | None => ret tt
          end
      | _ => ret tt
      end
  | Some JNull | Some JUndefined => throw TypeError
  | Some _ => ret tt
  end.

(** The [while] loop of [setLastConfirmed]. *)
Fixpoint walk_back (fuel : nat) (store : gmap string Block) (block : Block)
    (confirmedBlockHeight : Z) : M Block :=
  if chainLength block >? confirmedBlockHeight then
    match fuel with
    | O => fun _ => OutOfFuel
    | S fuel' =>
        match store !! prevBlockHash block with
        | Some parent => walk_back fuel' store parent confirmedBlockHeight
        | None => throw TypeError
        end
    end
  else ret block.

Definition setLastConfirmed (fuel : nat) : M unit :=
  c <- get ;;
  match lastBlock c with
  | None => throw TypeError
  | Some block =>
      let confirmedBlockHeight := chainLength block - CONFIRMED_DEPTH in
      let confirmedBlockHeight :=
        if confirmedBlockHeight <? 0 then 0 else confirmedBlockHeight in
      block <- walk_back fuel (blocks c) block confirmedBlockHeight ;;
      modify (set_lastConfirmedBlock (Some block))
  end.

(** The fork choice of [receiveBlock]:
    [if (this.lastBlock.chainLength < block.chainLength) { ... }]. *)
Definition choose_fork (fuel : nat) (block : Block) : M unit :=
  c <- get ;;
  match lastBlock c with
  | None => throw TypeError
  | Some last =>
      if chainLength last <? chainLength block
      then modify (set_lastBlock (Some block)) ;;; setLastConfirmed fuel
      else ret tt
  end.

(** The end of [receiveBlock]: the blocks that waited for [block] are
    taken out of [pendingBlocks] and received in turn. *)
Definition release (self : Block + string -> M (option Block)) (block : Block)
    : M unit :=
  c <- get ;;
  let unstuckBlocks := default [] (pendingBlocks c !! Block.id block) in
  modify (fun c => set_pendingBlocks (delete (Block.id block) (pendingBlocks c)) c) ;;;
  for_each (fun b => self (inl b) ;;; ret tt) unstuckBlocks.

(** The body of [Client.receiveBlock]; [self] stands for [this.receiveBlock],
    which a [Miner] overrides. *)
Definition Client_receiveBlock (self : Block + string -> M (option Block))
    (fuel : nat) (now : Z) (input : Block + string) : M (option Block) :=
  match (match input with
         | inl b => Some b
         | inr str => Block.deserialize now str
         end) with
  | None => throw SyntaxError
  | Some block =>
      c <- get ;;
      if bool_decide (is_Some (blocks c !! Block.id block)) then ret None
      else if negb (Block.hasValidProof block) then ret None
      else
        match blocks c !! prevBlockHash block with
        | None =>
            stuckBlocks <-
              match pendingBlocks c !! prevBlockHash block with
              | None => requestMissingBlock block ;;; ret []
              | Some stuck => ret stuck
              end ;;
            let stuckBlocks := stuckBlocks ++ [block] in
            modify (fun c => set_pendingBlocks
                       (<[prevBlockHash block := stuckBlocks]> (pendingBlocks c)) c) ;;;
            ret None
        | Some prevBlock =>
            let '(block, success) := Block.rerun block prevBlock in
            if negb success then ret None
            else
              modify (fun c => set_blocks (<[Block.id block := block]> (blocks c)) c) ;;;
              choose_fork fuel block ;;;
              release self block ;;;
              ret (Some block)
        end
  end.

(** *** [class Miner extends Client] *)

Definition startNewSearch (now : Z) : M unit :=
  c <- get ;;
  match miner c with
  | None => throw TypeError
  | Some m =>
      let b := Block.new_default now (c_address c) (lastBlock c) in
      modify (set_miner (Some {| miningRounds := miningRounds m;
                                 currentBlock := set_proof (Some 0) b |}))
  end.

(** [new Miner({name, net, startingBlock, miningRounds})]. *)
Definition Miner_new (now : Z) (name_ : option string) (kp : Keypair)
    (startingBlock : option Block) (miningRounds_ : Z) : Client :=
  let c := Client_new name_ kp startingBlock in
  let b := Block.new_default now (c_address c) (lastBlock c) in
  set_miner (Some {| miningRounds := miningRounds_;
                     currentBlock := set_proof (Some 0) b |}) c.

Definition Miner_receiveBlock (super : Block + string -> M (option Block))
    (now : Z) (s : Block + string) : M (option Block) :=
  b <- super s ;;
  match b with
  | None => ret None
  | Some b =>
      c <- get ;;
      match miner c with
      | Some m =>
          (if chainLength b >? chainLength (currentBlock m)
           then startNewSearch now else ret tt) ;;;
          ret None
      | None => ret None
      end
  end.

(** [this.receiveBlock]: the method of the object's class. *)
Fixpoint receiveBlock (fuel : nat) (now : Z) (input : Block + string)
    : M (option Block) :=
  match fuel with
  | O => fun _ => OutOfFuel
  | S fuel' => fun c =>
      match miner c with
      | None => Client_receiveBlock (receiveBlock fuel' now) fuel' now input c
      | Some _ =>
          Miner_receiveBlock
            (Client_receiveBlock (receiveBlock fuel' now) fuel' now) now input c
      end
  end.

Definition announceProof : M unit :=
  c <- get ;;
  match miner c with
  | None => throw TypeError
  | Some m =>
      modify (do_effect (Broadcast PROOF_FOUND
                           (PString (Block.serialize (currentBlock m)))))
  end.

(** The [while] loop of [findProof]; [rounds] bounds its iterations. *)
Fixpoint search (fuel : nat) (now : Z) (rounds : nat) : M unit :=
  match rounds with
  | O => ret tt
  | S rounds' =>
      c <- get ;;
      match miner c with
      | None => throw TypeError
      | Some m =>
          if Block.hasValidProof (currentBlock m) then
            announceProof ;;;
            receiveBlock fuel now (inl (currentBlock m)) ;;;
            startNewSearch now
          else
            modify (set_miner
                      (Some {| miningRounds := miningRounds m;
                               currentBlock :=
                                 set_proof (option_map Z.succ (proof (currentBlock m)))
                                           (currentBlock m) |})) ;;;
            search fuel now rounds'
      end
  end.

Definition findProof (fuel : nat) (now : Z) (oneAndDone : bool) : M unit :=
  c <- get ;;
  match miner c with
  | None => throw TypeError
  | Some m =>
      match proof (currentBlock m) with
      | Some _ => search fuel now (Z.to_nat (miningRounds m))
      | None => ret tt
      end ;;;
      if oneAndDone then ret tt else modify (do_effect (EmitLater START_MINING))
  end.

(** [emit(Miner.START_MINING)] runs the handler registered just before. *)
Definition initialize (fuel : nat) (now : Z) : M unit :=
  startNewSearch now ;;;
  findProof fuel now false.

(** [Miner.addTransaction] writes to the candidate block.  A block is a
    value here: the candidate is the miner's own.  In the code it is an
    object, which is also in the store from the moment [findProof] has
    received it until [startNewSearch] replaces it, that is, for good when
    [receiveBlock] throws in between. *)
Definition addTransaction (tx : Transaction) : M bool :=
  c <- get ;;
  match miner c with
  | None => throw TypeError
  | Some m =>
      let '(b, ok) := Block.addTransaction (currentBlock m) tx in
      modify (set_miner (Some {| miningRounds := miningRounds m; currentBlock := b |})) ;;;
      ret ok
  end.

(** The node once [this.blocks.set(block.id, block)] has run. *)
Definition store_block (b : Block) (c : Client) : Client :=
  set_blocks (<[Block.id b := b]> (blocks c)) c.

(** The four ways in which [receiveBlock] turns a block down: stored
    already, no valid proof, no parent in the store, or a transaction
    that [rerun] refuses. *)
Definition turned_down (c : Client) (b : Block) : Prop :=
  is_Some (blocks c !! Block.id b)
  \/ Block.hasValidProof b = false
  \/ blocks c !! prevBlockHash b = None
  \/ exists parent, blocks c !! prevBlockHash b = Some parent
                    /\ snd (Block.rerun b parent) = false.

(** *** The methods of a node, as calls from outside *)

Inductive Call :=
| CallSetGenesisBlock (startingBlock : Block)
| CallPostTransaction (outputs : Outputs) (fee : Z)
| CallReceiveBlock (block : Block + string)
| CallRequestMissingBlock (block : Block)
| CallProvideMissingBlock (msg : string)
| CallSetLastConfirmed
| CallInitialize
| CallStartNewSearch
| CallFindProof (oneAndDone : bool)
| CallAnnounceProof
| CallAddTransaction (tx : Transaction).

Definition run (fuel : nat) (now : Z) (call : Call) : M unit :=
  match call with
  | CallSetGenesisBlock g => setGenesisBlock g
  | CallPostTransaction outputs fee => postTransaction outputs fee
  | CallReceiveBlock block => receiveBlock fuel now block ;;; ret tt
  | CallRequestMissingBlock block => requestMissingBlock block
  | CallProvideMissingBlock msg => provideMissingBlock msg
  | CallSetLastConfirmed => setLastConfirmed fuel
  | CallInitialize => initialize fuel now
  | CallStartNewSearch => startNewSearch now
  | CallFindProof oneAndDone => findProof fuel now oneAndDone
  | CallAnnounceProof => announceProof
  | CallAddTransaction tx => addTransaction tx ;;; ret tt
  end.

(** The states a node goes through: constructed, then any calls, each of
    which returns or throws. *)
Inductive reachable : Client -> Prop :=
| reach_client name_ kp startingBlock :
    reachable (Client_new name_ kp startingBlock)
| reach_miner now name_ kp startingBlock miningRounds_ :
    reachable (Miner_new now name_ kp startingBlock miningRounds_)
| reach_returned c fuel now call c' :
    reachable c -> run fuel now call c = Returned tt c' -> reachable c'
| reach_thrown c fuel now call e c' :
    reachable c -> run fuel now call c = Thrown e c' -> reachable c'.

End WithRuntime.
End Node.

(** A computation that leaves [pendingSpent] as it was, however it ends. *)
Definition keeps_pendingSpent {A} (m : M A) : Prop :=
  forall c,
    match m c with
    | Returned _ c' | Thrown _ c' => pendingSpent c' = pendingSpent c
    | OutOfFuel => True
    end.

(** *** Chains in a store *)

(** [a] is [b] or lies on the path of parents from [b] in the store. *)
Inductive ancestor (store : gmap string Block) (a : Block) : Block -> Prop :=
| ancestor_self : ancestor store a a
| ancestor_parent b p :
    store !! prevBlockHash b = Some p -> ancestor store a p -> ancestor store a b.

(** The chain lengths on the path of parents from [b] count down by one to
    a block of length 0. *)
Inductive linked (store : gmap string Block) : Block -> Prop :=
| linked_genesis b : chainLength b = 0 -> linked store b
| linked_child b p :
    0 < chainLength b ->
    store !! prevBlockHash b = Some p ->
    chainLength p = chainLength b - 1 ->
    linked store p ->
    linked store b.

(** *** Honest blocks and consistent nodes *)

Section Consistency.
Context {R : Runtime}.

(** The number of blocks that wait for a parent. *)
Definition pending_count (ps : gmap string (list Block)) : nat :=
  map_fold (fun _ us n => (length us + n)%nat) 0%nat ps.

(** Every transaction of the block is stored under its id. *)
Definition well_keyed (b : Block) : Prop :=
  transactions b
  = map (fun tx => (Transaction.id tx, tx)) (map snd (transactions b)).

(** Blocks whose transactions are stored under their ids, and that are one
    longer than any of them they name as parent. *)
Definition honest_blocks (U : list Block) : Prop :=
  Forall well_keyed U
  /\ forall u x, u ∈ U -> x ∈ U ->
                 Block.id x = prevBlockHash u ->
                 chainLength u = chainLength x + 1.

(** A node with a last block, whose stored chains count their parents,
    whose waiting blocks are among [U], and in whose store a block of [U]
    finds only a parent that is one shorter. *)
Record consistent (U : list Block) (c : Client) : Prop := {
  has_last : is_Some (lastBlock c);
  stored_linked : forall k x, blocks c !! k = Some x -> linked (blocks c) x;
  pending_known :
    forall k us u, pendingBlocks c !! k = Some us -> u ∈ us -> u ∈ U;
  parents_shorter :
    forall u p, u ∈ U -> blocks c !! prevBlockHash u = Some p ->
                chainLength u = chainLength p + 1
}.

(** [self] returns on a block of [U] in a consistent node with fewer than
    [bound] waiting blocks, and leaves the node consistent. *)
Definition returns_below (U : list Block) (bound : nat) (self : Block + string -> M (option Block))
    : Prop :=
  forall c u,
    u ∈ U -> consistent U c ->
    (pending_count (pendingBlocks c) < bound)%nat ->
    exists r c',
      self (inl u) c = Returned r c'
      /\ consistent U c'
      /\ (pending_count (pendingBlocks c') <= S (pending_count (pendingBlocks c)))%nat.

End Consistency.

(** ** Blocks as objects

    [balances] and [nextNonce] of a block are references to [Map] objects,
    and a block is itself an object that methods change in place.  The heap
    holds the [Map] objects and the block objects; [new Map(m)] allocates a
    copy.  [fields] carries what a block owns by value; its two map
    components are not read, the maps are those at the references. *)

Record BlockObject := {
  fields : Block;
  balances_ref : nat;
  nextNonce_ref : nat
}.

Record Heap := {
  maps : list (gmap string Z);
  objects : list BlockObject
}.

Module Heap.
Section WithRuntime.
Context {R : Runtime}.

(** [new Map(m)] *)
Definition new_Map (m : gmap string Z) (h : Heap) : nat * Heap :=
  (length (maps h), {| maps := maps h ++ [m]; objects := objects h |}).

(** [m.set(k, v)] and the other writes to the [Map] at a reference. *)
Definition write_Map (l : nat) (m : gmap string Z) (h : Heap) : Heap :=
  {| maps := <[l := m]> (maps h); objects := objects h |}.

Definition write_object (this : nat) (o : BlockObject) (h : Heap) : Heap :=
  {| maps := maps h; objects := <[this := o]> (objects h) |}.

(** The block an object stands for. *)
Definition load (h : Heap) (this : nat) : option Block :=
  match objects h !! this with
  | Some o =>
      match maps h !! balances_ref o, maps h !! nextNonce_ref o with
      | Some bal, Some nn => Some (set_nextNonce nn (set_balances bal (fields o)))
      | _, _ => None
      end
  | None => None
  end.

(** [this.addTransaction(tx)]: the two maps of [this] are written in place,
    [this.transactions] is the object's own. *)
Definition addTransaction (this : nat) (tx : Transaction) (h : Heap)
    : option (Heap * bool) :=
  match objects h !! this, load h this with
  | Some o, Some b =>
      let '(b', ok) := Block.addTransaction b tx in
      let h := write_Map (nextNonce_ref o) (nextNonce b') h in
      let h := write_Map (balances_ref o) (balances b') h in
      Some (write_object this {| fields := b'; balances_ref := balances_ref o;
                                 nextNonce_ref := nextNonce_ref o |} h, ok)
  | _, _ => None
  end.

Fixpoint readd (this : nat) (txs : list Transaction) (h : Heap)
    : option (Heap * bool) :=
  match txs with
  | [] => Some (h, true)
  | tx :: rest =>
      match addTransaction this tx h with
      | Some (h', true) => readd this rest h'
      | Some (h', false) => Some (h', false)
      | None => None
      end
  end.

(** [this.rerun(prevBlock)] *)
Definition rerun (this prevBlock : nat) (h : Heap) : option (Heap * bool) :=
  match objects h !! prevBlock with
  | Some p =>
      match maps h !! balances_ref p with
      | Some prev_balances =>
          let '(bal, h) := new_Map prev_balances h in
          match objects h !! this with
          | Some o =>
              let h := write_object this
                         {| fields := fields o; balances_ref := bal;
                            nextNonce_ref := nextNonce_ref o |} h in
              match objects h !! prevBlock with
              | Some p =>
                  match maps h !! nextNonce_ref p with
                  | Some prev_nextNonce =>
                      let '(nn, h) := new_Map prev_nextNonce h in
                      match objects h !! this with
                      | Some o =>
                          let h := write_object this
                                     {| fields := fields o;
                                        balances_ref := balances_ref o;
                                        nextNonce_ref := nn |} h in
                          match load h this, load h prevBlock, objects h !! this with
                          | Some b, Some pb, Some o =>
                              let winnerBalance := Block.balanceOf b (rewardAddr pb) in
                              let h := write_Map (balances_ref o)
                                         (<[rewardAddr pb :=
                                              winnerBalance + Block.totalRewards pb]>
                                            (balances b)) h in
                              let txs := transactions (fields o) in
                              let h := write_object this
                                         {| fields := set_transactions [] (fields o);
                                            balances_ref := balances_ref o;
                                            nextNonce_ref := nextNonce_ref o |} h in
                              readd this (map snd txs) h
                          | _, _, _ => None
                          end
                      | None => None
                      end
                  | None => None
                  end
              | None => None
              end
          | None => None
          end
      | None => None
      end
  | None => None
  end.

(** An object whose references point into the heap. *)
Definition valid (h : Heap) (this : nat) : Prop :=
  exists o, objects h !! this = Some o
            /\ (balances_ref o < length (maps h))%nat
            /\ (nextNonce_ref o < length (maps h))%nat.

End WithRuntime.
End Heap.

(** ** Notions for the further properties *)

(** A computation whose final state, however it ends, is related to its
    first by [Rel]. *)
Definition steps (Rel : Client -> Client -> Prop) {A} (m : M A) : Prop :=
  forall c,
    match m c with
    | Returned _ c' | Thrown _ c' => Rel c c'
    | OutOfFuel => True
    end.

(** What a method may change of a node: it keeps the node's name, keys and
    address, does not lower its nonce, removes no block from its store and
    takes back nothing it has sent. *)
Definition evolves (c c' : Client) : Prop :=
  name c' = name c
  /\ keyPair c' = keyPair c
  /\ c_address c' = c_address c
  /\ nonce c <= nonce c'
  /\ (forall k, is_Some (blocks c !! k) -> is_Some (blocks c' !! k))
  /\ net c `prefix_of` net c'.

(** The last block of [c'] is no shorter than that of [c]. *)
Definition grows (c c' : Client) : Prop :=
  forall l, lastBlock c = Some l ->
            exists l', lastBlock c' = Some l' /\ chainLength l <= chainLength l'.

Section StoreKeyed.
Context {R : Runtime}.

(** Every block of the store is stored under its id. *)
Definition store_keyed (c : Client) : Prop :=
  forall k x, blocks c !! k = Some x -> Block.id x = k.

End StoreKeyed.

(** *** Gold in a ledger *)

(** All the gold of a ledger. *)
Definition total_gold (bal : Balances) : Z :=
  map_fold (fun _ v acc => v + acc) 0 bal.

(** What the outputs pay to an address. *)
Definition received (addr : string) (outputs : Outputs) : Z :=
  fold_right (fun o acc => if bool_decide (address o = addr)
                           then amount o + acc else acc) 0 outputs.

(** No address owes gold. *)
Definition solvent (bal : Balances) : Prop :=
  map_Forall (fun _ v => 0 <= v) bal.

(** A ledger in which the code's sums are exact: no address owes gold,
    and all the gold is a safe integer, so that every balance is one. *)
Definition exact_ledger (bal : Balances) : Prop :=
  solvent bal /\ total_gold bal <= MAX_SAFE_INTEGER.

(** A transaction with no negative fee and no negative amount. *)
Definition pays_forward (tx : Transaction) : Prop :=
  0 <= tx_fee tx /\ Forall (fun o => 0 <= amount o) (tx_outputs tx).

(** From [c] to [c'] the block stored under [k] stays stored, and no block
    comes to wait for it. *)
Definition settled (k : string) (c c' : Client) : Prop :=
  is_Some (blocks c !! k) ->
  is_Some (blocks c' !! k)
  /\ (pendingBlocks c !! k = None -> pendingBlocks c' !! k = None).

(** *** What a call is given, and two nodes side by side *)

Section Receiving.
Context {R : Runtime}.

(** The block that [receiveBlock] works on: the block handed to it, or
    the block that [Block.deserialize] makes of the text. *)
Definition incoming (now : Z) (input : Block + string) : option Block :=
  match input with
  | inl b => Some b
  | inr str => Block.deserialize now str
  end.

(** The numbers that [serialize] writes for the block are safe integers:
    they are written as their digits, and read back as themselves. *)
Definition written_exactly (b : Block) : Prop :=
  safe_integer (chainLength b)
  /\ safe_integer (timestamp b)
  /\ safe_integer (default 0 (proof b))
  /\ Forall (fun e => safe_integer (tx_nonce (snd e))
                      /\ safe_integer (tx_fee (snd e))
                      /\ Forall (fun o => safe_integer (amount o))
                                (tx_outputs (snd e)))
            (transactions b).

(** [crypto] reads the public key of every transaction of the block, so
    that no [validSignature] on them throws. *)
Definition readable_keys (b : Block) : Prop :=
  Forall (fun e => rsa_key (tx_pubKey (snd e)) = true) (transactions b).

(** The replay of [b] on [parent] verifies with keys that [crypto] reads
    and computes with numbers that nothing rounds: the parent's ledger owes
    no gold and holds, with the parent's rewards, a safe integer of it; the
    fees, the amounts and the parent's coinbase reward are not negative;
    and no nonce of the parent's leaves the safe integers when it counts
    the transactions of [b]. *)
Definition replays_exactly (b parent : Block) : Prop :=
  readable_keys b
  /\ solvent (balances parent)
  /\ 0 <= coinbaseReward parent
  /\ Forall (fun e => 0 <= tx_fee (snd e)) (transactions parent)
  /\ total_gold (balances parent) + Block.totalRewards parent
     <= MAX_SAFE_INTEGER
  /\ Forall (fun e => 0 <= tx_fee (snd e)
                      /\ Forall (fun o => 0 <= amount o) (tx_outputs (snd e)))
            (transactions b)
  /\ map_Forall (fun _ n => safe_integer n
                            /\ safe_integer (n + Z.of_nat (length (transactions b))))
                (nextNonce parent).

End Receiving.

(** Two nodes that agree on every field that [Client] declares; the fields
    that [Miner] adds are left aside. *)
Definition same_client (c1 c2 : Client) : Prop :=
  name c1 = name c2
  /\ keyPair c1 = keyPair c2
  /\ c_address c1 = c_address c2
  /\ nonce c1 = nonce c2
  /\ pendingSpent c1 = pendingSpent c2
  /\ blocks c1 = blocks c2
  /\ pendingBlocks c1 = pendingBlocks c2
  /\ lastConfirmedBlock c1 = lastConfirmedBlock c2
  /\ lastBlock c1 = lastBlock c2
  /\ net c1 = net c2.

(** Two calls that end in the same way, returned, thrown with the same
    error or out of fuel, on nodes that agree as above; what they return
    is left aside. *)
Definition same_end {A B} (r1 : Result A) (r2 : Result B) : Prop :=
  match r1, r2 with
  | Returned _ c1, Returned _ c2 => same_client c1 c2
  | Thrown e1 c1, Thrown e2 c2 => e1 = e2 /\ same_client c1 c2
  | OutOfFuel, OutOfFuel => True
  | _, _ => False
  end.

(** [m1] on a miner goes as [m2] goes on the same node without the fields
    of [Miner]: the two end in the same way, with results that [Q] relates,
    and [m1] leaves a miner. *)
Definition as_on_client {A B} (Q : A -> B -> Prop) (m1 : M A) (m2 : M B) : Prop :=
  forall c,
    is_Some (miner c) ->
    match m1 c, m2 (set_miner None c) with
    | Returned a c1, Returned b c2 =>
        Q a b /\ c2 = set_miner None c1 /\ is_Some (miner c1)
    | Thrown e1 c1, Thrown e2 c2 =>
        e1 = e2 /\ c2 = set_miner None c1 /\ is_Some (miner c1)
    | OutOfFuel, OutOfFuel => True
    | _, _ => False
    end.

(** ** [fakeNet.ts]

    The clients of the network are objects: a registered client and a
    scheduled delivery refer to one, here by a reference of type
    [ClientRef], of which the network reads the [address].  [scheduled]
    holds, oldest first, the callbacks [() => client.emit(msg, o)] handed
    to [setTimeout]; a call is [Done] or [Threw], with the network as the
    call left it.  [console.log] is not part of the state. *)

Module FakeNet.
Section WithClients.
Context {ClientRef : Type}.
Variable address : ClientRef -> string.

Record FakeNet := {
  clients : list (string * ClientRef);
  scheduled : list (ClientRef * string * Payload)
}.

Inductive Outcome :=
| Done (net : FakeNet)
| Threw (net : FakeNet).

(** [new FakeNet()] *)
Definition new : FakeNet := {| clients := []; scheduled := [] |}.

Definition register (clientList : list ClientRef) (net : FakeNet) : FakeNet :=
  fold_left (fun net client =>
               {| clients := assoc_set (address client) client (clients net);
                  scheduled := scheduled net |})
            clientList net.

Definition sendMessage (addr : string) (msg : string) (o : Payload)
    (net : FakeNet) : Outcome :=
  match assoc_get addr (clients net) with
  | None => Threw net
  | Some client =>
      Done {| clients := clients net;
              scheduled := scheduled net ++ [(client, msg, o)] |}
  end.

(** The loop of [broadcast] over [this.clients.keys()]. *)
Fixpoint broadcast_to (addrs : list string) (msg : string) (o : Payload)
    (net : FakeNet) : Outcome :=
  match addrs with
  | [] => Done net
  | addr :: addrs' =>
      match sendMessage addr msg o net with
      | Done net' => broadcast_to addrs' msg o net'
      | Threw net' => Threw net'
      end
  end.

Definition broadcast (msg : string) (o : Payload) (net : FakeNet) : Outcome :=
  broadcast_to (map fst (clients net)) msg o net.

(** The networks that [register], [sendMessage] and [broadcast] make of a
    new one. *)
Inductive reachable : FakeNet -> Prop :=
| reach_new : reachable new
| reach_register clientList net :
    reachable net -> reachable (register clientList net)
| reach_sendMessage addr msg o net net' :
    reachable net ->
    (sendMessage addr msg o net = Done net' \/ sendMessage addr msg o net = Threw net') ->
    reachable net'
| reach_broadcast msg o net net' :
    reachable net ->
    (broadcast msg o net = Done net' \/ broadcast msg o net = Threw net') ->
    reachable net'.

End WithClients.
End FakeNet.

(** Whether a call has returned. *)
Definition is_returned {A} (r : Result A) : bool :=
  match r with
  | Returned _ _ => true
  | _ => false
  end.

Section Candidate.
Context {R : Runtime}.

(** What holds of the block a miner works on: it carries a proof to try,
    pays the miner, has the default target and reward, and stores its
    transactions, each once, under their ids. *)
Definition candidate_ready (c : Client) : Prop :=
  forall m,
    miner c = Some m ->
    is_Some (proof (currentBlock m))
    /\ rewardAddr (currentBlock m) = c_address c
    /\ target (currentBlock m) = Block.HIT_POW_TARGET
    /\ coinbaseReward (currentBlock m) = COINBASE_AMT_ALLOWED
    /\ well_keyed (currentBlock m)
    /\ NoDup (map fst (transactions (currentBlock m))).

End Candidate.

(** * Fixtures

    A deterministic stand-in for the platform's [crypto] module, in the
    manner of the repository's [FakeNet]: a polynomial checksum of 32 bytes
    for SHA-256, and signatures that a key verifies when it is the signing
    key itself; every text but the empty one is read as a key.  It is used
    to run the model on concrete values. *)

Module Fixture.

Fixpoint bytes_be (n : nat) (z : Z) : list ascii :=
  match n with
  | O => []
  | S k => bytes_be k (z / 256) ++ [ascii_of_N (Z.to_N (z mod 256))]
  end.

Definition mask : Z := Eval vm_compute in Z.ones 256.

Definition checksum (s : string) : Z :=
  fold_left (fun acc c => Z.land (acc * 1000003 + Z.of_N (N_of_ascii c) + 1) mask)
            (chars s) 7.

Definition digest (s : string) : list ascii := bytes_be 32 (checksum s).

Fixpoint bytes_be_length (n : nat) (z : Z) : length (bytes_be n z) = n :=
  match n with
  | O => eq_refl
  | S k =>
      let low := [ascii_of_N (Z.to_N (z mod 256))] in
      eq_trans (length_app (bytes_be k (z / 256)) low)
        (eq_trans (Nat.add_1_r (length (bytes_be k (z / 256))))
                  (f_equal S (bytes_be_length k (z / 256))))
  end.

#[export] Instance runtime : Runtime := {|
  sha256 := digest;
  sha256_length := fun s => bytes_be_length 32 (checksum s);
  rsa_sign := fun k m => "signed:" +:+ k +:+ ":" +:+ m;
  rsa_verify := fun k m s => bool_decide (s = "signed:" +:+ k +:+ ":" +:+ m);
  rsa_key := fun k => negb (String.eqb k "")
|}.

(** The keypair and the addresses of the repository's tests. *)
Definition kp : Keypair := {| kp_public := "alice-key"; kp_private := "alice-key" |}.
Definition addr : string := Utils.calcAddress (kp_public kp).

(** A client, the genesis block that gives it 500, and the client once
    [makeGenesis] has set that block on it. *)
Definition alice : Client := Node.Client_new (Some "alice") kp None.

Definition genesis : Block := fst (Node.makeGenesis 1000 [(alice, 500)]).

Definition alice0 : Client :=
  match Node.setGenesisBlock genesis alice with
  | Returned _ c => c
  | _ => alice
  end.

(** The transaction of the repository's tests, signed. *)
Definition outputs0 : Outputs :=
  [ {| amount := 20; address := "ffff" |}; {| amount := 40; address := "face" |} ].

Definition tx0 : Transaction :=
  Transaction.sign (kp_private kp)
    {| tx_from := addr; tx_nonce := 0; tx_pubKey := kp_public kp; tx_sig := None;
       tx_fee := 1; tx_outputs := outputs0 |}.

(** A block on the genesis block, and the same with [tx0] in it. *)
Definition fresh1 : Block := Block.new_default 1001 addr (Some genesis).

Definition candidate1 : Block := fst (Block.addTransaction fresh1 tx0).

(** [candidate1] with a proof below [HIT_POW_TARGET] for the stand-in
    digest, as [findProof] reaches it from 0. *)
Definition sealed1 : Block := set_proof (Some 20456) candidate1.

(** A block on the genesis block that says it is 100 long, sealed too. *)
Definition liar : Block := set_proof (Some 28353) (set_chainLength 100 fresh1).

(** The sender's next transaction, and a block with it on [sealed1]. *)
Definition tx1 : Transaction :=
  Transaction.sign (kp_private kp)
    {| tx_from := addr; tx_nonce := 1; tx_pubKey := kp_public kp; tx_sig := None;
       tx_fee := 1; tx_outputs := outputs0 |}.

Definition candidate2 : Block :=
  fst (Block.readd (Block.new_default 1002 addr (Some sealed1)) [tx1]).

(** A miner constructed on the genesis block. *)
Definition minnie : Client :=
  Node.Miner_new 1002 (Some "minnie") kp (Some genesis) 2000.

(** A heap with the genesis block as object 0 and [candidate1] as object 1,
    each with maps of its own. *)
Definition heap0 : Heap :=
  {| maps := [balances genesis; nextNonce genesis;
              balances candidate1; nextNonce candidate1];
     objects := [ {| fields := genesis; balances_ref := 0; nextNonce_ref := 1 |};
                  {| fields := candidate1; balances_ref := 2; nextNonce_ref := 3 |} ] |}.

(** [candidate2] sealed, as [findProof] reaches it from 0. *)
Definition sealed2 : Block := set_proof (Some 729) candidate2.

(** [alice0] once it has received [sealed2], whose parent it does not
    store, and then [sealed1], that parent. *)
Definition alice_waiting : Client :=
  match Node.receiveBlock 8 1004 (inl sealed2) alice0 with
  | Returned _ c => c
  | _ => alice0
  end.

Definition alice1 : Client :=
  match Node.receiveBlock 8 1005 (inl sealed1) alice_waiting return Client with
  | Returned _ c => c
  | Thrown _ _ => alice_waiting
  | OutOfFuel => alice_waiting
  end.

(** A miner whose candidate is [candidate1], six proofs before the first
    valid one, with ten rounds to go. *)
Definition digger : Client :=
  set_miner (Some {| miningRounds := 10;
                     currentBlock := set_proof (Some 20450) candidate1 |}) minnie.

(** A second key pair and its client, and a network with the three nodes
    registered; [alice0] and [minnie] share a key pair, hence an address. *)
Definition kp_bob : Keypair := {| kp_public := "bob-key"; kp_private := "bob-key" |}.

Definition bob : Client := Node.Client_new (Some "bob") kp_bob (Some genesis).

Definition net0 : FakeNet.FakeNet :=
  FakeNet.register c_address [alice0; bob; minnie] FakeNet.new.

(** A client whose genesis block gives it [2^53], and outputs of [2^53]
    and of 1. *)
Definition wealthy_genesis : Block :=
  fst (Node.makeGenesis 1000 [(alice, 2 ^ 53)]).

Definition wealthy : Client :=
  match Node.setGenesisBlock wealthy_genesis alice with
  | Returned _ c => c
  | _ => alice
  end.

Definition outputs_large : Outputs :=
  [ {| amount := 2 ^ 53; address := "ffff" |}; {| amount := 1; address := "face" |} ].

End Fixture.
(** * Numbers *)

Section NumberFacts.

Lemma nearest_exact n : Z.abs n <= 2 ^ 53 -> Number.nearest n = n.
Proof.
  intros H. unfold Number.nearest.
  by rewrite (proj2 (Z.leb_le _ _) H).
Qed.

Lemma add_exact a b : safe_integer (a + b) -> Number.add a b = a + b.
Proof.
  unfold safe_integer, MAX_SAFE_INTEGER, Number.add. intros H.
  apply nearest_exact. lia.
Qed.

(** Rounding does not take an integer of [2^53] or more below [2^53]. *)
Lemma nearest_large n : 2 ^ 53 <= n -> 2 ^ 53 <= Number.nearest n.
Proof.
  intros Hn. unfold Number.nearest.
  destruct (Z.abs n <=? 2 ^ 53) eqn:E; [exact Hn|].
  apply Z.leb_gt in E.
  assert (0 < n) as Hpos by lia.
  rewrite (Z.abs_eq n) in * by lia.
  rewrite (Z.sgn_pos n Hpos), Z.mul_1_l.
  assert (53 <= Z.log2 n) as Hlog.
  { change 53 with (Z.log2 (2 ^ 53)). apply Z.log2_le_mono. lia. }
  destruct (Z.log2_spec n Hpos) as [Hlow _].
  set (e := Z.log2 n - 52) in *.
  assert (2 ^ Z.log2 n = 2 ^ 52 * 2 ^ e) as Hsplit.
  { rewrite <- Z.pow_add_r by lia. f_equal. lia. }
  assert (2 <= 2 ^ e) as Hunit.
  { change 2 with (2 ^ 1) at 1. apply Z.pow_le_mono_r; lia. }
  assert (2 ^ 52 <= n / 2 ^ e) as Hq.
  { rewrite <- (Z.div_mul (2 ^ 52) (2 ^ e)) by lia.
    apply Z.div_le_mono; lia. }
  set (q := n / 2 ^ e) in *. set (unit := 2 ^ e) in *.
  assert (q <= (if 2 * (n mod unit) <? unit then q
                else if unit <? 2 * (n mod unit) then q + 1
                else if Z.even q then q else q + 1)) as Hq'.
  { repeat destruct (_ <? _); try destruct (Z.even q); lia. }
  nia.
Qed.

Lemma sum_exact {A} (f : A -> Z) xs acc :
  sums_exactly acc (map f xs) ->
  fold_left (fun a x => Number.add a (f x)) xs acc
  = fold_left (fun a x => a + f x) xs acc.
Proof.
  revert acc. induction xs as [|x xs IH]; intros acc H; [reflexivity|].
  cbn in *. destruct H as (_ & _ & H).
  rewrite add_exact by (destruct xs; apply H). by apply IH.
Qed.

Lemma sums_exactly_app acc xs ys :
  sums_exactly acc (xs ++ ys)
  <-> sums_exactly acc xs /\ sums_exactly (fold_left Z.add xs acc) ys.
Proof.
  revert acc. induction xs as [|x xs IH]; intros acc; cbn.
  - split; [intros H; split; [|exact H]|tauto].
    split; [|exact I]. destruct ys; apply H.
  - rewrite IH. tauto.
Qed.

Lemma sum_stays_large {A} (f : A -> Z) xs acc :
  2 ^ 53 <= acc -> Forall (fun x => 0 <= f x) xs ->
  2 ^ 53 <= fold_left (fun a x => Number.add a (f x)) xs acc.
Proof.
  intros Hacc Hxs. revert acc Hacc.
  induction Hxs as [|x xs Hx _ IH]; intros acc Hacc; [exact Hacc|].
  cbn. apply IH. apply nearest_large. lia.
Qed.

(** A sum of amounts that are not negative which comes out as a safe
    integer was exact all the way. *)
Lemma sum_bounded {A} (f : A -> Z) xs acc :
  0 <= acc -> Forall (fun x => 0 <= f x) xs ->
  fold_left (fun a x => Number.add a (f x)) xs acc <= MAX_SAFE_INTEGER ->
  sums_exactly acc (map f xs).
Proof.
  intros Hacc Hxs. revert acc Hacc.
  induction Hxs as [|x xs Hx Hxs IH]; intros acc Hacc Hle; cbn in *.
  - unfold safe_integer, MAX_SAFE_INTEGER in *. split; [lia|exact I].
  - destruct (Z_le_gt_dec (2 ^ 53) (acc + f x)) as [Hbig|Hsmall].
    + pose proof (sum_stays_large f xs (Number.add acc (f x))
                    (nearest_large _ Hbig) Hxs) as H.
      unfold MAX_SAFE_INTEGER in Hle. lia.
    + assert (safe_integer (acc + f x)) as Hsafe
        by (unfold safe_integer, MAX_SAFE_INTEGER; lia).
      rewrite (add_exact _ _ Hsafe) in Hle.
      unfold safe_integer, MAX_SAFE_INTEGER in *.
      split; [lia|]. split; [lia|]. apply IH; [lia|exact Hle].
Qed.

(** Amounts that are not negative and whose sum is a safe integer add up
    exactly. *)
Lemma sums_exactly_bounded acc xs :
  0 <= acc -> Forall (fun x => 0 <= x) xs ->
  acc + fold_right Z.add 0 xs <= MAX_SAFE_INTEGER ->
  sums_exactly acc xs.
Proof.
  intros Hacc Hxs. revert acc Hacc.
  induction Hxs as [|x xs Hx Hxs IH]; intros acc Hacc Hle; cbn in *.
  - unfold safe_integer, MAX_SAFE_INTEGER in *. split; [lia|exact I].
  - assert (0 <= fold_right Z.add 0 xs) as Hrest.
    { clear -Hxs. induction Hxs; cbn; lia. }
    unfold safe_integer, MAX_SAFE_INTEGER in *.
    split; [lia|]. split; [lia|]. apply IH; lia.
Qed.

End NumberFacts.

(** * Properties *)

Lemma chars_text l : chars (text l) = l.
Proof. apply list_ascii_of_string_of_list_ascii. Qed.

Lemma text_chars s : text (chars s) = s.
Proof. apply string_of_list_ascii_of_string. Qed.

(** ** Digests as numbers *)

Lemma N_of_ascii_lt c : (N_of_ascii c < 256)%N.
Proof. destruct c as [[] [] [] [] [] [] [] []]; vm_compute; reflexivity. Qed.

Lemma hex_of_byte_value c acc :
  fold_left hex_step (hex_of_byte c) acc = 256 * acc + Z.of_N (N_of_ascii c).
Proof.
  destruct c as [[] [] [] [] [] [] [] []];
    cbv [hex_of_byte fold_left]; unfold hex_step;
    match goal with
    | |- context [N_of_ascii ?a] =>
        let v := eval vm_compute in (N_of_ascii a) in
        change (N_of_ascii a) with v
    end;
    vm_compute hex_digit; vm_compute hex_value; cbv iota; lia.
Qed.

Lemma hex_encode_value bs acc :
  fold_left hex_step (hex_encode bs) acc
  = fold_left (fun a c => 256 * a + Z.of_N (N_of_ascii c)) bs acc.
Proof.
  revert acc. induction bs as [|c bs IH]; intros acc; [reflexivity|].
  unfold hex_encode in *. cbn [flat_map fold_left].
  rewrite fold_left_app, hex_of_byte_value. apply IH.
Qed.

Lemma BigInteger_hex_encode bs :
  BigInteger_hex (text (hex_encode bs)) = be_value bs.
Proof.
  unfold BigInteger_hex, be_value. rewrite chars_text.
  apply (hex_encode_value bs 0).
Qed.

Lemma be_value_bounds_from bs acc :
  0 <= acc ->
  0 <= fold_left (fun a c => 256 * a + Z.of_N (N_of_ascii c)) bs acc
    < (acc + 1) * 256 ^ Z.of_nat (length bs).
Proof.
  revert acc. induction bs as [|c bs IH]; intros acc Hacc.
  - cbn. lia.
  - cbn [fold_left length].
    pose proof (N_of_ascii_lt c) as Hc.
    specialize (IH (256 * acc + Z.of_N (N_of_ascii c)) ltac:(lia)).
    rewrite Nat2Z.inj_succ, Z.pow_succ_r by lia.
    split; [lia|].
    eapply Z.lt_le_trans; [apply IH|].
    assert (0 < 256 ^ Z.of_nat (length bs)) by (apply Z.pow_pos_nonneg; lia).
    nia.
Qed.

Lemma be_value_bounds bs : 0 <= be_value bs < 256 ^ Z.of_nat (length bs).
Proof.
  pose proof (be_value_bounds_from bs 0 ltac:(lia)) as H.
  unfold be_value. lia.
Qed.

(** ** Transactions *)

Section TransactionFacts.
Context {R : Runtime}.

(** C7. The id of a transaction is the hash of ["TX"] followed by the JSON
    text of the object with exactly the members [from], [nonce], [pubKey],
    [outputs], [fee], in this order.  The signature is no part of it:
    [sign] leaves the id as it was, and two transactions that differ in
    [sig] alone have the same id. *)
Theorem id_excludes_sig (tx : Transaction) :
  Transaction.id tx
  = Utils.hash
      ("TX" +:+
       Json.stringify
         (JObj [("from", JStr (tx_from tx));
                ("nonce", JNum (tx_nonce tx));
                ("pubKey", JStr (tx_pubKey tx));
                ("outputs",
                 JArr (map (fun o => JObj [("amount", JNum (amount o));
                                           ("address", JStr (address o))])
                           (tx_outputs tx)));
                ("fee", JNum (tx_fee tx))])) Hex
  /\ (forall privKey, Transaction.id (Transaction.sign privKey tx) = Transaction.id tx)
  /\ (forall s1 s2,
        Transaction.id (Transaction.set_sig s1 tx)
        = Transaction.id (Transaction.set_sig s2 tx)).
Proof.
  split; [reflexivity|]. split; [|intros s1 s2]; reflexivity.
Qed.

Lemma totalOutput_sum tx :
  sums_exactly (tx_fee tx) (map amount (tx_outputs tx)) ->
  Transaction.totalOutput tx
  = tx_fee tx + fold_right Z.add 0 (map amount (tx_outputs tx)).
Proof.
  intros Hexact. unfold Transaction.totalOutput.
  rewrite (sum_exact amount _ _ Hexact). clear Hexact.
  generalize (tx_fee tx). induction (tx_outputs tx) as [|o os IH]; intros f; cbn.
  - lia.
  - rewrite IH. lia.
Qed.

End TransactionFacts.

(** ** Proof of work *)

Section ProofOfWork.
Context {R : Runtime}.

Lemma serialize_set_target t b :
  Block.serialize (set_target t b) = Block.serialize b.
Proof. reflexivity. Qed.

Lemma hash_as_number s :
  BigInteger_hex (Utils.hash s Hex) = be_value (sha256 s).
Proof. unfold Utils.hash. apply BigInteger_hex_encode. Qed.

(** C8. [hasValidProof] compares the SHA-256 digest of the serialized
    block, read as an unsigned integer of 256 bits, with the target: it is
    true exactly when the number is strictly below the target, and false
    for a target equal to the number. *)
Theorem hasValidProof_iff_below_target (b : Block) :
  let n := be_value (sha256 (Block.serialize b)) in
  0 <= n < 2 ^ 256
  /\ BigInteger_hex (Utils.hash (Block.serialize b) Hex) = n
  /\ (Block.hasValidProof b = true <-> n < target b)
  /\ Block.hasValidProof (set_target n b) = false.
Proof.
  cbv zeta. split; [|split; [|split]].
  - pose proof (be_value_bounds (sha256 (Block.serialize b))) as H.
    rewrite sha256_length in H. exact H.
  - apply hash_as_number.
  - unfold Block.hasValidProof. cbv zeta. rewrite hash_as_number.
    apply Z.ltb_lt.
  - unfold Block.hasValidProof. cbv zeta.
    rewrite serialize_set_target, hash_as_number. cbn [target set_target].
    apply Z.ltb_irrefl.
Qed.

End ProofOfWork.

(** ** Admission of transactions *)

Section Admission.
Context {R : Runtime}.

Lemma get_or_0_insert (m : gmap string Z) k v k' :
  get_or_0 (<[k := v]> m) k' = if bool_decide (k = k') then v else get_or_0 m k'.
Proof.
  unfold get_or_0. case_bool_decide as Hk.
  - subst. by rewrite lookup_insert_eq.
  - by rewrite lookup_insert_ne.
Qed.

(** What a successful admission wrote. *)
Lemma addTransaction_true b tx b' :
  Block.addTransaction b tx = (b', true) ->
  assoc_get (Transaction.id tx) (transactions b) = None
  /\ Transaction.validSignature tx = true
  /\ Transaction.sufficientFunds tx (balances b) = true
  /\ tx_nonce tx = get_or_0 (nextNonce b) (tx_from tx)
  /\ transactions b' = assoc_set (Transaction.id tx) tx (transactions b)
  /\ nextNonce b' = <[tx_from tx := tx_nonce tx + 1]> (nextNonce b)
  /\ balances b'
     = fold_left Block.credit (tx_outputs tx)
         (<[tx_from tx := get_or_0 (balances b) (tx_from tx) - Transaction.totalOutput tx]>
            (balances b)).
Proof.
  unfold Block.addTransaction.
  case_bool_decide as Hdup; [intros [= _ ?]; discriminate|].
  case_bool_decide as Hsig; [intros [= _ ?]; discriminate|].
  destruct (Transaction.validSignature tx) eqn:Hvalid; cbn [negb];
    [|intros [= _ ?]; discriminate].
  destruct (Transaction.sufficientFunds tx (balances b)) eqn:Hfunds; cbn [negb];
    [|intros [= _ ?]; discriminate].
  destruct (tx_nonce tx <? _) eqn:Hlt; [intros [= _ ?]; discriminate|].
  destruct (tx_nonce tx >? _) eqn:Hgt; [intros [= _ ?]; discriminate|].
  intros [= <-].
  apply Z.ltb_ge in Hlt. rewrite Z.gtb_ltb in Hgt. apply Z.ltb_ge in Hgt.
  assert (tx_nonce tx = get_or_0 (nextNonce b) (tx_from tx)) as Hn by lia.
  cbn. rewrite <- Hn. repeat split; try done.
  destruct (assoc_get _ _) eqn:E; [|done].
  exfalso. apply Hdup. eauto.
Qed.

(** A refused transaction leaves the block as it was. *)
Lemma addTransaction_false b tx b' :
  Block.addTransaction b tx = (b', false) -> b' = b.
Proof.
  unfold Block.addTransaction.
  repeat (case_bool_decide || case_match); intros [= <-]; try reflexivity;
    discriminate.
Qed.

Lemma addTransaction_wrong_nonce b tx :
  tx_nonce tx <> get_or_0 (nextNonce b) (tx_from tx) ->
  Block.addTransaction b tx = (b, false).
Proof.
  intros Hn. destruct (Block.addTransaction b tx) as [b' [|]] eqn:E.
  - apply addTransaction_true in E. tauto.
  - apply addTransaction_false in E. by subst.
Qed.

(** The next nonce of an address never goes down. *)
Lemma addTransaction_nonce_mono b tx a :
  get_or_0 (nextNonce b) a <= get_or_0 (nextNonce (fst (Block.addTransaction b tx))) a.
Proof.
  destruct (Block.addTransaction b tx) as [b' [|]] eqn:E; cbn [fst].
  - apply addTransaction_true in E as (_ & _ & _ & Hn & _ & -> & _).
    rewrite get_or_0_insert. case_bool_decide; subst; lia.
  - apply addTransaction_false in E. subst. lia.
Qed.

Lemma readd_nonce_mono txs b a :
  get_or_0 (nextNonce b) a <= get_or_0 (nextNonce (fst (Block.readd b txs))) a.
Proof.
  revert b. induction txs as [|tx txs IH]; intros b; cbn [Block.readd fst]; [lia|].
  pose proof (addTransaction_nonce_mono b tx a) as H1.
  destruct (Block.addTransaction b tx) as [b' [|]]; cbn [fst] in *.
  - specialize (IH b'). lia.
  - exact H1.
Qed.

Lemma built_on_nonce_mono b0 b a :
  Block.built_on b0 b -> get_or_0 (nextNonce b0) a <= get_or_0 (nextNonce b) a.
Proof.
  induction 1 as [|b tx _ IH|b now ra tg cr _ IH|b received _ IH].
  - lia.
  - pose proof (addTransaction_nonce_mono b tx a). lia.
  - exact IH.
  - unfold Block.rerun. cbv zeta.
    etransitivity; [exact IH|].
    match goal with |- _ <= get_or_0 (nextNonce (fst (Block.readd ?x ?l))) a =>
      apply (readd_nonce_mono l x a) end.
Qed.


End Admission.

(** ** Replaying a block *)

Section Replay.
Context {R : Runtime}.

Lemma addTransaction_same_ledger b1 b2 tx :
  same_ledger b1 b2 ->
  snd (Block.addTransaction b1 tx) = snd (Block.addTransaction b2 tx)
  /\ same_ledger (fst (Block.addTransaction b1 tx)) (fst (Block.addTransaction b2 tx)).
Proof.
  intros (Ht & Hb & Hn). unfold Block.addTransaction.
  rewrite Ht, Hb, Hn.
  repeat (case_bool_decide || case_match); cbn; repeat split; try done;
    congruence.
Qed.

Lemma readd_same_ledger txs b1 b2 :
  same_ledger b1 b2 ->
  snd (Block.readd b1 txs) = snd (Block.readd b2 txs)
  /\ same_ledger (fst (Block.readd b1 txs)) (fst (Block.readd b2 txs)).
Proof.
  revert b1 b2. induction txs as [|tx txs IH]; intros b1 b2 H; cbn [Block.readd].
  - by split.
  - destruct (addTransaction_same_ledger b1 b2 tx H) as [Hs Hl].
    destruct (Block.addTransaction b1 tx) as [b1' s1].
    destruct (Block.addTransaction b2 tx) as [b2' s2].
    cbn [fst snd] in *. subst s2.
    destruct s1; [by apply IH|by split].
Qed.

Lemma assoc_set_absent {A} k (v : A) m :
  assoc_get k m = None -> assoc_set k v m = m ++ [(k, v)].
Proof.
  induction m as [|[k' v'] m IH]; cbn; [done|].
  destruct (String.eqb k' k); [done|]. intros Hm. by rewrite IH.
Qed.

(** Admitted transactions sit in the map in the order of their admission. *)
Lemma readd_transactions txs b b' :
  Block.readd b txs = (b', true) ->
  transactions b'
  = transactions b ++ map (fun tx => (Transaction.id tx, tx)) txs.
Proof.
  revert b. induction txs as [|tx txs IH]; intros b; cbn [Block.readd map].
  - intros [= <-]. by rewrite app_nil_r.
  - destruct (Block.addTransaction b tx) as [b1 [|]] eqn:E; [|intros [= _ ?]; discriminate].
    intros H. apply IH in H. rewrite H.
    apply addTransaction_true in E as (Habs & _ & _ & _ & -> & _).
    rewrite (assoc_set_absent _ _ _ Habs), <- app_assoc. reflexivity.
Qed.

Lemma rerun_unfold b prevBlock :
  Block.rerun b prevBlock
  = Block.readd (rerun_start b prevBlock) (map snd (transactions b)).
Proof. reflexivity. Qed.

(** With a parent that names a reward address, [rerun] starts from the
    ledger of a block constructed on that parent. *)
Lemma transactions_set_maps b m n :
  transactions (set_nextNonce n (set_balances m b)) = transactions b.
Proof. reflexivity. Qed.

Lemma rerun_start_as_constructed b prevBlock now addr tgt rew :
  rewardAddr prevBlock <> "" ->
  same_ledger (rerun_start b prevBlock)
              (Block.new now addr (Some prevBlock) tgt rew).
Proof.
  intros Hne. unfold same_ledger, rerun_start, Block.new.
  cbn. rewrite bool_decide_eq_false_2 by done. done.
Qed.

(** Replaying a block on a parent that names a reward address gives the
    ledger of the block as it was built: constructed on the parent, its
    transactions admitted in their order. *)
Lemma rerun_matches_construction prevBlock now addr tgt rew txs built received :
  rewardAddr prevBlock <> "" ->
  Block.readd (Block.new now addr (Some prevBlock) tgt rew) txs = (built, true) ->
  transactions received = transactions built ->
  exists replayed,
    Block.rerun received prevBlock = (replayed, true)
    /\ balances replayed = balances built
    /\ nextNonce replayed = nextNonce built
    /\ transactions replayed = transactions built.
Proof.
  intros Hne Hbuilt Htxs.
  pose proof (readd_transactions _ _ _ Hbuilt) as Hlist. cbn in Hlist.
  rewrite rerun_unfold, Htxs, Hlist, map_map, map_id.
  destruct (readd_same_ledger txs _ _
              (rerun_start_as_constructed received prevBlock now addr tgt rew Hne))
    as [Hs (Ht & Hb & Hn)].
  rewrite Hbuilt in Hs, Ht, Hb, Hn. cbn [fst snd] in *.
  destruct (Block.readd (rerun_start received prevBlock) txs) as [replayed ok].
  cbn [fst snd] in *. subst ok. exists replayed. rewrite <- Hlist. done.
Qed.

Lemma insert_changes_lookup (m : gmap string Z) k d :
  d <> 0 -> <[k := get_or_0 m k + d]> m <> m.
Proof.
  intros Hd H.
  assert ((<[k := get_or_0 m k + d]> m) !! k = m !! k) as Hl by (by rewrite H).
  rewrite lookup_insert_eq in Hl. unfold get_or_0 in Hl.
  destruct (m !! k) as [x|]; cbn in Hl; [|discriminate].
  injection Hl. lia.
Qed.

Lemma rerun_empty_reward_address prevBlock now addr tgt rew :
  rewardAddr prevBlock = "" ->
  let b := Block.new now addr (Some prevBlock) tgt rew in
  balances b = balances prevBlock
  /\ Block.rerun b prevBlock
     = (set_balances
          (<["" := get_or_0 (balances prevBlock) "" + Block.totalRewards prevBlock]>
             (balances prevBlock)) b, true).
Proof.
  intros Hra. cbv zeta. unfold Block.rerun, Block.new. rewrite Hra. cbn.
  split; reflexivity.
Qed.

(** C1, at a parent made by [makeGenesis].  The constructor pays the
    parent's winner only [if (prevBlock && prevBlock.rewardAddr)]; [rerun]
    pays [prevBlock.rewardAddr] always.  On the genesis block, whose reward
    address is empty, a block constructed on it holds the genesis balances,
    and the same block replayed holds 25 more under the empty address. *)
Theorem rerun_pays_genesis_reward_address
    (now now' : Z) (clientBalanceMap : list (Client * Z)) (addr : string) :
  let genesis := fst (Node.makeGenesis now clientBalanceMap) in
  let b := Block.new_default now' addr (Some genesis) in
  balances b = balances genesis
  /\ snd (Block.rerun b genesis) = true
  /\ balances (fst (Block.rerun b genesis))
     = <["" := get_or_0 (balances genesis) "" + 25]> (balances genesis)
  /\ balances (fst (Block.rerun b genesis)) <> balances b.
Proof.
  cbv zeta.
  set (genesis := fst (Node.makeGenesis now clientBalanceMap)).
  assert (rewardAddr genesis = "") as Hra by reflexivity.
  assert (Block.totalRewards genesis = 25) as Hrw by reflexivity.
  destruct (rerun_empty_reward_address genesis now' addr
              Block.HIT_POW_TARGET COINBASE_AMT_ALLOWED Hra) as [Hb Hr].
  unfold Block.new_default. rewrite Hr, Hb, Hrw. cbn [fst snd balances set_balances].
  repeat split. apply insert_changes_lookup. lia.
Qed.

End Replay.

(** ** [JSON.parse] after [JSON.stringify] *)

Module JsonFacts.
Import Json.

Lemma parse_string_escape c tl :
  parse_string (escape_char c ++ tl)
  = match parse_string tl with
    | Some (cs, r) => Some (c :: cs, r)
    | None => None
    end.
Proof.
  destruct c as [[] [] [] [] [] [] [] []]; reflexivity.
Qed.

Lemma parse_string_quoted cs rest :
  parse_string (flat_map escape_char cs ++ "034"%char :: rest) = Some (cs, rest).
Proof.
  induction cs as [|c cs IH]; [reflexivity|].
  cbn [flat_map]. rewrite <- app_assoc, parse_string_escape, IH. reflexivity.
Qed.

Lemma quote_parse s rest :
  exists tl, quote s ++ rest = "034"%char :: tl
             /\ parse_string tl = Some (chars s, rest).
Proof.
  exists (flat_map escape_char (chars s) ++ "034"%char :: rest). split.
  - unfold quote. cbn [app]. rewrite <- app_assoc. reflexivity.
  - apply parse_string_quoted.
Qed.

(** *** Numbers *)

Lemma uint_text_numchars d :
  Forall (fun c => is_numchar c = true) (chars (NilEmpty.string_of_uint d)).
Proof.
  induction d; cbn; constructor; try assumption; reflexivity.
Qed.

Lemma num_text_numchars n : Forall (fun c => is_numchar c = true) (num_text n).
Proof.
  unfold num_text. destruct (Z.to_int n) as [d|d]; cbn.
  - apply uint_text_numchars.
  - constructor; [reflexivity|apply uint_text_numchars].
Qed.

Lemma num_text_nonempty n : num_text n <> [].
Proof.
  unfold num_text. intros H.
  pose proof (NilEmpty.isi (Z.to_int n)) as Hi.
  assert (NilEmpty.string_of_int (Z.to_int n) = EmptyString) as He.
  { rewrite <- (text_chars (NilEmpty.string_of_int (Z.to_int n))), H. reflexivity. }
  rewrite He in Hi. cbn in Hi. injection Hi as Hi.
  pose proof (DecimalZ.of_to n) as Hn. rewrite <- Hi in Hn. cbn in Hn.
  subst n. discriminate.
Qed.

Lemma span_numchars tok rest :
  Forall (fun c => is_numchar c = true) tok ->
  stops_number rest ->
  span is_numchar (tok ++ rest) = (tok, rest).
Proof.
  intros Htok Hrest. induction Htok as [|c tok Hc _ IH]; cbn.
  - destruct rest as [|c r]; [reflexivity|]. cbn in *.
    destruct Hrest as [-> _]. reflexivity.
  - rewrite Hc, IH. reflexivity.
Qed.

Lemma parse_number_text n rest :
  stops_number rest ->
  parse_number (num_text n ++ rest) = Some (n, rest).
Proof.
  intros Hrest. unfold parse_number.
  rewrite (span_numchars _ _ (num_text_numchars n) Hrest).
  assert (NilEmpty.int_of_string (text (num_text n)) = Some (Z.to_int n)) as Hi.
  { unfold num_text. rewrite text_chars. apply NilEmpty.isi. }
  rewrite Hi, DecimalZ.of_to, bool_decide_eq_true_2 by reflexivity.
  destruct rest as [|c r]; [reflexivity|].
  destruct Hrest as [_ ->]. reflexivity.
Qed.


(** *** Values *)

Lemma written_cons_undefined k ms : written ((k, JUndefined) :: ms) = written ms.
Proof. reflexivity. Qed.

Lemma written_cons k v ms :
  is_undefined v = false -> written ((k, v) :: ms) = (k, v) :: written ms.
Proof. intros H. cbn [written]. by rewrite H. Qed.

Lemma emit_obj ms :
  emit (JObj ms) = "{"%char :: join [","%char] (map member_text (written ms)) ++ ["}"%char].
Proof.
  cbn [emit]. do 3 f_equal.
  induction ms as [|[k v] ms IH]; [reflexivity|].
  destruct v; rewrite ?written_cons_undefined, ?written_cons by reflexivity;
    cbn [map]; rewrite <- ?IH; reflexivity.
Qed.

Lemma norm_obj ms :
  norm (JObj ms) = JObj (map (fun kv => (fst kv, norm (snd kv))) (written ms)).
Proof.
  cbn [norm]. f_equal.
  induction ms as [|[k v] ms IH]; [reflexivity|].
  destruct v; rewrite ?written_cons_undefined, ?written_cons by reflexivity;
    cbn [map]; rewrite <- ?IH; reflexivity.
Qed.

Lemma size_obj ms : size (JObj ms) = S (members_size (written ms)).
Proof.
  cbn [size]. f_equal.
  induction ms as [|[k v] ms IH]; [reflexivity|].
  unfold members_size in *.
  destruct v; rewrite ?written_cons_undefined, ?written_cons by reflexivity;
    cbn [fold_right snd]; rewrite <- ?IH; reflexivity.
Qed.

Lemma distinct_names_obj ms :
  distinct_names (JObj ms)
  <-> NoDup (map fst (written ms)) /\ Forall (fun kv => distinct_names (snd kv)) ms.
Proof.
  cbn [distinct_names].
  assert ((fix all (ms0 : list (string * json)) : Prop :=
             match ms0 with
             | [] => True
             | (_, v) :: ms' => distinct_names v /\ all ms'
             end) ms <-> Forall (fun kv => distinct_names (snd kv)) ms) as ->; [|done].
  induction ms as [|[k v] ms IH]; [by split; [constructor|]|].
  rewrite Forall_cons, IH. done.
Qed.

Lemma distinct_names_arr items :
  distinct_names (JArr items) <-> Forall distinct_names items.
Proof.
  cbn [distinct_names]. induction items as [|x items IH]; cbn.
  - by split; [constructor|].
  - rewrite Forall_cons, IH. done.
Qed.


Lemma value_start_not_closing c :
  value_start c = true ->
  is_ws c = false /\ Ascii.eqb c "]" = false /\ Ascii.eqb c "}" = false.
Proof.
  destruct c as [[] [] [] [] [] [] [] []]; cbn; intros H;
    try discriminate H; repeat split.
Qed.

Lemma numchar_dispatch c :
  is_numchar c = true ->
  is_ws c = false /\ Ascii.eqb c "n" = false /\ Ascii.eqb c "t" = false
  /\ Ascii.eqb c "f" = false /\ Ascii.eqb c "034" = false
  /\ Ascii.eqb c "[" = false /\ Ascii.eqb c "{" = false.
Proof.
  destruct c as [[] [] [] [] [] [] [] []]; cbn; intros H;
    try discriminate H; repeat split.
Qed.

Lemma emit_starts j : exists c tl, emit j = c :: tl /\ value_start c = true.
Proof.
  destruct j as [| |[]|n|s|items|ms]; try (do 2 eexists; split; reflexivity).
  pose proof (num_text_nonempty n) as Hne.
  pose proof (num_text_numchars n) as Hall.
  cbn [emit]. destruct (num_text n) as [|c tl]; [done|].
  exists c, tl. split; [done|].
  apply Forall_cons in Hall as [Hc _]. unfold value_start. rewrite Hc.
  by rewrite !orb_true_r.
Qed.

(** The text after a value inside an array or an object. *)
Lemma stops_number_separator c r :
  c = ","%char \/ c = "]"%char \/ c = "}"%char -> stops_number (c :: r).
Proof. intros [->|[->| ->]]; by split. Qed.

Lemma parse_value_S fuel s :
  parse_value (S fuel) s
  = match skip_ws s with
    | [] => None
    | c :: r =>
        if Ascii.eqb c "n" then
          option_map (pair JNull) (strip_prefix (chars "ull") r)
        else if Ascii.eqb c "t" then
          option_map (pair (JBool true)) (strip_prefix (chars "rue") r)
        else if Ascii.eqb c "f" then
          option_map (pair (JBool false)) (strip_prefix (chars "alse") r)
        else if Ascii.eqb c "034" then
          match parse_string r with
          | Some (cs, r') => Some (JStr (text cs), r')
          | None => None
          end
        else if Ascii.eqb c "[" then
          match skip_ws r with
          | c' :: r' =>
              if Ascii.eqb c' "]" then Some (JArr [], r')
              else match parse_items fuel r with
                   | Some (items, r'') => Some (JArr items, r'')
                   | None => None
                   end
          | [] => None
          end
        else if Ascii.eqb c "{" then
          match skip_ws r with
          | c' :: r' =>
              if Ascii.eqb c' "}" then Some (JObj [], r')
              else match parse_members fuel r with
                   | Some (ms, r'') => Some (JObj (assoc_of_entries ms), r'')
                   | None => None
                   end
          | [] => None
          end
        else if is_numchar c then
          match parse_number (c :: r) with
          | Some (n, r') => Some (JNum n, r')
          | None => None
          end
        else None
    end.
Proof. reflexivity. Qed.

Lemma parse_items_S fuel s :
  parse_items (S fuel) s
  = match parse_value fuel s with
    | Some (v, r) =>
        match skip_ws r with
        | c :: r' =>
            if Ascii.eqb c "," then
              match parse_items fuel r' with
              | Some (vs, r'') => Some (v :: vs, r'')
              | None => None
              end
            else if Ascii.eqb c "]" then Some ([v], r')
            else None
        | [] => None
        end
    | None => None
    end.
Proof. reflexivity. Qed.

Lemma parse_members_S fuel s :
  parse_members (S fuel) s
  = match skip_ws s with
    | q :: r =>
        if Ascii.eqb q "034" then
          match parse_string r with
          | Some (k, r1) =>
              match skip_ws r1 with
              | c1 :: r2 =>
                  if Ascii.eqb c1 ":" then
                    match parse_value fuel r2 with
                    | Some (v, r3) =>
                        match skip_ws r3 with
                        | c :: r4 =>
                            if Ascii.eqb c "," then
                              match parse_members fuel r4 with
                              | Some (ms, r5) => Some ((text k, v) :: ms, r5)
                              | None => None
                              end
                            else if Ascii.eqb c "}" then Some ([(text k, v)], r4)
                            else None
                        | [] => None
                        end
                    | None => None
                    end
                  else None
              | [] => None
              end
          | None => None
          end
        else None
    | [] => None
    end.
Proof. reflexivity. Qed.

Lemma parse_items_emit items :
  Forall reads_back items -> Forall distinct_names items -> items <> [] ->
  forall fuel rest,
    (items_size items <= fuel)%nat ->
    parse_items fuel (join [","%char] (map emit items) ++ "]"%char :: rest)
    = Some (map norm items, rest).
Proof.
  induction items as [|x items IH]; [done|].
  intros Hrb Hdn _ fuel rest Hfuel.
  apply Forall_cons in Hrb as [Hx Hrb]. apply Forall_cons in Hdn as [Hdx Hdn].
  cbn [items_size fold_right] in Hfuel.
  destruct fuel as [|fuel]; [lia|]. rewrite parse_items_S.
  destruct items as [|y items].
  - cbn [map join].
    rewrite (Hx Hdx fuel _ ltac:(lia) (stops_number_separator "]" rest ltac:(auto))).
    reflexivity.
  - change (join [","%char] (map emit (x :: y :: items)))
      with (emit x ++ [","%char] ++ join [","%char] (map emit (y :: items))).
    rewrite <- !app_assoc. cbn [app].
    rewrite (Hx Hdx fuel _ ltac:(lia) (stops_number_separator "," _ ltac:(auto))).
    cbn -[parse_value parse_items parse_members emit norm join map].
    rewrite (IH Hrb Hdn ltac:(done) fuel rest).
    + reflexivity.
    + fold (items_size (y :: items)) in Hfuel. lia.
Qed.

Lemma parse_members_emit ms :
  Forall (fun kv => reads_back (snd kv)) ms ->
  Forall (fun kv => distinct_names (snd kv)) ms -> ms <> [] ->
  forall fuel rest,
    (members_size ms <= fuel)%nat ->
    parse_members fuel (join [","%char] (map member_text ms) ++ "}"%char :: rest)
    = Some (map (fun kv => (fst kv, norm (snd kv))) ms, rest).
Proof.
  induction ms as [|[k v] ms IH]; [done|].
  intros Hrb Hdn _ fuel rest Hfuel.
  apply Forall_cons in Hrb as [Hx Hrb]. apply Forall_cons in Hdn as [Hdx Hdn].
  cbn [snd] in Hx, Hdx.
  cbn [members_size fold_right snd] in Hfuel.
  destruct fuel as [|fuel]; [lia|]. rewrite parse_members_S.
  assert (forall tail,
            (tail = "}"%char :: rest /\ ms = []) \/
            (tail = ","%char :: join [","%char] (map member_text ms) ++ "}"%char :: rest
             /\ ms <> []) ->
            match skip_ws (member_text (k, v) ++ tail) with
            | q :: r =>
                if Ascii.eqb q "034" then
                  match parse_string r with
                  | Some (k0, r1) =>
                      match skip_ws r1 with
                      | c1 :: r2 =>
                          if Ascii.eqb c1 ":" then
                            match parse_value fuel r2 with
                            | Some (v0, r3) =>
                                match skip_ws r3 with
                                | c :: r4 =>
                                    if Ascii.eqb c "," then
                                      match parse_members fuel r4 with
                                      | Some (ms0, r5) => Some ((text k0, v0) :: ms0, r5)
                                      | None => None
                                      end
                                    else if Ascii.eqb c "}" then Some ([(text k0, v0)], r4)
                                    else None
                                | [] => None
                                end
                            | None => None
                            end
                          else None
                      | [] => None
                      end
                  | None => None
                  end
                else None
            | [] => None
            end
            = Some ((k, norm v) :: map (fun kv => (fst kv, norm (snd kv))) ms, rest))
    as Hstep.
  { intros tail Htail. unfold member_text. cbn [fst snd].
    rewrite <- app_assoc. cbn [app].
    destruct (quote_parse k (":"%char :: emit v ++ tail)) as (tl & -> & Hk).
    cbn -[parse_value parse_items parse_members parse_string emit norm join map].
    rewrite Hk.
    cbn -[parse_value parse_items parse_members parse_string emit norm join map].
    rewrite text_chars.
    destruct Htail as [[-> ->]|[-> Hne]].
    - rewrite (Hx Hdx fuel _ ltac:(lia) (stops_number_separator "}" rest ltac:(auto))).
      reflexivity.
    - rewrite (Hx Hdx fuel _ ltac:(lia) (stops_number_separator "," _ ltac:(auto))).
      cbn -[parse_value parse_items parse_members emit norm join map].
      rewrite (IH Hrb Hdn Hne fuel rest); [reflexivity|].
      fold (members_size ms) in Hfuel. lia. }
  destruct ms as [|kv ms'].
  - cbn [map join]. apply Hstep. by left.
  - change (join [","%char] (map member_text ((k, v) :: kv :: ms')))
      with (member_text (k, v) ++ [","%char]
            ++ join [","%char] (map member_text (kv :: ms'))).
    rewrite <- !app_assoc. cbn [app]. apply Hstep. by right.
Qed.


Lemma assoc_get_app_absent {A} k (v : A) m :
  k ∉ map fst m -> assoc_set k v m = m ++ [(k, v)].
Proof.
  induction m as [|[k' v'] m IH]; cbn; [done|].
  rewrite not_elem_of_cons. intros [Hne Hm].
  destruct (String.eqb_spec k' k) as [->|_]; [done|]. by rewrite IH.
Qed.

Lemma assoc_of_entries_from {A} (es acc : list (string * A)) :
  NoDup (map fst (acc ++ es)) ->
  fold_left (fun m e => assoc_set (fst e) (snd e) m) es acc = acc ++ es.
Proof.
  revert acc. induction es as [|[k v] es IH]; intros acc Hnd; cbn [fold_left].
  - by rewrite app_nil_r.
  - cbn [fst snd]. rewrite assoc_get_app_absent.
    + rewrite IH; rewrite <- app_assoc; [done|exact Hnd].
    + rewrite map_app in Hnd. apply NoDup_app in Hnd as (_ & Hd & _).
      intros Hin. apply (Hd k Hin). cbn. apply list_elem_of_here.
Qed.

(** A list of entries with distinct keys is the map it builds. *)
Lemma assoc_of_entries_nodup {A} (es : list (string * A)) :
  NoDup (map fst es) -> assoc_of_entries es = es.
Proof. intros H. unfold assoc_of_entries. by rewrite assoc_of_entries_from. Qed.

Lemma Forall_written (P : string * json -> Prop) ms :
  Forall P ms -> Forall P (written ms).
Proof.
  induction 1 as [|[k v] ms Hkv _ IH]; cbn [written]; [constructor|].
  destruct (is_undefined v); [exact IH|by constructor].
Qed.

Lemma reads_back_all j : reads_back j.
Proof.
  induction j as [| |b|n|s|items IH|ms IH] using json_nested_ind;
    intros Hdn fuel rest Hfuel Hrest;
    (destruct fuel as [|fuel]; [cbn in Hfuel; lia|]).
  - reflexivity.
  - reflexivity.
  - destruct b; reflexivity.
  - rewrite parse_value_S. cbn [emit norm].
    pose proof (num_text_nonempty n) as Hne.
    pose proof (num_text_numchars n) as Hall.
    pose proof (parse_number_text n rest Hrest) as Hp.
    destruct (num_text n) as [|c tl]; [done|].
    apply Forall_cons in Hall as [Hc _].
    destruct (numchar_dispatch c Hc) as (Hws & H1 & H2 & H3 & H4 & H5 & H6).
    cbn [app skip_ws]. rewrite Hws, H1, H2, H3, H4, H5, H6, Hc.
    cbn [app] in Hp. rewrite Hp. reflexivity.
  - rewrite parse_value_S. cbn [emit norm].
    destruct (quote_parse s rest) as (tl & -> & Hs).
    cbn -[parse_string]. rewrite Hs, text_chars. reflexivity.
  - rewrite parse_value_S. cbn [emit norm].
    apply distinct_names_arr in Hdn.
    destruct items as [|x items]; [reflexivity|].
    cbn [size] in Hfuel. fold (items_size (x :: items)) in Hfuel.
    cbn [app]. rewrite <- app_assoc. cbn [app skip_ws is_ws].
    cbn -[parse_items join map skip_ws].
    pose proof (parse_items_emit (x :: items) IH Hdn ltac:(done) fuel rest
                  ltac:(lia)) as Hitems.
    destruct (emit_starts x) as (c & tl & Hx & Hc).
    destruct (value_start_not_closing c Hc) as (Hws & Hcl & _).
    assert (exists tl', join [","%char] (map emit (x :: items)) ++ "]"%char :: rest
                        = c :: tl') as [tl' Htl].
    { destruct items; cbn [map join]; rewrite Hx; cbn [app]; eauto. }
    rewrite Htl in *. cbn [skip_ws]. rewrite Hws, Hcl, Hitems. reflexivity.
  - rewrite parse_value_S. rewrite emit_obj, norm_obj.
    apply distinct_names_obj in Hdn as [Hnd Hdn].
    rewrite size_obj in Hfuel.
    assert (Forall (fun kv => reads_back (snd kv)) (written ms)) as IHw.
    { apply Forall_written, IH. }
    assert (Forall (fun kv => distinct_names (snd kv)) (written ms)) as Hdw.
    { apply Forall_written, Hdn. }
    destruct (written ms) as [|[k v] ws] eqn:Hw; [reflexivity|].
    cbn [app]. rewrite <- app_assoc. cbn [app].
    cbn -[parse_members join map skip_ws assoc_of_entries member_text].
    pose proof (parse_members_emit ((k, v) :: ws) IHw Hdw ltac:(done) fuel rest
                  ltac:(lia)) as Hms.
    assert (exists tl', join [","%char] (map member_text ((k, v) :: ws))
                          ++ "}"%char :: rest = "034"%char :: tl') as [tl' Htl].
    { destruct ws; cbn [map join]; unfold member_text at 1, quote;
        cbn [app fst]; eauto. }
    rewrite Htl in *. cbn [skip_ws is_ws].
    cbn -[parse_members join map skip_ws assoc_of_entries member_text].
    rewrite Hms. rewrite assoc_of_entries_nodup; [reflexivity|].
    rewrite map_map. cbn [fst]. exact Hnd.
Qed.

Lemma join_length parts :
  (fold_right (fun p n => S (length p + n)) 0 parts
   <= S (length (join [","%char] parts)))%nat.
Proof.
  induction parts as [|p parts IH]; [cbn; lia|].
  destruct parts as [|q parts].
  - cbn. lia.
  - change (join [","%char] (p :: q :: parts))
      with (p ++ [","%char] ++ join [","%char] (q :: parts)).
    change (fold_right (fun p n => S (length p + n)) 0%nat (p :: q :: parts))
      with (S (length p + fold_right (fun p n => S (length p + n)) 0%nat (q :: parts))).
    rewrite !length_app. cbn [length]. lia.
Qed.

Lemma size_le_length j : (size j <= length (emit j))%nat.
Proof.
  induction j as [| |b|n|s|items IH|ms IH] using json_nested_ind.
  - cbn. lia.
  - cbn. lia.
  - destruct b; cbn; lia.
  - cbn [size emit]. pose proof (num_text_nonempty n).
    destruct (num_text n); [done|]. cbn. lia.
  - cbn [size emit]. unfold quote. cbn [length]. rewrite length_app. cbn. lia.
  - cbn [size emit length]. rewrite length_app. cbn [length].
    assert (fold_right (fun x n => S (size x + n)) 0 items
            <= fold_right (fun p n => S (length p + n)) 0 (map emit items))%nat.
    { induction IH as [|x items Hx _ IHl]; cbn [fold_right map]; lia. }
    pose proof (join_length (map emit items)) as Hj.
    lia.
  - rewrite size_obj, emit_obj. cbn [length]. rewrite length_app. cbn [length].
    assert (Forall (fun kv => size (snd kv) <= length (emit (snd kv)))%nat (written ms))
      as IHw.
    { apply Forall_written, IH. }
    assert (members_size (written ms)
            <= fold_right (fun p n => S (length p + n)) 0
                 (map member_text (written ms)))%nat.
    { unfold members_size.
      induction IHw as [|kv ws Hx _ IHl]; cbn [fold_right map]; [lia|].
      unfold member_text at 1. rewrite length_app. cbn [length]. lia. }
    pose proof (join_length (map member_text (written ms))) as Hj.
    lia.
Qed.

(** The text of a value whose objects have distinct member names reads
    back as the value, up to the members and items that were [undefined]. *)
Theorem parse_stringify j :
  distinct_names j -> parse (stringify j) = Some (norm j).
Proof.
  intros Hdn. unfold parse, stringify. rewrite chars_text.
  assert (size j <= S (length (emit j)))%nat as Hfuel
    by (pose proof (size_le_length j); lia).
  pose proof (reads_back_all j Hdn (S (length (emit j))) [] Hfuel I) as H.
  rewrite app_nil_r in H. rewrite H. reflexivity.
Qed.

End JsonFacts.

(** ** Serialized blocks *)

Section Wire.
Context {R : Runtime}.
Import Json.

Lemma distinct_names_outputs os :
  distinct_names (Transaction.outputs_json os).
Proof.
  unfold Transaction.outputs_json. apply JsonFacts.distinct_names_arr.
  apply Forall_forall. intros j Hj. apply list_elem_of_fmap in Hj as (o & -> & _).
  cbn. repeat split. apply (bool_decide_unpack _). reflexivity.
Qed.

Lemma distinct_names_tx tx : distinct_names (Transaction.to_json tx).
Proof.
  unfold Transaction.to_json. apply JsonFacts.distinct_names_obj. split.
  - destruct (tx_sig tx); apply (bool_decide_unpack _); reflexivity.
  - repeat (apply Forall_cons; split); try apply Forall_nil; try exact I.
    + cbn [snd]. destruct (tx_sig tx); exact I.
    + apply distinct_names_outputs.
Qed.

Lemma distinct_names_block b : distinct_names (Block.to_json b).
Proof.
  unfold Block.to_json. apply JsonFacts.distinct_names_obj. split.
  - destruct (proof b); apply (bool_decide_unpack _); reflexivity.
  - repeat (apply Forall_cons; split); try apply Forall_nil; try exact I.
    + cbn [snd]. apply JsonFacts.distinct_names_arr.
      apply Forall_forall. intros j Hj.
      apply list_elem_of_fmap in Hj as (e & -> & _).
      cbn. split; [exact I|]. split; [|exact I]. apply distinct_names_tx.
    + cbn [snd]. destruct (proof b); exact I.
Qed.

Lemma outputs_read_back os :
  Transaction.outputs_of_json (map norm (map output_json os)) = Some os.
Proof.
  induction os as [|[a d] os IH]; [reflexivity|].
  cbn [map Transaction.outputs_of_json]. rewrite IH. reflexivity.
Qed.

Lemma tx_reads_back tx :
  Transaction.of_json (norm (Transaction.to_json tx)) = Some tx.
Proof.
  destruct tx as [f n pk sg fe os].
  unfold Transaction.to_json. rewrite JsonFacts.norm_obj.
  cbn [tx_from tx_nonce tx_pubKey tx_sig tx_fee tx_outputs].
  destruct sg as [s|].
  - cbn [written is_undefined snd fst].
    change (is_undefined (Transaction.outputs_json os)) with false.
    cbn [map snd fst norm].
    change (norm (Transaction.outputs_json os))
      with (JArr (map norm (map output_json os))).
    unfold Transaction.of_json.
    cbn -[Transaction.outputs_of_json map norm]. rewrite outputs_read_back. reflexivity.
  - cbn [written is_undefined snd fst].
    change (is_undefined (Transaction.outputs_json os)) with false.
    cbn [map snd fst norm].
    change (norm (Transaction.outputs_json os))
      with (JArr (map norm (map output_json os))).
    unfold Transaction.of_json.
    cbn -[Transaction.outputs_of_json map norm]. rewrite outputs_read_back. reflexivity.
Qed.

Lemma entries_read_back es :
  Block.entries_of_json (map norm (map entry_json es)) = Some es.
Proof.
  induction es as [|[k tx] es IH]; [reflexivity|].
  cbn [map]. unfold entry_json at 1. cbn [fst snd].
  change (norm (JArr [JStr k; Transaction.to_json tx]))
    with (JArr [JStr k; norm (Transaction.to_json tx)]).
  cbn [Block.entries_of_json]. rewrite tx_reads_back, IH. reflexivity.
Qed.

Lemma of_json_to_json now b :
  NoDup (map fst (transactions b)) ->
  Block.of_json now (norm (Block.to_json b)) = Some (wire_image b).
Proof.
  intros Hnd. unfold Block.to_json. rewrite JsonFacts.norm_obj.
  change (map (fun e => JArr [JStr (fst e); Transaction.to_json (snd e)]) (transactions b))
    with (map entry_json (transactions b)).
  destruct (proof b) as [p|] eqn:Hp.
  - cbn [written is_undefined snd fst map norm].
    change (norm (JArr (map entry_json (transactions b))))
      with (JArr (map norm (map entry_json (transactions b)))).
    unfold Block.of_json.
    cbn -[Block.entries_of_json map norm assoc_of_entries Block.new_default].
    rewrite entries_read_back.
    rewrite (JsonFacts.assoc_of_entries_nodup _ Hnd).
    unfold wire_image. rewrite Hp. reflexivity.
  - cbn [written is_undefined snd fst map norm].
    change (norm (JArr (map entry_json (transactions b))))
      with (JArr (map norm (map entry_json (transactions b)))).
    unfold Block.of_json.
    cbn -[Block.entries_of_json map norm assoc_of_entries Block.new_default].
    rewrite entries_read_back.
    rewrite (JsonFacts.assoc_of_entries_nodup _ Hnd).
    unfold wire_image. rewrite Hp. reflexivity.
Qed.

Lemma deserialize_serialize now b :
  NoDup (map fst (transactions b)) ->
  Block.deserialize now (Block.serialize b) = Some (wire_image b).
Proof.
  intros Hnd. unfold Block.deserialize, Block.serialize.
  rewrite (JsonFacts.parse_stringify _ (distinct_names_block b)).
  by apply of_json_to_json.
Qed.


End Wire.

(** ** Nodes *)

Section NodeFacts.
Context {R : Runtime}.
Local Open Scope node_scope.

(** *** Posting a transaction *)

Lemma total_payments outputs fee :
  sums_exactly 0 (map amount outputs ++ [fee]) ->
  Number.add (fold_left (fun acc o => Number.add acc (amount o)) outputs 0) fee
  = fee + fold_right Z.add 0 (map amount outputs).
Proof.
  assert (forall a, fold_left (fun acc o => acc + amount o) outputs a
                    = a + fold_right Z.add 0 (map amount outputs)) as H.
  { induction outputs as [|o os IH]; intros a; cbn; [lia|]. rewrite IH. lia. }
  assert (forall a, fold_left Z.add (map amount outputs) a
                    = a + fold_right Z.add 0 (map amount outputs)) as H'.
  { clear H. induction outputs as [|o os IH]; intros a; cbn; [lia|]. rewrite IH. lia. }
  intros Hexact. apply sums_exactly_app in Hexact as [Hamounts Hfee].
  rewrite (sum_exact amount _ _ Hamounts), H.
  rewrite H' in Hfee. destruct Hfee as (_ & _ & Hsum & _).
  rewrite add_exact by exact Hsum. lia.
Qed.

Lemma confirmedBalance_confirmed c confirmed :
  lastConfirmedBlock c = Some confirmed ->
  Node.confirmedBalance c = Returned (Block.balanceOf confirmed (c_address c)) c.
Proof. intros Hconf. unfold Node.confirmedBalance. by rewrite Hconf. Qed.

Lemma availableGold_confirmed c confirmed :
  lastConfirmedBlock c = Some confirmed ->
  Node.availableGold c
  = Returned (Block.balanceOf confirmed (c_address c) - pendingSpent c) c.
Proof.
  intros Hconf. unfold Node.availableGold, bind.
  by rewrite (confirmedBalance_confirmed c confirmed Hconf).
Qed.

Lemma postTransaction_throws c confirmed outputs fee :
  lastConfirmedBlock c = Some confirmed ->
  let total :=
    Number.add (fold_left (fun acc o => Number.add acc (amount o)) outputs 0) fee in
  let available := Block.balanceOf confirmed (c_address c) - pendingSpent c in
  available < total ->
  Node.postTransaction outputs fee c = Thrown (InsufficientFunds total available) c.
Proof.
  intros Hconf total available Hcmp. subst total available.
  unfold Node.postTransaction. unfold bind at 1.
  rewrite (availableGold_confirmed c confirmed Hconf).
  cbv beta iota. destruct (_ >? _) eqn:E; [reflexivity|].
  rewrite Z.gtb_ltb in E. apply Z.ltb_ge in E. lia.
Qed.

Lemma postTransaction_returns c confirmed outputs fee :
  lastConfirmedBlock c = Some confirmed ->
  Number.add (fold_left (fun acc o => Number.add acc (amount o)) outputs 0) fee
  <= Block.balanceOf confirmed (c_address c) - pendingSpent c ->
  Node.postTransaction outputs fee c
  = Returned tt
      (do_effect
         (Broadcast POST_TRANSACTION
            (PTransaction
               (Transaction.sign (kp_private (keyPair c))
                  {| tx_from := c_address c; tx_nonce := nonce c;
                     tx_pubKey := kp_public (keyPair c); tx_sig := None;
                     tx_fee := fee; tx_outputs := outputs |})))
         (set_nonce (nonce c + 1) c)).
Proof.
  intros Hconf Hcmp.
  unfold Node.postTransaction. unfold bind at 1.
  rewrite (availableGold_confirmed c confirmed Hconf).
  cbv beta iota. destruct (_ >? _) eqn:E; [|reflexivity].
  rewrite Z.gtb_ltb in E. apply Z.ltb_lt in E. lia.
Qed.

(** C6, on the numbers for which the sums of the code are exact: the
    amounts and the fee as [reduce] adds them from 0, the confirmed
    balance less [pendingSpent], and the nonce and the next one.  With a
    confirmed block, [availableGold] is the confirmed balance minus
    [pendingSpent].  [postTransaction] throws the insufficient-funds error
    exactly when the fee plus the amounts of the outputs exceed it, and
    then the node is as before: same nonce, nothing broadcast.  Otherwise
    it returns, and the node differs in two fields: its nonce is one more,
    and the last message handed to the network is the broadcast, as
    POST_TRANSACTION, of the transaction from the node's address with the
    node's former nonce, its public key, the outputs and the fee, signed
    with its private key. *)
Theorem postTransaction_spec (c : Client) (confirmed : Block)
    (outputs : Outputs) (fee : Z) :
  lastConfirmedBlock c = Some confirmed ->
  sums_exactly 0 (map amount outputs ++ [fee]) ->
  sums_exactly (Block.balanceOf confirmed (c_address c)) [- pendingSpent c] ->
  sums_exactly (nonce c) [1] ->
  let total := fee + fold_right Z.add 0 (map amount outputs) in
  let available := Block.balanceOf confirmed (c_address c) - pendingSpent c in
  let unsigned :=
    {| tx_from := c_address c; tx_nonce := nonce c;
       tx_pubKey := kp_public (keyPair c); tx_sig := None;
       tx_fee := fee; tx_outputs := outputs |} in
  let tx :=
    {| tx_from := c_address c; tx_nonce := nonce c;
       tx_pubKey := kp_public (keyPair c);
       tx_sig := Some (rsa_sign (kp_private (keyPair c)) (Transaction.id unsigned));
       tx_fee := fee; tx_outputs := outputs |} in
  Node.confirmedBalance c = Returned (Block.balanceOf confirmed (c_address c)) c
  /\ Node.availableGold c = Returned available c
  /\ (available < total ->
      Node.postTransaction outputs fee c
      = Thrown (InsufficientFunds total available) c)
  /\ (total <= available ->
      Node.postTransaction outputs fee c
      = Returned tt
          {| name := name c; keyPair := keyPair c; c_address := c_address c;
             nonce := nonce c + 1;
             pendingSpent := pendingSpent c; blocks := blocks c;
             pendingBlocks := pendingBlocks c;
             lastConfirmedBlock := lastConfirmedBlock c;
             lastBlock := lastBlock c;
             net := net c ++ [Broadcast POST_TRANSACTION (PTransaction tx)];
             miner := miner c |})
  /\ Transaction.id tx = Transaction.id unsigned.
Proof.
  intros Hconf Hsum _ _. cbv zeta.
  rewrite <- (total_payments outputs fee Hsum).
  split; [by apply confirmedBalance_confirmed|].
  split; [by apply availableGold_confirmed|].
  split; [|split].
  - intros Hcmp. exact (postTransaction_throws c confirmed outputs fee Hconf Hcmp).
  - intros Hcmp.
    rewrite (postTransaction_returns c confirmed outputs fee Hconf Hcmp).
    reflexivity.
  - reflexivity.
Qed.

(** *** [pendingSpent] *)

Lemma keeps_ret {A} (a : A) : keeps_pendingSpent (ret a).
Proof. by intros c. Qed.

Lemma keeps_throw {A} e : keeps_pendingSpent (@throw A e).
Proof. by intros c. Qed.

Lemma keeps_get : keeps_pendingSpent get.
Proof. by intros c. Qed.

Lemma keeps_modify f :
  (forall c, pendingSpent (f c) = pendingSpent c) -> keeps_pendingSpent (modify f).
Proof. intros H c. apply H. Qed.

Lemma keeps_bind {A B} (m : M A) (f : A -> M B) :
  keeps_pendingSpent m -> (forall a, keeps_pendingSpent (f a)) ->
  keeps_pendingSpent (bind m f).
Proof.
  intros Hm Hf c. unfold bind. specialize (Hm c).
  destruct (m c) as [a c'| |]; [|done|done].
  specialize (Hf a c'). destruct (f a c'); congruence.
Qed.

Lemma keeps_for_each {A} (f : A -> M unit) l :
  (forall a, keeps_pendingSpent (f a)) -> keeps_pendingSpent (for_each f l).
Proof.
  intros Hf. induction l as [|x l IH]; cbn [for_each].
  - apply keeps_ret.
  - apply keeps_bind; [apply Hf|intros _; exact IH].
Qed.

Ltac keeps :=
  repeat first
    [ assumption
    | match goal with H : forall _, keeps_pendingSpent _ |- _ => apply H end
    | apply keeps_ret | apply keeps_throw | apply keeps_get
    | apply keeps_modify; intros; reflexivity
    | apply keeps_bind; [|intros]
    | apply keeps_for_each; intros
    | match goal with
      | |- keeps_pendingSpent (match ?x with _ => _ end) => destruct x
      | |- keeps_pendingSpent (if ?x then _ else _) => destruct x
      | |- keeps_pendingSpent (let '(_, _) := ?x in _) => destruct x
      end ].

Lemma keeps_setGenesisBlock g : keeps_pendingSpent (Node.setGenesisBlock g).
Proof. intros c. unfold Node.setGenesisBlock. by destruct (lastBlock c). Qed.

Lemma keeps_confirmedBalance : keeps_pendingSpent Node.confirmedBalance.
Proof. intros c. unfold Node.confirmedBalance. by destruct (lastConfirmedBlock c). Qed.

Lemma keeps_availableGold : keeps_pendingSpent Node.availableGold.
Proof. unfold Node.availableGold. pose proof keeps_confirmedBalance. keeps. Qed.

Lemma keeps_postTransaction outputs fee :
  keeps_pendingSpent (Node.postTransaction outputs fee).
Proof. unfold Node.postTransaction. pose proof keeps_availableGold. keeps. Qed.

Lemma keeps_requestMissingBlock b : keeps_pendingSpent (Node.requestMissingBlock b).
Proof. unfold Node.requestMissingBlock. keeps. Qed.

Lemma keeps_provideMissingBlock msg : keeps_pendingSpent (Node.provideMissingBlock msg).
Proof. unfold Node.provideMissingBlock. keeps. Qed.

Lemma keeps_walk_back fuel store b h :
  keeps_pendingSpent (Node.walk_back fuel store b h).
Proof.
  revert b. induction fuel as [|fuel IH]; intros b; cbn [Node.walk_back];
    destruct (_ >? _); try apply keeps_ret; [by intros c|].
  destruct (store !! _); [apply IH|apply keeps_throw].
Qed.

Lemma keeps_setLastConfirmed fuel : keeps_pendingSpent (Node.setLastConfirmed fuel).
Proof.
  unfold Node.setLastConfirmed.
  pose proof (keeps_walk_back fuel) as Hw. keeps. apply Hw.
Qed.

Lemma keeps_choose_fork fuel b : keeps_pendingSpent (Node.choose_fork fuel b).
Proof.
  unfold Node.choose_fork. pose proof (keeps_setLastConfirmed fuel). keeps.
Qed.

Lemma keeps_startNewSearch now : keeps_pendingSpent (Node.startNewSearch now).
Proof. unfold Node.startNewSearch. keeps. Qed.

Lemma keeps_release self b :
  (forall i, keeps_pendingSpent (self i)) -> keeps_pendingSpent (Node.release self b).
Proof. intros Hself. unfold Node.release. keeps. Qed.

Lemma keeps_Client_receiveBlock self fuel now input :
  (forall i, keeps_pendingSpent (self i)) ->
  keeps_pendingSpent (Node.Client_receiveBlock self fuel now input).
Proof.
  intros Hself. unfold Node.Client_receiveBlock.
  pose proof keeps_requestMissingBlock. pose proof (keeps_choose_fork fuel).
  pose proof (fun b => keeps_release self b Hself).
  keeps.
Qed.

Lemma keeps_Miner_receiveBlock super now s :
  (forall i, keeps_pendingSpent (super i)) ->
  keeps_pendingSpent (Node.Miner_receiveBlock super now s).
Proof.
  intros Hsuper. unfold Node.Miner_receiveBlock.
  pose proof (keeps_startNewSearch now). keeps.
Qed.

Lemma keeps_receiveBlock fuel now input :
  keeps_pendingSpent (Node.receiveBlock fuel now input).
Proof.
  revert input. induction fuel as [|fuel IH]; intros input c;
    cbn [Node.receiveBlock]; [done|].
  destruct (miner c).
  - apply keeps_Miner_receiveBlock. intros i.
    by apply keeps_Client_receiveBlock.
  - by apply keeps_Client_receiveBlock.
Qed.

Lemma keeps_announceProof : keeps_pendingSpent Node.announceProof.
Proof. unfold Node.announceProof. keeps. Qed.

Lemma keeps_search fuel now rounds : keeps_pendingSpent (Node.search fuel now rounds).
Proof.
  induction rounds as [|rounds IH]; cbn [Node.search].
  - apply keeps_ret.
  - pose proof keeps_announceProof. pose proof (keeps_startNewSearch now).
    pose proof (keeps_receiveBlock fuel now). keeps.
Qed.

Lemma keeps_findProof fuel now oneAndDone :
  keeps_pendingSpent (Node.findProof fuel now oneAndDone).
Proof.
  unfold Node.findProof. pose proof (keeps_search fuel now). keeps.
Qed.

Lemma keeps_initialize fuel now : keeps_pendingSpent (Node.initialize fuel now).
Proof.
  unfold Node.initialize. pose proof (keeps_startNewSearch now).
  pose proof (keeps_findProof fuel now). keeps.
Qed.

Lemma keeps_addTransaction tx : keeps_pendingSpent (Node.addTransaction tx).
Proof. unfold Node.addTransaction. keeps. Qed.

Lemma keeps_run fuel now call : keeps_pendingSpent (Node.run fuel now call).
Proof.
  destruct call; cbn [Node.run];
    auto using keeps_setGenesisBlock, keeps_postTransaction,
      keeps_requestMissingBlock, keeps_provideMissingBlock,
      keeps_setLastConfirmed, keeps_initialize, keeps_startNewSearch,
      keeps_findProof, keeps_announceProof.
  - pose proof (keeps_receiveBlock fuel now). keeps.
  - pose proof keeps_addTransaction. keeps.
Qed.

Lemma pendingSpent_Client_new name_ kp startingBlock :
  pendingSpent (Node.Client_new name_ kp startingBlock) = 0.
Proof. unfold Node.Client_new. by destruct startingBlock. Qed.

Lemma reachable_pendingSpent c : Node.reachable c -> pendingSpent c = 0.
Proof.
  induction 1 as [| |c fuel now call c' _ IH Hrun|c fuel now call e c' _ IH Hrun].
  - apply pendingSpent_Client_new.
  - unfold Node.Miner_new. cbn [pendingSpent set_miner].
    apply pendingSpent_Client_new.
  - pose proof (keeps_run fuel now call c) as H. rewrite Hrun in H. congruence.
  - pose proof (keeps_run fuel now call c) as H. rewrite Hrun in H. congruence.
Qed.

(** C10. [pendingSpent] is 0 in a node as constructed, client or miner,
    and no method changes it, whether the call returns or throws.  So in
    every state of a node [availableGold] is [confirmedBalance], and a
    posted transaction leaves [availableGold] as it was. *)
Theorem pendingSpent_stays_zero (c : Client) :
  Node.reachable c ->
  pendingSpent c = 0
  /\ (forall confirmed,
        lastConfirmedBlock c = Some confirmed ->
        Node.availableGold c = Returned (Block.balanceOf confirmed (c_address c)) c
        /\ Node.confirmedBalance c
           = Returned (Block.balanceOf confirmed (c_address c)) c)
  /\ (forall outputs fee c' v,
        Node.postTransaction outputs fee c = Returned tt c' ->
        Node.availableGold c = Returned v c ->
        Node.availableGold c' = Returned v c').
Proof.
  intros Hreach. pose proof (reachable_pendingSpent c Hreach) as Hzero.
  split; [exact Hzero|]. split.
  - intros confirmed Hconf.
    rewrite (availableGold_confirmed c confirmed Hconf),
      (confirmedBalance_confirmed c confirmed Hconf), Hzero.
    split; [f_equal; lia|reflexivity].
  - intros outputs fee c' v Hpost Hav.
    destruct (lastConfirmedBlock c) as [confirmed|] eqn:Hconf.
    + rewrite (availableGold_confirmed c confirmed Hconf) in Hav.
      injection Hav as <-.
      destruct (Z.lt_ge_cases
                  (Block.balanceOf confirmed (c_address c) - pendingSpent c)
                  (Number.add
                     (fold_left (fun acc o => Number.add acc (amount o)) outputs 0)
                     fee)) as [Hlt|Hge].
      * rewrite (postTransaction_throws c confirmed outputs fee Hconf Hlt)
          in Hpost.
        discriminate.
      * rewrite (postTransaction_returns c confirmed outputs fee Hconf Hge)
          in Hpost.
        injection Hpost as <-.
        unfold Node.availableGold, Node.confirmedBalance, bind, get, ret.
        cbn. rewrite Hconf. reflexivity.
    + unfold Node.availableGold, Node.confirmedBalance, bind in Hav.
      rewrite Hconf in Hav. discriminate.
Qed.


(** *** Fork choice *)

Lemma walk_back_linked store b h fuel c :
  linked store b ->
  0 <= h <= chainLength b ->
  (Z.to_nat (chainLength b - h) <= fuel)%nat ->
  exists a,
    Node.walk_back fuel store b h c = Returned a c
    /\ ancestor store a b
    /\ chainLength a = h.
Proof.
  intros Hl. revert fuel.
  induction Hl as [b Hzero|b p Hpos Hp Hlen _ IH]; intros fuel Hh Hfuel.
  - exists b. assert (h = 0) as -> by lia.
    split; [|split; [constructor|done]].
    destruct fuel; cbn [Node.walk_back]; rewrite Hzero; reflexivity.
  - destruct (chainLength b >? h) eqn:E.
    + rewrite Z.gtb_ltb in E. apply Z.ltb_lt in E.
      destruct fuel as [|fuel]; [lia|].
      destruct (IH fuel ltac:(lia) ltac:(lia)) as (a & Hw & Ha & Hal).
      exists a. split; [|split; [|done]].
      * cbn [Node.walk_back].
        replace (chainLength b >? h) with true
          by (symmetry; rewrite Z.gtb_ltb; by apply Z.ltb_lt).
        rewrite Hp. exact Hw.
      * by eapply ancestor_parent.
    + rewrite Z.gtb_ltb in E. apply Z.ltb_ge in E.
      exists b. split; [|split; [constructor|lia]].
      destruct fuel; cbn [Node.walk_back];
        replace (chainLength b >? h) with false
          by (symmetry; rewrite Z.gtb_ltb; by apply Z.ltb_ge);
        reflexivity.
Qed.

Lemma choose_fork_keeps fuel b c last :
  lastBlock c = Some last ->
  chainLength b <= chainLength last ->
  Node.choose_fork fuel b c = Returned tt c.
Proof.
  intros Hlast Hle. unfold Node.choose_fork, bind, get. rewrite Hlast.
  replace (chainLength last <? chainLength b) with false
    by (symmetry; by apply Z.ltb_ge).
  reflexivity.
Qed.

Lemma choose_fork_replaces fuel b c last :
  lastBlock c = Some last ->
  chainLength last < chainLength b ->
  linked (blocks c) b ->
  (6 <= fuel)%nat ->
  exists a,
    Node.choose_fork fuel b c
    = Returned tt (set_lastConfirmedBlock (Some a) (set_lastBlock (Some b) c))
    /\ ancestor (blocks c) a b
    /\ chainLength a = Z.max 0 (chainLength b - 6).
Proof.
  intros Hlast Hlt Hl Hfuel.
  assert (0 <= chainLength b) as Hnonneg by (destruct Hl; lia).
  destruct (walk_back_linked (blocks c) b (Z.max 0 (chainLength b - 6)) fuel
              (set_lastBlock (Some b) c) Hl ltac:(lia) ltac:(lia))
    as (a & Hw & Ha & Hal).
  exists a. split; [|done].
  unfold Node.choose_fork, bind, get. rewrite Hlast.
  replace (chainLength last <? chainLength b) with true
    by (symmetry; by apply Z.ltb_lt).
  unfold modify, Node.setLastConfirmed, bind, get. cbn [lastBlock set_lastBlock].
  unfold CONFIRMED_DEPTH.
  replace (if chainLength b - 6 <? 0 then 0 else chainLength b - 6)
    with (Z.max 0 (chainLength b - 6))
    by (destruct (Z.ltb_spec (chainLength b - 6) 0); lia).
  cbn [blocks set_lastBlock] in *. rewrite Hw. reflexivity.
Qed.

Lemma walk_back_state fuel store b h c :
  match Node.walk_back fuel store b h c with
  | Returned _ c' | Thrown _ c' => c' = c
  | OutOfFuel => True
  end.
Proof.
  revert b. induction fuel as [|fuel IH]; intros b; cbn [Node.walk_back];
    destruct (chainLength b >? h); try reflexivity; try exact I.
  destruct (store !! prevBlockHash b) as [parent|]; [apply IH|reflexivity].
Qed.

Lemma choose_fork_lastBlock fuel b c last :
  lastBlock c = Some last ->
  chainLength last < chainLength b ->
  match Node.choose_fork fuel b c with
  | Returned _ c' | Thrown _ c' => lastBlock c' = Some b
  | OutOfFuel => True
  end.
Proof.
  intros Hlast Hlt. unfold Node.choose_fork, bind, get. rewrite Hlast.
  replace (chainLength last <? chainLength b) with true
    by (symmetry; by apply Z.ltb_lt).
  unfold modify, Node.setLastConfirmed, bind, get. cbn [lastBlock set_lastBlock].
  match goal with
  | |- context [Node.walk_back ?f ?s ?x ?h ?st] =>
      pose proof (walk_back_state f s x h st) as Hw;
      destruct (Node.walk_back f s x h st) as [a c'|e c'|]
  end; [subst c'; reflexivity|subst c'; reflexivity|exact I].
Qed.

Lemma Client_receiveBlock_accept self fuel now c b parent b' :
  blocks c !! Block.id b = None ->
  Block.hasValidProof b = true ->
  blocks c !! prevBlockHash b = Some parent ->
  Block.rerun b parent = (b', true) ->
  Node.Client_receiveBlock self fuel now (inl b) c
  = (Node.choose_fork fuel b' ;;; Node.release self b' ;;; ret (Some b'))%node
      (Node.store_block b' c).
Proof.
  intros Hnew Hvalid Hparent Hrerun.
  unfold Node.Client_receiveBlock. unfold bind at 1, get at 1.
  rewrite bool_decide_eq_false_2 by (rewrite Hnew; by intros [? ?]).
  rewrite Hvalid, Hparent, Hrerun. reflexivity.
Qed.

(** C4, with the confirmed block on chains whose lengths count the
    parents.  A block [b] that [receiveBlock] accepts is stored, then the
    fork choice is made, then the blocks that waited for it are received.
    The fork choice leaves the node as it is when [b] is not longer than
    [lastBlock], an equal length included; when [b] is longer, [lastBlock]
    becomes [b], and where the chain lengths on the path of parents from
    [b] count down by one to 0, [lastConfirmedBlock] becomes the block on
    that path whose [chainLength] is [max 0 (chainLength b - 6)]. *)
Theorem fork_choice_on_accept self (fuel : nat) (now : Z) (c : Client)
    (b parent b' last : Block) :
  blocks c !! Block.id b = None ->
  Block.hasValidProof b = true ->
  blocks c !! prevBlockHash b = Some parent ->
  Block.rerun b parent = (b', true) ->
  lastBlock c = Some last ->
  let stored := Node.store_block b' c in
  Node.Client_receiveBlock self fuel now (inl b) c
  = (Node.choose_fork fuel b' ;;; Node.release self b' ;;; ret (Some b'))%node stored
  /\ (chainLength b' <= chainLength last ->
      Node.choose_fork fuel b' stored = Returned tt stored)
  /\ (chainLength last < chainLength b' ->
      match Node.choose_fork fuel b' stored with
      | Returned _ c' | Thrown _ c' => lastBlock c' = Some b'
      | OutOfFuel => True
      end)
  /\ (chainLength last < chainLength b' ->
      linked (blocks stored) b' ->
      (6 <= fuel)%nat ->
      exists a,
        Node.choose_fork fuel b' stored
        = Returned tt (set_lastConfirmedBlock (Some a)
                         (set_lastBlock (Some b') stored))
        /\ ancestor (blocks stored) a b'
        /\ chainLength a = Z.max 0 (chainLength b' - 6)).
Proof.
  intros Hnew Hvalid Hparent Hrerun Hlast. cbv zeta.
  split; [by eapply Client_receiveBlock_accept|]. split; [|split].
  - intros Hle. by eapply choose_fork_keeps.
  - intros Hlt. by eapply choose_fork_lastBlock.
  - intros Hlt Hl Hfuel. by eapply choose_fork_replaces.
Qed.


(** *** The result of [receiveBlock] *)

Lemma classic_turned_down c b :
  Node.turned_down c b \/ ~ Node.turned_down c b.
Proof.
  unfold Node.turned_down.
  destruct (blocks c !! Block.id b) eqn:E1; [left; left; by eexists|].
  destruct (Block.hasValidProof b) eqn:E2; [|left; right; by left].
  destruct (blocks c !! prevBlockHash b) as [parent|] eqn:E3;
    [|left; right; right; by left].
  destruct (Block.rerun b parent) as [b' [|]] eqn:E4.
  - right. intros [[x Hx]|[?|[?|(p & Hp & Hfail)]]]; try congruence.
    injection Hp as <-. by rewrite E4 in Hfail.
  - left. do 3 right. exists parent. by rewrite E4.
Qed.

Lemma Client_receiveBlock_turned_down self fuel now c b :
  Node.turned_down c b ->
  exists c', Node.Client_receiveBlock self fuel now (inl b) c = Returned None c'.
Proof.
  intros Hcase. unfold Node.Client_receiveBlock. unfold bind at 1, get at 1.
  case_bool_decide as Hdup; [by eexists|].
  destruct (Block.hasValidProof b) eqn:Hvalid; cbn [negb]; [|by eexists].
  destruct (blocks c !! prevBlockHash b) as [parent|] eqn:Hparent.
  - destruct Hcase as [?|[?|[?|(parent' & Hp' & Hfail)]]];
      [tauto|congruence|congruence|].
    assert (parent' = parent) as -> by congruence.
    destruct (Block.rerun b parent) as [b' ok]. cbn [snd] in Hfail. subst ok.
    by eexists.
  - destruct (pendingBlocks c !! prevBlockHash b); by eexists.
Qed.

Lemma Client_receiveBlock_not_turned_down c b :
  ~ Node.turned_down c b ->
  blocks c !! Block.id b = None
  /\ Block.hasValidProof b = true
  /\ exists parent b',
       blocks c !! prevBlockHash b = Some parent
       /\ Block.rerun b parent = (b', true).
Proof.
  intros Hnot. unfold Node.turned_down in Hnot.
  split; [|split].
  - destruct (blocks c !! Block.id b) eqn:E; [|done].
    exfalso. apply Hnot. left. by eexists.
  - destruct (Block.hasValidProof b) eqn:E; [done|].
    exfalso. apply Hnot. right. by left.
  - destruct (blocks c !! prevBlockHash b) as [parent|] eqn:E.
    + exists parent. destruct (Block.rerun b parent) as [b' [|]] eqn:Er.
      * by exists b'.
      * exfalso. apply Hnot. do 3 right. exists parent. by rewrite Er.
    + exfalso. apply Hnot. right. right. by left.
Qed.

Lemma accepted_not_turned_down c b parent b' :
  blocks c !! Block.id b = None ->
  Block.hasValidProof b = true ->
  blocks c !! prevBlockHash b = Some parent ->
  Block.rerun b parent = (b', true) ->
  ~ Node.turned_down c b.
Proof.
  intros Hnew Hvalid Hparent Hrerun [[x Hx]|[?|[?|(p & Hp & Hfail)]]];
    try congruence.
  rewrite Hparent in Hp. injection Hp as <-. by rewrite Hrerun in Hfail.
Qed.

(** Whenever the body of [Client.receiveBlock] returns, it returns [null]
    for a block it turns down and the replayed block otherwise. *)
Lemma Client_receiveBlock_returned self fuel now c b r c' :
  Node.Client_receiveBlock self fuel now (inl b) c = Returned r c' ->
  (Node.turned_down c b /\ r = None)
  \/ (~ Node.turned_down c b
      /\ exists parent, blocks c !! prevBlockHash b = Some parent
                        /\ r = Some (fst (Block.rerun b parent))).
Proof.
  intros Hret.
  destruct (classic_turned_down c b) as [Hcase|Hnot].
  - left. split; [done|].
    destruct (Client_receiveBlock_turned_down self fuel now c b Hcase) as [c'' H].
    congruence.
  - right. split; [done|].
    destruct (Client_receiveBlock_not_turned_down c b Hnot)
      as (Hnew & Hvalid & parent & b' & Hparent & Hrerun).
    exists parent. split; [done|].
    rewrite (Client_receiveBlock_accept self fuel now c b parent b'
               Hnew Hvalid Hparent Hrerun) in Hret.
    rewrite Hrerun. cbn [fst].
    unfold bind in Hret.
    destruct (Node.choose_fork fuel b' _) as [[] c1| |]; try discriminate.
    destruct (Node.release self b' c1) as [[] c2| |]; try discriminate.
    unfold ret in Hret. congruence.
Qed.


Lemma release_nothing self b c :
  pendingBlocks c !! Block.id b = None ->
  Node.release self b c = Returned tt c.
Proof.
  intros Hnone. unfold Node.release, bind, get, modify. rewrite Hnone.
  cbn [default for_each]. unfold ret. f_equal.
  destruct c. unfold set_pendingBlocks. cbn in *. f_equal.
  by apply delete_id.
Qed.

Lemma choose_fork_returns fuel b c last :
  lastBlock c = Some last ->
  (chainLength last < chainLength b -> linked (blocks c) b) ->
  (6 <= fuel)%nat ->
  exists c', Node.choose_fork fuel b c = Returned tt c'
             /\ blocks c' = blocks c
             /\ pendingBlocks c' = pendingBlocks c
             /\ miner c' = miner c
             /\ is_Some (lastBlock c').
Proof.
  intros Hlast Hl Hfuel.
  destruct (Z.lt_ge_cases (chainLength last) (chainLength b)) as [Hlt|Hge].
  - destruct (choose_fork_replaces fuel b c last Hlast Hlt (Hl Hlt) Hfuel)
      as (a & -> & _).
    eexists. split; [reflexivity|]. cbn. repeat split; by eauto.
  - rewrite (choose_fork_keeps fuel b c last Hlast Hge).
    eexists. split; [reflexivity|]. repeat split; by eauto.
Qed.

Lemma receiveBlock_client fuel now input c :
  miner c = None ->
  Node.receiveBlock (S fuel) now input c
  = Node.Client_receiveBlock (Node.receiveBlock fuel now) fuel now input c.
Proof. intros Hm. cbn [Node.receiveBlock]. by rewrite Hm. Qed.

Lemma receiveBlock_miner fuel now input c m :
  miner c = Some m ->
  Node.receiveBlock (S fuel) now input c
  = Node.Miner_receiveBlock
      (Node.Client_receiveBlock (Node.receiveBlock fuel now) fuel now) now input c.
Proof. intros Hm. cbn [Node.receiveBlock]. by rewrite Hm. Qed.

(** [Miner.receiveBlock] never returns a block. *)
Lemma Miner_receiveBlock_null super now s c r c' :
  Node.Miner_receiveBlock super now s c = Returned r c' -> r = None.
Proof.
  unfold Node.Miner_receiveBlock, bind, get.
  destruct (super s c) as [[b|] c1| |]; try discriminate.
  - destruct (miner c1) as [m|]; [|unfold ret; congruence].
    destruct (if chainLength b >? chainLength (currentBlock m)
              then Node.startNewSearch now else ret ()) as [a c2| |];
      unfold ret; congruence.
  - unfold ret. congruence.
Qed.

End NodeFacts.

(** ** Blocks as objects: what [rerun] writes *)

Section HeapFacts.
Context {R : Runtime}.

Lemma set_maps_eta b :
  set_nextNonce (nextNonce b) (set_balances (balances b) b) = b.
Proof. by destruct b. Qed.

(** What one admission does to the heap: it writes the two maps of [this]
    and the object [this], nothing else. *)
Lemma heap_addTransaction_spec this tx h o b :
  objects h !! this = Some o ->
  Heap.load h this = Some b ->
  balances_ref o <> nextNonce_ref o ->
  exists h',
    Heap.addTransaction this tx h = Some (h', snd (Block.addTransaction b tx))
    /\ Heap.load h' this = Some (fst (Block.addTransaction b tx))
    /\ objects h' !! this
       = Some {| fields := fst (Block.addTransaction b tx);
                 balances_ref := balances_ref o;
                 nextNonce_ref := nextNonce_ref o |}
    /\ length (maps h') = length (maps h)
    /\ (forall l, l <> balances_ref o -> l <> nextNonce_ref o ->
                  maps h' !! l = maps h !! l)
    /\ (forall i, i <> this -> objects h' !! i = objects h !! i).
Proof.
  intros Ho Hload Hne.
  unfold Heap.addTransaction. rewrite Ho, Hload.
  destruct (Block.addTransaction b tx) as [b' ok] eqn:E. cbn [fst snd].
  eexists. split; [reflexivity|].
  unfold Heap.load in Hload. rewrite Ho in Hload.
  destruct (maps h !! balances_ref o) as [bal|] eqn:Hb; [|discriminate].
  destruct (maps h !! nextNonce_ref o) as [nn|] eqn:Hn; [|discriminate].
  apply lookup_lt_Some in Hb, Hn. pose proof (lookup_lt_Some _ _ _ Ho) as Hthis.
  repeat split.
  - unfold Heap.load, Heap.write_object, Heap.write_Map. cbn [objects maps].
    rewrite list_lookup_insert_eq by done. cbn [balances_ref nextNonce_ref fields].
    rewrite list_lookup_insert_eq by (by rewrite length_insert).
    rewrite list_lookup_insert_ne by done.
    rewrite list_lookup_insert_eq by done.
    by rewrite set_maps_eta.
  - unfold Heap.write_object. cbn [objects Heap.write_Map].
    by rewrite list_lookup_insert_eq.
  - unfold Heap.write_object, Heap.write_Map. cbn [maps].
    by rewrite !length_insert.
  - intros l Hl1 Hl2. unfold Heap.write_object, Heap.write_Map. cbn [maps].
    by rewrite !list_lookup_insert_ne.
  - intros i Hi. unfold Heap.write_object, Heap.write_Map. cbn [objects].
    by rewrite list_lookup_insert_ne.
Qed.

Lemma heap_readd_spec this txs : forall h o b,
  objects h !! this = Some o ->
  Heap.load h this = Some b ->
  balances_ref o <> nextNonce_ref o ->
  exists h',
    Heap.readd this txs h = Some (h', snd (Block.readd b txs))
    /\ Heap.load h' this = Some (fst (Block.readd b txs))
    /\ (exists o', objects h' !! this = Some o'
                   /\ balances_ref o' = balances_ref o
                   /\ nextNonce_ref o' = nextNonce_ref o)
    /\ length (maps h') = length (maps h)
    /\ (forall l, l <> balances_ref o -> l <> nextNonce_ref o ->
                  maps h' !! l = maps h !! l)
    /\ (forall i, i <> this -> objects h' !! i = objects h !! i).
Proof.
  induction txs as [|tx txs IH]; intros h o b Ho Hload Hne.
  - exists h. cbn [Heap.readd Block.readd fst snd]. repeat split; eauto.
  - destruct (heap_addTransaction_spec this tx h o b Ho Hload Hne)
      as (h1 & Hadd & Hload1 & Ho1 & Hlen1 & Hmaps1 & Hobjs1).
    cbn [Heap.readd Block.readd]. rewrite Hadd.
    destruct (Block.addTransaction b tx) as [b1 [|]]; cbn [fst snd] in *.
    + destruct (IH h1 _ b1 Ho1 Hload1 Hne)
        as (h' & Hre & Hload' & (o' & Ho' & Hb' & Hn') & Hlen' & Hmaps' & Hobjs').
      cbn [balances_ref nextNonce_ref] in *.
      exists h'. repeat split; try done.
      * exists o'. done.
      * congruence.
      * intros l Hl1 Hl2. rewrite Hmaps', Hmaps1; done.
      * intros i Hi. rewrite Hobjs', Hobjs1; done.
    + exists h1. repeat split; try done. eexists. split; [exact Ho1|done].
Qed.

(** C9. [this.rerun(prevBlock)], for a block and another object as its
    parent: the call returns; every [Map] that existed before the call is
    as it was, those of the parent among them; the parent object is as it
    was; the two maps of [this] after the call are maps allocated by the
    call.  What it computes is [rerun] on the values. *)
Theorem rerun_leaves_parent (h : Heap) (this prevBlock : nat) (b p : Block) :
  this <> prevBlock ->
  Heap.load h this = Some b ->
  Heap.load h prevBlock = Some p ->
  exists h' o',
    Heap.rerun this prevBlock h = Some (h', snd (Block.rerun b p))
    /\ (forall l m, maps h !! l = Some m -> maps h' !! l = Some m)
    /\ objects h' !! prevBlock = objects h !! prevBlock
    /\ Heap.load h' prevBlock = Some p
    /\ objects h' !! this = Some o'
    /\ (length (maps h) <= balances_ref o')%nat
    /\ (length (maps h) <= nextNonce_ref o')%nat
    /\ balances_ref o' <> nextNonce_ref o'
    /\ Heap.load h' this = Some (fst (Block.rerun b p)).
Proof.
  intros Hne Hb Hp.
  unfold Heap.load in Hb, Hp.
  destruct (objects h !! this) as [o|] eqn:Ho; [|discriminate].
  destruct (objects h !! prevBlock) as [po|] eqn:Hpo; [|discriminate].
  destruct (maps h !! balances_ref o) as [ob|] eqn:Hob; [|discriminate].
  destruct (maps h !! nextNonce_ref o) as [on|] eqn:Hon; [|discriminate].
  destruct (maps h !! balances_ref po) as [pbal|] eqn:Hpb; [|discriminate].
  destruct (maps h !! nextNonce_ref po) as [pnn|] eqn:Hpn; [|discriminate].
  injection Hb as <-. injection Hp as <-.
  pose proof (lookup_lt_Some _ _ _ Ho) as Hthis.
  pose proof (lookup_lt_Some _ _ _ Hpb) as Hpbl.
  pose proof (lookup_lt_Some _ _ _ Hpn) as Hpnl.
  set (n := length (maps h)) in *.
  (* the heap in which the transactions are admitted again *)
  set (start := rerun_start
                  (set_nextNonce on (set_balances ob (fields o)))
                  (set_nextNonce pnn (set_balances pbal (fields po)))).
  set (o2 := {| fields := set_transactions [] (fields o);
                balances_ref := n; nextNonce_ref := S n |}).
  set (h2 := {| maps := maps h ++ [balances start; nextNonce start];
                objects := <[this := o2]> (objects h) |}).
  assert (Heap.rerun this prevBlock h
          = Heap.readd this (map snd (transactions (fields o))) h2) as Hunfold.
  { unfold Heap.rerun, Heap.new_Map, Heap.write_object, Heap.load.
    rewrite Hpo, Hpb. cbn [maps objects]. rewrite Ho.
    rewrite list_lookup_insert_ne, Hpo by done.
    rewrite lookup_app_l, Hpn by done.
    rewrite !list_lookup_insert_eq by done.
    cbn [balances_ref nextNonce_ref fields].
    rewrite !list_lookup_insert_eq by (by rewrite length_insert).
    cbn [balances_ref nextNonce_ref fields].
    rewrite !list_lookup_insert_ne, Hpo by done.
    rewrite length_app. cbn [length]. fold n.
    replace (n + 1)%nat with (S n) by lia.
    rewrite (lookup_app_l (_ ++ _) _ n) by (rewrite length_app; cbn; lia).
    rewrite (lookup_app_r (maps h) _ n) by (unfold n; lia).
    replace (n - length (maps h))%nat with 0%nat by (unfold n; lia).
    cbn [lookup list_lookup].
    rewrite (lookup_app_r (_ ++ _) _ (S n)) by (rewrite length_app; cbn; lia).
    rewrite length_app. cbn [length]. fold n.
    replace (S n - (n + 1))%nat with 0%nat by lia.
    cbn [lookup list_lookup].
    rewrite !(lookup_app_l (_ ++ _)) by (rewrite length_app; cbn; lia).
    rewrite !(lookup_app_l (maps h)) by done.
    rewrite Hpb, Hpn.
    unfold Heap.write_Map. cbn [maps objects].
    f_equal. unfold h2. f_equal.
    - rewrite <- app_assoc. cbn [app].
      rewrite insert_app_r_alt by (unfold n; lia).
      replace (n - length (maps h))%nat with 0%nat by (unfold n; lia).
      reflexivity.
    - rewrite !list_insert_insert_eq. reflexivity. }
  assert (objects h2 !! this = Some o2) as Ho2.
  { unfold h2. cbn [objects]. by rewrite list_lookup_insert_eq. }
  assert (Heap.load h2 this = Some start) as Hload2.
  { unfold Heap.load. rewrite Ho2. unfold h2, o2. cbn [maps balances_ref nextNonce_ref fields].
    rewrite (lookup_app_r _ _ n) by (unfold n; lia).
    rewrite (lookup_app_r _ _ (S n)) by (unfold n; lia).
    replace (n - length (maps h))%nat with 0%nat by (unfold n; lia).
    replace (S n - length (maps h))%nat with 1%nat by (unfold n; lia).
    reflexivity. }
  destruct (heap_readd_spec this (map snd (transactions (fields o))) h2 o2 start
              Ho2 Hload2 ltac:(cbn; lia))
    as (h' & Hre & Hload' & (o' & Ho' & Hb' & Hn') & Hlen' & Hmaps' & Hobjs').
  cbn [balances_ref nextNonce_ref o2] in *.
  assert (forall l m, maps h !! l = Some m -> maps h' !! l = Some m) as Hframe.
  { intros l m Hl. pose proof (lookup_lt_Some _ _ _ Hl) as Hlt. fold n in Hlt.
    rewrite Hmaps' by lia. unfold h2. cbn [maps]. by rewrite lookup_app_l. }
  assert (objects h' !! prevBlock = Some po) as Hpo'.
  { rewrite Hobjs' by done. unfold h2. cbn [objects].
    by rewrite list_lookup_insert_ne. }
  exists h', o'. rewrite Hunfold. repeat split; try done; try lia.
  unfold Heap.load. rewrite Hpo'.
  by rewrite (Hframe _ _ Hpb), (Hframe _ _ Hpn).
Qed.

End HeapFacts.

(** ** [receiveBlock] returns *)

Section Returns.
Context {R : Runtime}.
Local Open Scope node_scope.

(** *** What [rerun] leaves of a block *)

Lemma addTransaction_header b tx : same_header b (fst (Block.addTransaction b tx)).
Proof.
  unfold Block.addTransaction, same_header.
  repeat (case_bool_decide || case_match); cbn; done.
Qed.

Lemma readd_header txs b : same_header b (fst (Block.readd b txs)).
Proof.
  revert b. induction txs as [|tx txs IH]; intros b; cbn [Block.readd].
  - by repeat split.
  - pose proof (addTransaction_header b tx) as H1.
    destruct (Block.addTransaction b tx) as [b1 [|]]; cbn [fst] in *; [|done].
    specialize (IH b1). unfold same_header in *.
    destruct H1 as (E1 & E2 & E3 & E4 & E5).
    destruct IH as (F1 & F2 & F3 & F4 & F5).
    repeat split; congruence.
Qed.

Lemma rerun_header b p : same_header b (fst (Block.rerun b p)).
Proof. rewrite rerun_unfold. apply (readd_header _ (rerun_start b p)). Qed.

Lemma serialize_same b b' :
  same_header b b' -> transactions b' = transactions b ->
  Block.serialize b' = Block.serialize b.
Proof.
  intros (H1 & H2 & H3 & H4 & H5) Ht.
  unfold Block.serialize, Block.to_json. by rewrite H1, H2, H3, H4, H5, Ht.
Qed.

(** A block stored under the ids of its transactions keeps its id when it
    is replayed. *)
Lemma rerun_keeps_id b p b' :
  well_keyed b -> Block.rerun b p = (b', true) ->
  Block.id b' = Block.id b /\ chainLength b' = chainLength b
  /\ prevBlockHash b' = prevBlockHash b.
Proof.
  intros Hk Hr. pose proof (rerun_header b p) as Hh. rewrite Hr in Hh. cbn in Hh.
  assert (transactions b' = transactions b) as Ht.
  { rewrite rerun_unfold in Hr. apply readd_transactions in Hr.
    cbn in Hr. rewrite Hr. by rewrite <- Hk. }
  split; [|by destruct Hh as (? & ? & _)].
  unfold Block.id, Block.hashVal. by rewrite (serialize_same b b' Hh Ht).
Qed.

(** *** Counting the waiting blocks *)

Lemma pending_count_insert_None ps k us :
  ps !! k = None ->
  pending_count (<[k := us]> ps) = (length us + pending_count ps)%nat.
Proof.
  intros Hk. unfold pending_count.
  rewrite map_fold_insert_L; [done| |done]. intros. lia.
Qed.

Lemma pending_count_delete ps k :
  (pending_count (delete k ps) + length (default [] (ps !! k)))%nat
  = pending_count ps.
Proof.
  destruct (ps !! k) as [us|] eqn:Hk; cbn [default from_option id].
  - unfold pending_count.
    rewrite (map_fold_delete_L _ _ k us ps); [lia| |done]. intros. lia.
  - rewrite delete_id by done. cbn. lia.
Qed.

Lemma pending_count_insert ps k us :
  (pending_count (<[k := us]> ps) + length (default [] (ps !! k)))%nat
  = (length us + pending_count ps)%nat.
Proof.
  rewrite <- insert_delete_eq.
  rewrite pending_count_insert_None by apply lookup_delete_eq.
  pose proof (pending_count_delete ps k). lia.
Qed.

(** *** Chains under a new block *)

Lemma linked_insert_fresh store k v x :
  store !! k = None -> linked store x -> linked (<[k := v]> store) x.
Proof.
  intros Hk. induction 1 as [x Hz|x p Hpos Hp Hlen _ IH].
  - by apply linked_genesis.
  - apply (linked_child _ x p); try done.
    rewrite lookup_insert_ne; [done|]. intros ->. congruence.
Qed.

Lemma linked_nonneg store x : linked store x -> 0 <= chainLength x.
Proof. destruct 1; lia. Qed.

Section Universe.
Variable U : list Block.
Hypothesis U_honest : honest_blocks U.

Lemma consistent_effect e c : consistent U c -> consistent U (do_effect e c).
Proof. intros [H1 H2 H3 H4]. by constructor. Qed.

Lemma consistent_set_miner m c : consistent U c -> consistent U (set_miner m c).
Proof. intros [H1 H2 H3 H4]. by constructor. Qed.

Lemma consistent_wait c x :
  consistent U c -> x ∈ U ->
  consistent U (set_pendingBlocks
                  (<[prevBlockHash x :=
                       default [] (pendingBlocks c !! prevBlockHash x) ++ [x]]>
                     (pendingBlocks c)) c).
Proof.
  intros [H1 H2 H3 H4] Hx. constructor; cbn; try done.
  intros k us u Hk Hu.
  destruct (decide (k = prevBlockHash x)) as [->|Hne].
  - rewrite lookup_insert_eq in Hk. injection Hk as <-.
    apply elem_of_app in Hu as [Hu|Hu].
    + destruct (pendingBlocks c !! prevBlockHash x) as [us|] eqn:E; cbn in Hu.
      * by eapply H3.
      * by apply elem_of_nil in Hu.
    + apply list_elem_of_singleton in Hu. by subst.
  - rewrite lookup_insert_ne in Hk by done. by eapply H3.
Qed.

Lemma consistent_delete c k :
  consistent U c ->
  consistent U (set_pendingBlocks (delete k (pendingBlocks c)) c).
Proof.
  intros [H1 H2 H3 H4]. constructor; cbn; try done.
  intros k' us u Hk Hu. apply lookup_delete_Some in Hk as [_ Hk]. by eapply H3.
Qed.

(** The node after an honest block is stored. *)
Lemma consistent_store c x parent x' :
  consistent U c -> x ∈ U ->
  blocks c !! Block.id x = None ->
  blocks c !! prevBlockHash x = Some parent ->
  Block.rerun x parent = (x', true) ->
  consistent U (Node.store_block x' c)
  /\ linked (blocks (Node.store_block x' c)) x'.
Proof.
  intros [H1 H2 H3 H4] Hx Hnew Hparent Hrerun.
  destruct U_honest as [Hkeys Hchain].
  assert (well_keyed x) as Hk by (rewrite Forall_forall in Hkeys; by apply Hkeys).
  destruct (rerun_keeps_id x parent x' Hk Hrerun) as (Hid & Hlen & Hprev).
  assert (linked (<[Block.id x' := x']> (blocks c)) x') as Hlinked.
  { pose proof (H2 _ _ Hparent) as Hlp.
    pose proof (linked_nonneg _ _ Hlp) as Hnn.
    pose proof (H4 x parent Hx Hparent) as Hl.
    apply (linked_child _ x' parent).
    - lia.
    - rewrite Hprev, lookup_insert_ne; [done|]. rewrite Hid. intros E. congruence.
    - lia.
    - apply linked_insert_fresh; [by rewrite Hid|done]. }
  split; [|exact Hlinked].
  unfold Node.store_block.
  constructor; cbn [blocks pendingBlocks lastBlock set_blocks]; try done.
  - intros k y Hy. destruct (decide (k = Block.id x')) as [->|Hne].
    + rewrite lookup_insert_eq in Hy. injection Hy as <-. exact Hlinked.
    + rewrite lookup_insert_ne in Hy by done.
      apply linked_insert_fresh; [by rewrite Hid|by eapply H2].
  - intros u p Hu Hp. destruct (decide (prevBlockHash u = Block.id x')) as [E|Hne].
    + rewrite E, lookup_insert_eq in Hp. injection Hp as <-.
      rewrite Hlen. apply Hchain; [done|done|]. by rewrite <- Hid.
    + rewrite lookup_insert_ne in Hp by done. by apply H4.
Qed.

Lemma release_loop self bound us :
  returns_below U bound self ->
  Forall (fun u => u ∈ U) us ->
  forall c,
    consistent U c ->
    (pending_count (pendingBlocks c) + length us <= bound)%nat ->
    exists c',
      for_each (fun b => self (inl b) ;;; ret tt) us c = Returned tt c'
      /\ consistent U c'
      /\ (pending_count (pendingBlocks c')
          <= pending_count (pendingBlocks c) + length us)%nat.
Proof.
  intros Hself. induction 1 as [|u us Hu _ IH]; intros c Hc Hbound.
  - exists c. cbn [for_each length].
    split; [reflexivity|]. split; [done|lia].
  - cbn [length] in Hbound.
    destruct (Hself c u Hu Hc ltac:(lia)) as (r & c1 & Hr & Hc1 & Hn1).
    destruct (IH c1 Hc1 ltac:(lia)) as (c' & Hloop & Hc' & Hn').
    exists c'. cbn [for_each]. unfold bind at 1 2. rewrite Hr. unfold ret at 1.
    rewrite Hloop. split; [reflexivity|]. split; [done|].
    cbn [length]; lia.
Qed.

Lemma release_returns self bound x c :
  returns_below U bound self ->
  consistent U c ->
  (pending_count (pendingBlocks c) <= bound)%nat ->
  exists c',
    Node.release self x c = Returned tt c'
    /\ consistent U c'
    /\ (pending_count (pendingBlocks c') <= pending_count (pendingBlocks c))%nat.
Proof.
  intros Hself Hc Hbound.
  unfold Node.release. unfold bind at 1, get at 1. unfold bind at 1, modify at 1.
  set (us := default [] (pendingBlocks c !! Block.id x)).
  set (c1 := set_pendingBlocks (delete (Block.id x) (pendingBlocks c)) c).
  pose proof (pending_count_delete (pendingBlocks c) (Block.id x)) as Hcount.
  fold us in Hcount.
  assert (Forall (fun u => u ∈ U) us) as Hus.
  { apply Forall_forall. intros u Hu. unfold us in Hu.
    destruct (pendingBlocks c !! Block.id x) as [l|] eqn:E; cbn in Hu.
    - by eapply (pending_known U c Hc).
    - by apply elem_of_nil in Hu. }
  destruct (release_loop self bound us Hself Hus c1
              (consistent_delete c (Block.id x) Hc)
              ltac:(cbn [pendingBlocks c1 set_pendingBlocks]; lia))
    as (c' & Hloop & Hc' & Hn').
  exists c'. split; [exact Hloop|]. split; [done|].
  cbn [pendingBlocks c1 set_pendingBlocks] in Hn'. lia.
Qed.

Lemma Client_receiveBlock_returns self fuel now bound x c :
  returns_below U bound self ->
  (6 <= fuel)%nat ->
  x ∈ U -> consistent U c ->
  (pending_count (pendingBlocks c) <= bound)%nat ->
  exists r c',
    Node.Client_receiveBlock self fuel now (inl x) c = Returned r c'
    /\ consistent U c'
    /\ (pending_count (pendingBlocks c') <= S (pending_count (pendingBlocks c)))%nat.
Proof.
  intros Hself Hfuel Hx Hc Hbound.
  destruct (classic_turned_down c x) as [Hdown|Hnot].
  - (* turned down: the node changes only when the parent is missing *)
    unfold Node.Client_receiveBlock. unfold bind at 1, get at 1.
    case_bool_decide as Hdup;
      [exists None, c; split; [reflexivity|]; split; [done|lia]|].
    destruct (Block.hasValidProof x) eqn:Hvalid; cbn [negb];
      [|exists None, c; split; [reflexivity|]; split; [done|lia]].
    destruct (blocks c !! prevBlockHash x) as [parent|] eqn:Hparent.
    + destruct Hdown as [?|[?|[?|(parent' & Hp' & Hfail)]]];
        [tauto|congruence|congruence|].
      assert (parent' = parent) as -> by congruence.
      destruct (Block.rerun x parent) as [x' ok]. cbn [snd] in Hfail. subst ok.
      exists None, c. split; [reflexivity|]. split; [done|lia].
    + pose proof (consistent_wait c x Hc Hx) as Hwait.
      pose proof (pending_count_insert (pendingBlocks c) (prevBlockHash x)
                    (default [] (pendingBlocks c !! prevBlockHash x) ++ [x]))
        as Hcount.
      rewrite length_app in Hcount. cbn [length] in Hcount.
      destruct (pendingBlocks c !! prevBlockHash x) as [us|] eqn:Hp;
        cbn [default from_option id] in *.
      * eexists None, _. split; [reflexivity|].
        split; [exact Hwait|].
        cbn [pendingBlocks set_pendingBlocks]; lia.
      * eexists None, _. split; [reflexivity|].
        split; [|cbn [pendingBlocks set_pendingBlocks do_effect]; lia].
        destruct Hwait as [H1 H2 H3 H4]. by constructor.
  - destruct (Client_receiveBlock_not_turned_down c x Hnot)
      as (Hnew & Hvalid & parent & x' & Hparent & Hrerun).
    rewrite (Client_receiveBlock_accept self fuel now c x parent x'
               Hnew Hvalid Hparent Hrerun).
    destruct (consistent_store c x parent x' Hc Hx Hnew Hparent Hrerun)
      as [Hstored Hlinked].
    destruct (has_last U _ Hstored) as [last Hlast].
    destruct (choose_fork_returns fuel x' _ last Hlast (fun _ => Hlinked) Hfuel)
      as (c1 & Hfork & Hb1 & Hp1 & Hm1 & Hl1).
    assert (consistent U c1) as Hc1.
    { destruct Hstored as [H1 H2 H3 H4].
      constructor; rewrite ?Hb1, ?Hp1; done. }
    destruct (release_returns self bound x' c1 Hself Hc1
                ltac:(rewrite Hp1; cbn [pendingBlocks Node.store_block set_blocks]; lia))
      as (c' & Hrel & Hc' & Hn').
    exists (Some x'), c'. unfold bind. rewrite Hfork, Hrel.
    split; [reflexivity|]. split; [done|].
    rewrite Hp1 in Hn'. cbn [pendingBlocks Node.store_block set_blocks] in Hn'.
    lia.
Qed.

Lemma startNewSearch_returns now c m :
  miner c = Some m ->
  exists m', Node.startNewSearch now c = Returned tt (set_miner (Some m') c).
Proof.
  intros Hm. unfold Node.startNewSearch, bind, get. rewrite Hm.
  eexists. reflexivity.
Qed.

Lemma Miner_receiveBlock_returns super now x c r c1 :
  super (inl x) c = Returned r c1 ->
  consistent U c1 ->
  exists c',
    Node.Miner_receiveBlock super now (inl x) c = Returned None c'
    /\ consistent U c'
    /\ pendingBlocks c' = pendingBlocks c1.
Proof.
  intros Hsuper Hc1. unfold Node.Miner_receiveBlock. unfold bind at 1.
  rewrite Hsuper. destruct r as [b|]; [|by exists c1].
  unfold bind at 1, get at 1.
  destruct (miner c1) as [m|] eqn:Hm; [|by exists c1].
  destruct (chainLength b >? chainLength (currentBlock m)).
  - destruct (startNewSearch_returns now c1 m Hm) as [m' Hs].
    unfold bind. rewrite Hs. unfold ret.
    eexists. split; [reflexivity|]. split; [|reflexivity].
    by apply consistent_set_miner.
  - by exists c1.
Qed.

(** [this.receiveBlock] returns, on a client and on a miner. *)
Lemma receiveBlock_returns now fuel : forall bound,
  (bound + 7 <= fuel)%nat ->
  returns_below U (S bound) (Node.receiveBlock fuel now).
Proof.
  induction fuel as [|fuel IH]; intros bound Hfuel; [lia|].
  intros c x Hx Hc Hcount.
  assert (returns_below U bound (Node.receiveBlock fuel now)) as Hself.
  { destruct bound as [|bound]; [intros ? ? ? ? ?; lia|].
    apply IH. lia. }
  destruct (Client_receiveBlock_returns (Node.receiveBlock fuel now) fuel now
              bound x c Hself ltac:(lia) Hx Hc ltac:(lia))
    as (r & c1 & Hr & Hc1 & Hn1).
  destruct (miner c) as [m|] eqn:Hm.
  - rewrite (receiveBlock_miner fuel now (inl x) c m Hm).
    destruct (Miner_receiveBlock_returns _ now x c r c1 Hr Hc1)
      as (c' & Hret & Hc' & Hp').
    exists None, c'. split; [done|]. split; [done|]. by rewrite Hp'.
  - rewrite (receiveBlock_client fuel now (inl x) c Hm).
    by exists r, c1.
Qed.

End Universe.

(** *** A miner next to a client *)

Lemma as_ret {A B} (Q : A -> B -> Prop) a b :
  Q a b -> as_on_client Q (ret a) (ret b).
Proof. intros HQ c Hm. by cbn. Qed.

Lemma as_throw {A B} (Q : A -> B -> Prop) e :
  as_on_client Q (throw e) (throw e).
Proof. intros c Hm. by cbn. Qed.

Lemma as_bind {A B A' B'} (Q : A -> B -> Prop) (Q' : A' -> B' -> Prop)
    (m1 : M A) (m2 : M B) (f1 : A -> M A') (f2 : B -> M B') :
  as_on_client Q m1 m2 ->
  (forall a b, Q a b -> as_on_client Q' (f1 a) (f2 b)) ->
  as_on_client Q' (bind m1 f1) (bind m2 f2).
Proof.
  intros H1 H2 c Hm. unfold bind. specialize (H1 c Hm).
  destruct (m1 c) as [a c1|e1 c1|], (m2 (set_miner None c)) as [b c2|e2 c2|];
    try done.
  destruct H1 as (HQ & -> & Hm1). exact (H2 a b HQ c1 Hm1).
Qed.

Lemma as_get :
  as_on_client (fun c1 c2 => c2 = set_miner None c1 /\ is_Some (miner c1)) get get.
Proof. intros c Hm. by cbn. Qed.

Lemma as_modify (f : Client -> Client) :
  (forall c, f (set_miner None c) = set_miner None (f c)) ->
  (forall c, is_Some (miner c) -> is_Some (miner (f c))) ->
  as_on_client (fun _ _ => True) (modify f) (modify f).
Proof. intros Hf Hm c Hc. cbn. split; [done|]. split; [apply Hf|by apply Hm]. Qed.

Lemma as_weaken {A B} (Q Q' : A -> B -> Prop) m1 m2 :
  (forall a b, Q a b -> Q' a b) -> as_on_client Q m1 m2 -> as_on_client Q' m1 m2.
Proof.
  intros HQ H c Hm. specialize (H c Hm).
  destruct (m1 c), (m2 (set_miner None c)); try done.
  destruct H as (Hq & ? & ?). by auto.
Qed.

Lemma as_for_each {A} (f1 f2 : A -> M unit) l :
  (forall x, as_on_client (fun _ _ => True) (f1 x) (f2 x)) ->
  as_on_client (fun _ _ => True) (for_each f1 l) (for_each f2 l).
Proof.
  intros Hf. induction l as [|x l IH]; cbn [for_each].
  - by apply as_ret.
  - eapply as_bind; [apply Hf|]. intros _ _ _. exact IH.
Qed.

Lemma as_walk_back fuel store b h :
  as_on_client eq (Node.walk_back fuel store b h) (Node.walk_back fuel store b h).
Proof.
  revert b. induction fuel as [|fuel IH]; intros b; cbn [Node.walk_back];
    destruct (chainLength b >? h); try (by apply as_ret); [by intros c Hm|].
  destruct (store !! prevBlockHash b); [apply IH|apply as_throw].
Qed.

Lemma as_setLastConfirmed fuel :
  as_on_client (fun _ _ => True) (Node.setLastConfirmed fuel) (Node.setLastConfirmed fuel).
Proof.
  unfold Node.setLastConfirmed.
  eapply as_bind; [apply as_get|]. intros c1 c2 [-> Hm].
  cbn [lastBlock blocks set_miner].
  destruct (lastBlock c1) as [last|]; [|apply as_throw].
  eapply as_bind; [apply as_walk_back|]. intros a ? <-.
  apply as_modify; [reflexivity|done].
Qed.

Lemma as_choose_fork fuel b :
  as_on_client (fun _ _ => True) (Node.choose_fork fuel b) (Node.choose_fork fuel b).
Proof.
  unfold Node.choose_fork.
  eapply as_bind; [apply as_get|]. intros c1 c2 [-> Hm].
  cbn [lastBlock set_miner].
  destruct (lastBlock c1) as [last|]; [|apply as_throw].
  destruct (chainLength last <? chainLength b); [|by apply as_ret].
  eapply as_bind; [apply as_modify; [reflexivity|done]|].
  intros _ _ _. apply as_setLastConfirmed.
Qed.

Lemma as_requestMissingBlock b :
  as_on_client (fun _ _ => True) (Node.requestMissingBlock b) (Node.requestMissingBlock b).
Proof.
  unfold Node.requestMissingBlock.
  eapply as_bind; [apply as_get|]. intros c1 c2 [-> Hm].
  cbn [c_address set_miner]. apply as_modify; [reflexivity|done].
Qed.

Lemma as_release self1 self2 b :
  (forall i, as_on_client (fun _ _ => True) (self1 i) (self2 i)) ->
  as_on_client (fun _ _ => True) (Node.release self1 b) (Node.release self2 b).
Proof.
  intros Hself. unfold Node.release.
  eapply as_bind; [apply as_get|]. intros c1 c2 [-> Hm].
  cbn [pendingBlocks set_miner].
  eapply as_bind; [apply as_modify; [reflexivity|done]|]. intros _ _ _.
  apply as_for_each. intros u.
  eapply as_bind; [apply Hself|]. intros _ _ _. by apply as_ret.
Qed.

Lemma as_Client_receiveBlock self1 self2 fuel now input :
  (forall i, as_on_client (fun _ _ => True) (self1 i) (self2 i)) ->
  as_on_client eq (Node.Client_receiveBlock self1 fuel now input)
               (Node.Client_receiveBlock self2 fuel now input).
Proof.
  intros Hself. unfold Node.Client_receiveBlock.
  destruct (match input with inl b => Some b | inr str => Block.deserialize now str end)
    as [block|]; [|apply as_throw].
  eapply as_bind; [apply as_get|]. intros c1 c2 [-> Hm].
  cbn [blocks pendingBlocks set_miner].
  case_bool_decide; [by apply as_ret|].
  destruct (Block.hasValidProof block); cbn [negb]; [|by apply as_ret].
  destruct (blocks c1 !! prevBlockHash block) as [prevBlock|].
  - destruct (Block.rerun block prevBlock) as [block' [|]]; cbn [negb];
      [|by apply as_ret].
    eapply as_bind; [apply as_modify; [reflexivity|done]|]. intros _ _ _.
    eapply as_bind; [apply as_choose_fork|]. intros _ _ _.
    eapply as_bind; [by apply as_release|]. intros _ _ _. by apply as_ret.
  - eapply as_bind with (Q := eq).
    + destruct (pendingBlocks c1 !! prevBlockHash block); [by apply as_ret|].
      eapply as_bind; [apply as_requestMissingBlock|]. intros _ _ _. by apply as_ret.
    + intros stuck ? <-.
      eapply as_bind; [apply as_modify; [reflexivity|done]|]. intros _ _ _.
      by apply as_ret.
Qed.

Lemma as_Miner_receiveBlock {B} (Q : option Block -> B -> Prop) super1 (m2 : M B) now s :
  as_on_client Q (super1 s) m2 ->
  as_on_client (fun r _ => r = None) (Node.Miner_receiveBlock super1 now s) m2.
Proof.
  intros Hs c Hm. specialize (Hs c Hm). unfold Node.Miner_receiveBlock, bind.
  destruct (super1 s c) as [[b|] c1|e1 c1|],
           (m2 (set_miner None c)) as [x c2|e2 c2|]; try done.
  - destruct Hs as (_ & -> & [m Hm1]). unfold get. rewrite Hm1.
    destruct (chainLength b >? chainLength (currentBlock m)).
    + unfold Node.startNewSearch, bind, get, modify. rewrite Hm1. cbn.
      repeat split; by eauto.
    + cbn. repeat split; by eauto.
  - destruct Hs as (_ & -> & Hm1). by cbn.
Qed.

Lemma as_receiveBlock fuel now input :
  as_on_client (fun r _ => r = None) (Node.receiveBlock fuel now input)
               (Node.receiveBlock fuel now input).
Proof.
  revert input. induction fuel as [|fuel IH]; intros input c Hm; [exact I|].
  pose proof Hm as [m Hm'].
  rewrite (receiveBlock_miner fuel now input c m Hm').
  rewrite (receiveBlock_client fuel now input (set_miner None c) eq_refl).
  apply (as_Miner_receiveBlock eq); [|exact Hm].
  apply as_Client_receiveBlock. intros i.
  eapply as_weaken; [|apply IH]. done.
Qed.

Lemma same_client_strip c c0 :
  same_client c c0 -> miner c0 = None -> c0 = set_miner None c.
Proof.
  intros (H1 & H2 & H3 & H4 & H5 & H6 & H7 & H8 & H9 & H10) Hm.
  destruct c, c0. cbn in *. by subst.
Qed.

Lemma same_client_set_miner m c : same_client c (set_miner m c).
Proof. unfold same_client. cbn. by repeat split. Qed.


Lemma receiveBlock_incoming fuel now input b c :
  incoming now input = Some b ->
  Node.receiveBlock fuel now input c = Node.receiveBlock fuel now (inl b) c.
Proof.
  intros Hin. destruct input as [b0|str]; cbn [incoming] in Hin.
  - by injection Hin as ->.
  - destruct fuel as [|fuel]; [reflexivity|]. cbn [Node.receiveBlock].
    unfold Node.Miner_receiveBlock, Node.Client_receiveBlock. by rewrite Hin.
Qed.

Lemma Client_receiveBlock_stores_nothing self fuel now c b :
  Node.turned_down c b ->
  exists c',
    Node.Client_receiveBlock self fuel now (inl b) c = Returned None c'
    /\ blocks c' = blocks c
    /\ lastBlock c' = lastBlock c
    /\ lastConfirmedBlock c' = lastConfirmedBlock c
    /\ miner c' = miner c.
Proof.
  intros Hcase. unfold Node.Client_receiveBlock. unfold bind at 1, get at 1.
  case_bool_decide as Hdup; [by eexists|].
  destruct (Block.hasValidProof b) eqn:Hvalid; cbn [negb]; [|by eexists].
  destruct (blocks c !! prevBlockHash b) as [parent|] eqn:Hparent.
  - destruct Hcase as [?|[?|[?|(parent' & Hp' & Hfail)]]];
      [tauto|congruence|congruence|].
    assert (parent' = parent) as -> by congruence.
    destruct (Block.rerun b parent) as [b' ok]. cbn [snd] in Hfail. subst ok.
    by eexists.
  - destruct (pendingBlocks c !! prevBlockHash b); by eexists.
Qed.

Lemma receiveBlock_stores_nothing fuel now c b :
  Node.turned_down c b ->
  exists c',
    Node.receiveBlock (S fuel) now (inl b) c = Returned None c'
    /\ blocks c' = blocks c
    /\ lastBlock c' = lastBlock c
    /\ lastConfirmedBlock c' = lastConfirmedBlock c.
Proof.
  intros Hdown.
  destruct (Client_receiveBlock_stores_nothing (Node.receiveBlock fuel now) fuel now
              c b Hdown) as (c' & Hret & Hb & Hl & Hc & _).
  exists c'. split; [|done].
  destruct (miner c) as [m|] eqn:Hm.
  - rewrite (receiveBlock_miner fuel now (inl b) c m Hm).
    unfold Node.Miner_receiveBlock, bind. by rewrite Hret.
  - by rewrite (receiveBlock_client fuel now (inl b) c Hm).
Qed.


End Returns.

(** * Further properties of the node *)

(** ** Missing blocks: the request and its answer *)

Section MissingBlocks.
Context {R : Runtime}.


End MissingBlocks.

(** ** What every method keeps *)

Section Steps.
Context {R : Runtime}.
Local Open Scope node_scope.

Variable Rel : Client -> Client -> Prop.
Hypothesis Rel_refl : forall c, Rel c c.
Hypothesis Rel_trans : forall c1 c2 c3, Rel c1 c2 -> Rel c2 c3 -> Rel c1 c3.
Hypothesis Rel_nonce : forall c, Rel c (set_nonce (nonce c + 1) c).
Hypothesis Rel_effect : forall e c, Rel c (do_effect e c).
Hypothesis Rel_wait :
  forall b us c,
    blocks c !! prevBlockHash b = None ->
    Rel c (set_pendingBlocks (<[prevBlockHash b := us]> (pendingBlocks c)) c).
Hypothesis Rel_release :
  forall k c, Rel c (set_pendingBlocks (delete k (pendingBlocks c)) c).
Hypothesis Rel_store : forall b c, Rel c (Node.store_block b c).
Hypothesis Rel_try_next :
  forall m c,
    miner c = Some m ->
    Rel c (set_miner
             (Some {| miningRounds := miningRounds m;
                      currentBlock :=
                        set_proof (option_map Z.succ (proof (currentBlock m)))
                                  (currentBlock m) |}) c).
Hypothesis Rel_startNewSearch : forall now, steps Rel (Node.startNewSearch now).
Hypothesis Rel_addTransaction : forall tx, steps Rel (Node.addTransaction tx).
Hypothesis Rel_setGenesisBlock : forall g, steps Rel (Node.setGenesisBlock g).
Hypothesis Rel_setLastConfirmed : forall fuel, steps Rel (Node.setLastConfirmed fuel).
Hypothesis Rel_choose_fork : forall fuel b, steps Rel (Node.choose_fork fuel b).

Lemma steps_ret {A} (a : A) : steps Rel (ret a).
Proof. intros c. apply Rel_refl. Qed.

Lemma steps_throw {A} e : steps Rel (@throw A e).
Proof. intros c. apply Rel_refl. Qed.

Lemma steps_get : steps Rel get.
Proof. intros c. apply Rel_refl. Qed.

Lemma steps_modify f : (forall c, Rel c (f c)) -> steps Rel (modify f).
Proof. intros H c. apply H. Qed.

Lemma steps_bind {A B} (m : M A) (f : A -> M B) :
  steps Rel m -> (forall a, steps Rel (f a)) -> steps Rel (bind m f).
Proof.
  intros Hm Hf c. unfold bind. specialize (Hm c).
  destruct (m c) as [a c'| |]; [|done|done].
  specialize (Hf a c'). destruct (f a c'); eauto.
Qed.

Lemma steps_for_each {A} (f : A -> M unit) l :
  (forall a, steps Rel (f a)) -> steps Rel (for_each f l).
Proof.
  intros Hf. induction l as [|x l IH]; cbn [for_each].
  - apply steps_ret.
  - apply steps_bind; [apply Hf|intros _; exact IH].
Qed.

Ltac steps :=
  repeat first
    [ assumption
    | match goal with H : forall _, steps Rel _ |- _ => apply H end
    | apply steps_ret | apply steps_throw | apply steps_get
    | apply steps_modify; intros;
      first [ apply Rel_nonce | apply Rel_effect | apply Rel_release
            | apply Rel_store ]
    | apply steps_bind; [|intros]
    | apply steps_for_each; intros
    | match goal with
      | |- steps Rel (match ?x with _ => _ end) => destruct x
      | |- steps Rel (if ?x then _ else _) => destruct x
      | |- steps Rel (let '(_, _) := ?x in _) => destruct x
      end ].

Lemma steps_at {A} (m : M A) c :
  steps Rel m ->
  match m c with
  | Returned _ c' | Thrown _ c' => Rel c c'
  | OutOfFuel => True
  end.
Proof. intros H. apply H. Qed.

Lemma steps_confirmedBalance : steps Rel Node.confirmedBalance.
Proof.
  intros c. unfold Node.confirmedBalance.
  destruct (lastConfirmedBlock c); apply Rel_refl.
Qed.

Lemma steps_availableGold : steps Rel Node.availableGold.
Proof. unfold Node.availableGold. pose proof steps_confirmedBalance. steps. Qed.

Lemma steps_postTransaction outputs fee :
  steps Rel (Node.postTransaction outputs fee).
Proof. unfold Node.postTransaction. pose proof steps_availableGold. steps. Qed.

Lemma steps_requestMissingBlock b : steps Rel (Node.requestMissingBlock b).
Proof. unfold Node.requestMissingBlock. steps. Qed.

Lemma steps_provideMissingBlock msg : steps Rel (Node.provideMissingBlock msg).
Proof. unfold Node.provideMissingBlock. steps. Qed.

Lemma steps_release self b :
  (forall i, steps Rel (self i)) -> steps Rel (Node.release self b).
Proof. intros Hself. unfold Node.release. steps. Qed.

Lemma steps_Client_receiveBlock self fuel now input :
  (forall i, steps Rel (self i)) ->
  steps Rel (Node.Client_receiveBlock self fuel now input).
Proof.
  intros Hself c. unfold Node.Client_receiveBlock.
  destruct (match input with
            | inl b => Some b
            | inr str => Block.deserialize now str
            end) as [block|]; [|apply Rel_refl].
  unfold bind at 1, get at 1. cbv beta iota.
  case_bool_decide; [apply Rel_refl|].
  destruct (negb (Block.hasValidProof block)); [apply Rel_refl|].
  destruct (blocks c !! prevBlockHash block) as [prevBlock|] eqn:Hparent.
  - clear Hparent. apply steps_at.
    pose proof (Rel_choose_fork fuel).
    pose proof (fun b => steps_release self b Hself).
    steps.
  - destruct (pendingBlocks c !! prevBlockHash block) as [stuck|];
      unfold Node.requestMissingBlock, bind, get, ret, modify; cbv beta iota.
    + by apply Rel_wait.
    + eapply Rel_trans; [apply Rel_effect|]. by apply Rel_wait.
Qed.

Lemma steps_Miner_receiveBlock super now s :
  (forall i, steps Rel (super i)) ->
  steps Rel (Node.Miner_receiveBlock super now s).
Proof.
  intros Hsuper. unfold Node.Miner_receiveBlock.
  pose proof (Rel_startNewSearch now). steps.
Qed.

Lemma steps_receiveBlock fuel now input :
  steps Rel (Node.receiveBlock fuel now input).
Proof.
  revert input. induction fuel as [|fuel IH]; intros input c;
    cbn [Node.receiveBlock]; [done|].
  destruct (miner c).
  - apply steps_Miner_receiveBlock. intros i.
    by apply steps_Client_receiveBlock.
  - by apply steps_Client_receiveBlock.
Qed.

Lemma steps_announceProof : steps Rel Node.announceProof.
Proof. unfold Node.announceProof. steps. Qed.

Lemma steps_search fuel now rounds : steps Rel (Node.search fuel now rounds).
Proof.
  induction rounds as [|rounds IH]; cbn [Node.search].
  - apply steps_ret.
  - intros c. unfold bind at 1, get at 1. cbv beta iota.
    destruct (miner c) as [m|] eqn:Hm; [|apply Rel_refl].
    destruct (Block.hasValidProof (currentBlock m)).
    + apply steps_at.
      pose proof steps_announceProof. pose proof (Rel_startNewSearch now).
      pose proof (steps_receiveBlock fuel now). steps.
    + unfold bind, modify.
      match goal with
      | |- context [Node.search fuel now rounds ?st] =>
          pose proof (IH st) as H; destruct (Node.search fuel now rounds st)
      end; [| |exact I]; (eapply Rel_trans; [by apply Rel_try_next|exact H]).
Qed.

Lemma steps_findProof fuel now oneAndDone :
  steps Rel (Node.findProof fuel now oneAndDone).
Proof.
  unfold Node.findProof. pose proof (steps_search fuel now). steps.
Qed.

Lemma steps_initialize fuel now : steps Rel (Node.initialize fuel now).
Proof.
  unfold Node.initialize. pose proof (Rel_startNewSearch now).
  pose proof (steps_findProof fuel now). steps.
Qed.

Lemma steps_run fuel now call : steps Rel (Node.run fuel now call).
Proof.
  destruct call; cbn [Node.run];
    auto using steps_postTransaction,
      steps_requestMissingBlock, steps_provideMissingBlock,
      steps_initialize, steps_findProof, steps_announceProof.
  - pose proof (steps_receiveBlock fuel now). steps.
  - pose proof Rel_addTransaction. steps.
Qed.

End Steps.

(** The final state of the loop of [setLastConfirmed] is its first. *)
Lemma walk_back_same_state `{R : Runtime} fuel store b h c :
  match Node.walk_back fuel store b h c with
  | Returned _ c' | Thrown _ c' => c' = c
  | OutOfFuel => True
  end.
Proof.
  revert b. induction fuel as [|fuel IH]; intros b; cbn [Node.walk_back];
    destruct (chainLength b >? h); try reflexivity; try exact I.
  destruct (store !! prevBlockHash b) as [parent|]; [apply IH|reflexivity].
Qed.

(** Relations that hold across any change of [pendingBlocks] and of the
    miner's fields. *)
Section ChainSteps.
Context {R : Runtime}.
Local Open Scope node_scope.

Variable Rel : Client -> Client -> Prop.
Hypothesis Rel_refl : forall c, Rel c c.
Hypothesis Rel_trans : forall c1 c2 c3, Rel c1 c2 -> Rel c2 c3 -> Rel c1 c3.
Hypothesis Rel_nonce : forall c, Rel c (set_nonce (nonce c + 1) c).
Hypothesis Rel_effect : forall e c, Rel c (do_effect e c).
Hypothesis Rel_pending : forall ps c, Rel c (set_pendingBlocks ps c).
Hypothesis Rel_store : forall b c, Rel c (Node.store_block b c).
Hypothesis Rel_miner : forall m c, Rel c (set_miner m c).
Hypothesis Rel_setGenesisBlock : forall g, steps Rel (Node.setGenesisBlock g).
Hypothesis Rel_setLastConfirmed : forall fuel, steps Rel (Node.setLastConfirmed fuel).
Hypothesis Rel_choose_fork : forall fuel b, steps Rel (Node.choose_fork fuel b).

Lemma chain_startNewSearch now : steps Rel (Node.startNewSearch now).
Proof.
  intros c. unfold Node.startNewSearch, bind, get, modify.
  destruct (miner c); [apply Rel_miner|apply Rel_refl].
Qed.

Lemma chain_addTransaction tx : steps Rel (Node.addTransaction tx).
Proof.
  intros c. unfold Node.addTransaction, bind, get, modify, ret.
  destruct (miner c) as [m|]; [|apply Rel_refl].
  destruct (Block.addTransaction (currentBlock m) tx). apply Rel_miner.
Qed.

Lemma chain_run fuel now call : steps Rel (Node.run fuel now call).
Proof.
  apply (steps_run Rel Rel_refl Rel_trans Rel_nonce Rel_effect);
    auto using chain_startNewSearch, chain_addTransaction.
Qed.

End ChainSteps.

(** Relations that hold across any assignment to [lastBlock] and
    [lastConfirmedBlock] as well. *)
Section AssignedSteps.
Context {R : Runtime}.
Local Open Scope node_scope.

Variable Rel : Client -> Client -> Prop.
Hypothesis Rel_refl : forall c, Rel c c.
Hypothesis Rel_trans : forall c1 c2 c3, Rel c1 c2 -> Rel c2 c3 -> Rel c1 c3.
Hypothesis Rel_nonce : forall c, Rel c (set_nonce (nonce c + 1) c).
Hypothesis Rel_effect : forall e c, Rel c (do_effect e c).
Hypothesis Rel_pending : forall ps c, Rel c (set_pendingBlocks ps c).
Hypothesis Rel_store : forall b c, Rel c (Node.store_block b c).
Hypothesis Rel_miner : forall m c, Rel c (set_miner m c).
Hypothesis Rel_lastBlock : forall b c, Rel c (set_lastBlock (Some b) c).
Hypothesis Rel_lastConfirmed : forall b c, Rel c (set_lastConfirmedBlock (Some b) c).

Lemma assigned_setGenesisBlock g : steps Rel (Node.setGenesisBlock g).
Proof.
  intros c. unfold Node.setGenesisBlock. destruct (lastBlock c); [apply Rel_refl|].
  eapply Rel_trans; [apply (Rel_lastConfirmed g)|].
  eapply Rel_trans; [apply (Rel_lastBlock g)|]. apply (Rel_store g).
Qed.

Lemma assigned_setLastConfirmed fuel : steps Rel (Node.setLastConfirmed fuel).
Proof.
  intros c. unfold Node.setLastConfirmed, bind, get.
  destruct (lastBlock c) as [last|]; [|apply Rel_refl].
  match goal with
  | |- context [Node.walk_back ?f ?s ?x ?h ?st] =>
      pose proof (walk_back_same_state f s x h st) as Hw;
      destruct (Node.walk_back f s x h st) as [a c'|e c'|]
  end; [subst c'|subst c'; apply Rel_refl|exact I].
  apply Rel_lastConfirmed.
Qed.

Lemma assigned_choose_fork fuel b : steps Rel (Node.choose_fork fuel b).
Proof.
  intros c. unfold Node.choose_fork, bind, get.
  destruct (lastBlock c) as [last|]; [|apply Rel_refl].
  destruct (chainLength last <? chainLength b); [|apply Rel_refl].
  unfold modify.
  pose proof (assigned_setLastConfirmed fuel (set_lastBlock (Some b) c)) as H.
  destruct (Node.setLastConfirmed fuel (set_lastBlock (Some b) c));
    [| |exact I]; (eapply Rel_trans; [apply Rel_lastBlock|exact H]).
Qed.

Lemma assigned_run fuel now call : steps Rel (Node.run fuel now call).
Proof.
  apply (chain_run Rel Rel_refl Rel_trans Rel_nonce Rel_effect Rel_pending
           Rel_store Rel_miner);
    auto using assigned_setGenesisBlock, assigned_setLastConfirmed,
      assigned_choose_fork.
Qed.

End AssignedSteps.

Section Invariants.
Context {R : Runtime}.
Local Open Scope node_scope.

Lemma evolves_refl c : evolves c c.
Proof. unfold evolves. repeat split; done. Qed.

Lemma evolves_trans c1 c2 c3 : evolves c1 c2 -> evolves c2 c3 -> evolves c1 c3.
Proof.
  intros (Hn & Hk & Ha & Hno & Hb & Hnet) (Hn' & Hk' & Ha' & Hno' & Hb' & Hnet').
  unfold evolves. split; [congruence|]. split; [congruence|].
  split; [congruence|]. split; [lia|]. split; [by auto|]. by etrans.
Qed.

Lemma evolves_store b c : evolves c (Node.store_block b c).
Proof.
  unfold evolves. cbn. repeat split; try done; try lia.
  intros k Hk. destruct (decide (Block.id b = k)) as [<-|Hne].
  - rewrite lookup_insert_eq. by eexists.
  - by rewrite lookup_insert_ne.
Qed.

(** No method changes the name, the keys or the address of a node, lowers
    its nonce, removes a block from its store or takes back what it has
    sent, whether the call returns or throws. *)
Theorem methods_keep_identity_and_store fuel now call c :
  match Node.run fuel now call c with
  | Returned _ c' | Thrown _ c' => evolves c c'
  | OutOfFuel => True
  end.
Proof.
  apply (assigned_run evolves evolves_refl evolves_trans);
    try apply evolves_store;
    intros; unfold evolves; cbn; repeat split; try done; try lia.
  by apply prefix_app_r.
Qed.

Lemma run_keeps_keys fuel now call :
  steps (fun c c' => keyPair c' = keyPair c /\ c_address c' = c_address c)
        (Node.run fuel now call).
Proof.
  apply assigned_run; try (by intros).
  intros c1 c2 c3 [H1 H2] [H3 H4]. split; congruence.
Qed.

Lemma reachable_steps (P : Client -> Prop) :
  (forall name_ kp startingBlock, P (Node.Client_new name_ kp startingBlock)) ->
  (forall m c, P c -> P (set_miner m c)) ->
  (forall fuel now call, steps (fun c c' => P c -> P c') (Node.run fuel now call)) ->
  forall c, Node.reachable c -> P c.
Proof.
  intros Hnew Hminer Hrun.
  induction 1 as [| |c fuel now call c' _ IH Hc|c fuel now call e c' _ IH Hc].
  - apply Hnew.
  - unfold Node.Miner_new. apply Hminer, Hnew.
  - pose proof (Hrun fuel now call c) as H. rewrite Hc in H. auto.
  - pose proof (Hrun fuel now call c) as H. rewrite Hc in H. auto.
Qed.

Lemma reachable_receiveBlock fuel now b c :
  Node.reachable c ->
  is_returned (Node.receiveBlock fuel now (inl b) c) = true ->
  Node.reachable match Node.receiveBlock fuel now (inl b) c with
                 | Returned _ c' => c'
                 | _ => c
                 end.
Proof.
  intros Hc Hret.
  apply (Node.reach_returned c fuel now (Node.CallReceiveBlock (inl b)) _ Hc).
  cbn [Node.run]. unfold bind.
  destruct (Node.receiveBlock fuel now (inl b) c); [reflexivity|discriminate..].
Qed.

Lemma reachable_address c :
  Node.reachable c -> c_address c = Utils.calcAddress (kp_public (keyPair c)).
Proof.
  revert c. apply reachable_steps.
  - intros name_ kp [g|]; [|reflexivity].
    unfold Node.Client_new, Node.setGenesisBlock. reflexivity.
  - by intros m c.
  - intros fuel now call c.
    pose proof (run_keeps_keys fuel now call c) as H.
    destruct (Node.run fuel now call c) as [? c'|? c'|]; [| |exact I];
      destruct H as [Hk Ha]; intros Hc; by rewrite Ha, Hk.
Qed.

Lemma store_keyed_insert b c : store_keyed c -> store_keyed (Node.store_block b c).
Proof.
  intros Hc k x. unfold Node.store_block. cbn [blocks set_blocks].
  destruct (decide (Block.id b = k)) as [<-|Hne].
  - rewrite lookup_insert_eq. by intros [= <-].
  - rewrite lookup_insert_ne by done. apply Hc.
Qed.

Lemma reachable_store_keyed c : Node.reachable c -> store_keyed c.
Proof.
  revert c. apply reachable_steps.
  - intros name_ kp [g|]; unfold Node.Client_new, Node.setGenesisBlock;
      cbn [lastBlock].
    + apply (store_keyed_insert g). intros k x. cbn [blocks set_lastBlock
        set_lastConfirmedBlock]. by rewrite lookup_empty.
    + intros k x. cbn [blocks]. by rewrite lookup_empty.
  - by intros m c.
  - intros fuel now call.
    set (Rel := fun c c' : Client => store_keyed c -> store_keyed c').
    assert (forall c, Rel c c) as Hrefl by (unfold Rel; auto).
    assert (forall c1 c2 c3, Rel c1 c2 -> Rel c2 c3 -> Rel c1 c3) as Htrans
      by (unfold Rel; auto).
    assert (forall b c, Rel c (Node.store_block b c)) as Hstore
      by (intros b c; exact (store_keyed_insert b c)).
    apply (assigned_run Rel Hrefl Htrans); try (unfold Rel; by auto);
      exact Hstore.
Qed.

Lemma reachable_last_confirmed c :
  Node.reachable c -> (is_Some (lastBlock c) <-> is_Some (lastConfirmedBlock c)).
Proof.
  revert c. apply reachable_steps.
  - intros name_ kp [g|]; unfold Node.Client_new, Node.setGenesisBlock;
      cbn [lastBlock]; cbn; split; intros [? ?]; by eauto.
  - by intros m c.
  - intros fuel now call.
    set (P := fun c : Client => is_Some (lastBlock c) <-> is_Some (lastConfirmedBlock c)).
    set (Rel := fun c c' : Client => P c -> P c').
    assert (forall c, Rel c c) as Hrefl by (unfold Rel; auto).
    assert (forall c1 c2 c3, Rel c1 c2 -> Rel c2 c3 -> Rel c1 c3) as Htrans
      by (unfold Rel; auto).
    assert (forall fuel, steps Rel (Node.setLastConfirmed fuel)) as Hconfirm.
    { intros fuel' c. unfold Node.setLastConfirmed, bind, get.
      destruct (lastBlock c) as [last|] eqn:Hlast; [|apply Hrefl].
      match goal with
      | |- context [Node.walk_back ?f ?s ?x ?h ?st] =>
          pose proof (walk_back_same_state f s x h st) as Hw;
          destruct (Node.walk_back f s x h st) as [a c'|e c'|]
      end; [subst c'|subst c'; apply Hrefl|exact I].
      intros _. unfold P, modify. cbn. rewrite Hlast. split; by eauto. }
    apply (chain_run Rel Hrefl Htrans); try (unfold Rel; by auto);
      try exact Hconfirm.
    + intros g c. unfold Node.setGenesisBlock.
      destruct (lastBlock c); [apply Hrefl|].
      intros _. unfold P. cbn. split; by eauto.
    + intros fuel' b c. unfold Node.choose_fork, bind, get.
      destruct (lastBlock c) as [last|] eqn:Hlast; [|apply Hrefl].
      destruct (chainLength last <? chainLength b); [|apply Hrefl].
      unfold modify.
      pose proof (Hconfirm fuel' (set_lastBlock (Some b) c)) as H.
      assert (P c -> P (set_lastBlock (Some b) c)) as Hset.
      { unfold P. cbn. rewrite Hlast. intros [Hc _]. split; by eauto. }
      destruct (Node.setLastConfirmed fuel' (set_lastBlock (Some b) c));
        [| |exact I]; intros Hc; by apply H, Hset.
Qed.

(** In every state of a node, client or miner: its address is the address
    of its public key, and it has a confirmed block exactly when it has a
    last block.  In every state of a client that is no miner, every block
    of the store is stored under its id. *)
Theorem reachable_node_invariants (c : Client) :
  Node.reachable c ->
  c_address c = Utils.calcAddress (kp_public (keyPair c))
  /\ (is_Some (lastBlock c) <-> is_Some (lastConfirmedBlock c))
  /\ (miner c = None -> store_keyed c).
Proof.
  intros Hc. split; [by apply reachable_address|].
  split; [by apply reachable_last_confirmed|].
  intros _. by apply reachable_store_keyed.
Qed.

(** No method makes the last block of a node shorter or takes it away,
    whether the call returns or throws. *)
Theorem lastBlock_never_shorter fuel now call c :
  match Node.run fuel now call c with
  | Returned _ c' | Thrown _ c' => grows c c'
  | OutOfFuel => True
  end.
Proof.
  assert (forall c, grows c c) as Hrefl.
  { intros c0 l Hl. exists l. split; [done|lia]. }
  assert (forall c1 c2 c3, grows c1 c2 -> grows c2 c3 -> grows c1 c3) as Htrans.
  { intros c1 c2 c3 H12 H23 l Hl. destruct (H12 l Hl) as (l2 & Hl2 & Hle).
    destruct (H23 l2 Hl2) as (l3 & Hl3 & Hle'). exists l3. split; [done|lia]. }
  assert (forall fuel, steps grows (Node.setLastConfirmed fuel)) as Hconfirm.
  { intros fuel' c0. unfold Node.setLastConfirmed, bind, get.
    destruct (lastBlock c0) as [last|] eqn:Hlast; [|apply Hrefl].
    match goal with
    | |- context [Node.walk_back ?f ?s ?x ?h ?st] =>
        pose proof (walk_back_same_state f s x h st) as Hw;
        destruct (Node.walk_back f s x h st) as [a c'|e c'|]
    end; [subst c'|subst c'; apply Hrefl|exact I].
    unfold modify. intros l Hl. exists l. cbn. split; [done|lia]. }
  apply (chain_run grows Hrefl Htrans);
    try (intros; intros l Hl; exists l; cbn; split; [done|lia]);
    try exact Hconfirm.
  - intros g c0. unfold Node.setGenesisBlock.
    destruct (lastBlock c0) eqn:Hlast; [apply Hrefl|].
    intros l Hl. congruence.
  - intros fuel' b c0. unfold Node.choose_fork, bind, get.
    destruct (lastBlock c0) as [last|] eqn:Hlast; [|apply Hrefl].
    destruct (chainLength last <? chainLength b) eqn:Hlt; [|apply Hrefl].
    apply Z.ltb_lt in Hlt. unfold modify.
    pose proof (Hconfirm fuel' (set_lastBlock (Some b) c0)) as H.
    destruct (Node.setLastConfirmed fuel' (set_lastBlock (Some b) c0));
      [| |exact I]; intros l Hl; assert (l = last) as -> by congruence;
      (destruct (H b eq_refl) as (l' & Hl' & Hle); exists l'; split; [done|lia]).
Qed.

End Invariants.

(** ** From a posted transaction to a block *)

Section Posting.
Context {R : Runtime}.

Lemma addTransaction_admits b tx balance :
  assoc_get (Transaction.id tx) (transactions b) = None ->
  Transaction.validSignature tx = true ->
  balances b !! tx_from tx = Some balance ->
  Transaction.totalOutput tx <= balance ->
  tx_nonce tx = get_or_0 (nextNonce b) (tx_from tx) ->
  snd (Block.addTransaction b tx) = true.
Proof.
  intros Hnew Hvalid Hbal Hle Hnonce. unfold Block.addTransaction.
  rewrite bool_decide_eq_false_2 by (rewrite Hnew; by intros [? ?]).
  rewrite bool_decide_eq_false_2.
  2:{ intros Hsig. unfold Transaction.validSignature in Hvalid.
      by rewrite Hsig in Hvalid. }
  rewrite Hvalid. cbn [negb].
  unfold Transaction.sufficientFunds. rewrite Hbal.
  replace (Transaction.totalOutput tx <=? balance) with true
    by (symmetry; by apply Z.leb_le).
  cbn [negb]. rewrite <- Hnonce, Z.ltb_irrefl, Z.gtb_ltb, Z.ltb_irrefl.
  reflexivity.
Qed.

(** A node whose public key [crypto] reads, and verifies what the private
    key signs, posts transactions that blocks admit.  For a fee and
    amounts that are not negative and that the node's available gold
    covers, [postTransaction] returns, and the message it has handed to
    the network last is the broadcast of a transaction with a valid
    signature; a block that does not hold that transaction yet, in which
    the node's balance is a safe integer that covers the fee and the
    amounts, and which expects the node's nonce, admits it. *)
Theorem posted_transaction_admitted (c : Client) (confirmed b : Block)
    (outputs : Outputs) (fee balance : Z) :
  Node.reachable c ->
  rsa_key (kp_public (keyPair c)) = true ->
  (forall m, rsa_verify (kp_public (keyPair c)) m
               (rsa_sign (kp_private (keyPair c)) m) = true) ->
  lastConfirmedBlock c = Some confirmed ->
  0 <= fee ->
  Forall (fun o => 0 <= amount o) outputs ->
  sums_exactly (Block.balanceOf confirmed (c_address c)) [- pendingSpent c] ->
  sums_exactly (nonce c) [1] ->
  safe_integer balance ->
  let total := fee + fold_right Z.add 0 (map amount outputs) in
  total <= Block.balanceOf confirmed (c_address c) - pendingSpent c ->
  balances b !! c_address c = Some balance ->
  total <= balance ->
  get_or_0 (nextNonce b) (c_address c) = nonce c ->
  exists tx c',
    Node.postTransaction outputs fee c = Returned tt c'
    /\ net c' = net c ++ [Broadcast POST_TRANSACTION (PTransaction tx)]
    /\ tx_from tx = c_address c
    /\ tx_outputs tx = outputs
    /\ tx_fee tx = fee
    /\ Transaction.validSignature tx = true
    /\ (assoc_get (Transaction.id tx) (transactions b) = None ->
        snd (Block.addTransaction b tx) = true).
Proof.
  intros Hreach _ Hkeys Hconf Hfee Hamounts _ _ Hsafe total Hfunds Hbal Hle Hnonce.
  set (tx := Transaction.sign (kp_private (keyPair c))
               {| tx_from := c_address c; tx_nonce := nonce c;
                  tx_pubKey := kp_public (keyPair c); tx_sig := None;
                  tx_fee := fee; tx_outputs := outputs |}).
  assert (Transaction.validSignature tx = true) as Hvalid.
  { unfold Transaction.validSignature, tx, Transaction.sign, Transaction.set_sig.
    cbn [tx_sig tx_from tx_pubKey]. apply andb_true_intro. split.
    - apply bool_decide_eq_true_2. by apply reachable_address.
    - apply Hkeys. }
  assert (Forall (fun x => 0 <= x) (map amount outputs)) as Hpos
    by (apply Forall_map; exact Hamounts).
  assert (total <= MAX_SAFE_INTEGER) as Hmax
    by (unfold safe_integer in Hsafe; lia).
  assert (sums_exactly 0 (map amount outputs ++ [fee])) as Hposted.
  { apply sums_exactly_bounded; [lia| |].
    - apply Forall_app. split; [exact Hpos|]. by apply Forall_singleton.
    - rewrite fold_right_app. cbn [fold_right].
      replace (fee + 0) with fee by lia.
      assert (forall a, fold_right Z.add a (map amount outputs)
                        = a + fold_right Z.add 0 (map amount outputs)) as H.
      { clear. intros a. induction (map amount outputs) as [|x xs IH]; cbn; lia. }
      rewrite H. subst total. lia. }
  assert (sums_exactly fee (map amount outputs)) as Hadmitted
    by (apply sums_exactly_bounded; [exact Hfee|exact Hpos|exact Hmax]).
  subst total. rewrite <- (total_payments outputs fee Hposted) in Hfunds.
  exists tx. eexists.
  split; [exact (postTransaction_returns c confirmed outputs fee Hconf Hfunds)|].
  split; [reflexivity|]. split; [reflexivity|]. split; [reflexivity|].
  split; [reflexivity|]. split; [exact Hvalid|].
  intros Hnew.
  apply (addTransaction_admits b tx balance); try done.
  rewrite totalOutput_sum by exact Hadmitted. exact Hle.
Qed.

End Posting.

(** ** Gold *)

Section Gold.
Context {R : Runtime}.

Lemma total_gold_insert_fresh (m : Balances) k v :
  m !! k = None -> total_gold (<[k := v]> m) = v + total_gold m.
Proof.
  intros Hk. unfold total_gold.
  rewrite map_fold_insert_L; [done| |done]. intros. lia.
Qed.

Lemma total_gold_insert (m : Balances) k v :
  total_gold (<[k := v]> m) = total_gold m - get_or_0 m k + v.
Proof.
  unfold get_or_0. destruct (m !! k) as [x|] eqn:Hk; cbn [default from_option id].
  - rewrite <- insert_delete_eq.
    rewrite total_gold_insert_fresh by apply lookup_delete_eq.
    rewrite <- (insert_delete_id m k x Hk) at 2.
    rewrite total_gold_insert_fresh by apply lookup_delete_eq. lia.
  - rewrite total_gold_insert_fresh by done. lia.
Qed.

Lemma total_gold_credit outputs (m : Balances) :
  total_gold (fold_left Block.credit outputs m)
  = total_gold m + fold_right Z.add 0 (map amount outputs).
Proof.
  revert m. induction outputs as [|o os IH]; intros m; cbn [fold_left map fold_right].
  - lia.
  - rewrite IH. unfold Block.credit. rewrite total_gold_insert. lia.
Qed.

Lemma balance_credit outputs (m : Balances) addr :
  get_or_0 (fold_left Block.credit outputs m) addr
  = get_or_0 m addr + received addr outputs.
Proof.
  revert m. induction outputs as [|o os IH]; intros m;
    cbn [fold_left received fold_right].
  - lia.
  - rewrite IH. fold (received addr os). unfold Block.credit.
    rewrite get_or_0_insert. case_bool_decide as Ha; [subst addr|]; lia.
Qed.

Lemma solvent_credit outputs (m : Balances) :
  solvent m -> Forall (fun o => 0 <= amount o) outputs ->
  solvent (fold_left Block.credit outputs m).
Proof.
  intros Hm Hpos. revert m Hm.
  induction Hpos as [|o os Ho _ IH]; intros m Hm; cbn [fold_left]; [done|].
  apply IH. unfold Block.credit. apply map_Forall_insert_2; [|done].
  unfold get_or_0. destruct (m !! address o) as [x|] eqn:Hx;
    cbn [default from_option id]; [|lia].
  pose proof (Hm _ _ Hx). cbn in *. lia.
Qed.

Lemma total_gold_nonneg (m : Balances) : solvent m -> 0 <= total_gold m.
Proof.
  induction m as [|k v m Hk IH] using map_ind; intros Hm.
  - unfold total_gold. rewrite map_fold_empty. lia.
  - rewrite total_gold_insert_fresh by exact Hk.
    apply map_Forall_insert in Hm as [Hv Hm]; [|exact Hk].
    specialize (IH Hm). cbn in Hv. lia.
Qed.

Lemma solvent_balance_bound (m : Balances) k v :
  solvent m -> m !! k = Some v -> 0 <= v <= total_gold m.
Proof.
  intros Hm Hk. split; [exact (Hm _ _ Hk)|].
  rewrite <- (insert_delete_id m k v Hk).
  rewrite total_gold_insert_fresh by apply lookup_delete_eq.
  assert (solvent (delete k m)) as Hrest by (by apply map_Forall_delete).
  pose proof (total_gold_nonneg _ Hrest). lia.
Qed.

(** The total of a transaction that an exact ledger covers is exact. *)
Lemma admitted_sums_exactly b tx :
  exact_ledger (balances b) -> pays_forward tx ->
  Transaction.sufficientFunds tx (balances b) = true ->
  sums_exactly (tx_fee tx) (map amount (tx_outputs tx)).
Proof.
  intros [Hsolvent Hmax] [Hfee Hpos] Hfunds.
  unfold Transaction.sufficientFunds in Hfunds.
  destruct (balances b !! tx_from tx) as [balance|] eqn:Hbal; [|discriminate].
  apply Z.leb_le in Hfunds.
  pose proof (solvent_balance_bound _ _ _ Hsolvent Hbal) as Hbound.
  apply sum_bounded; [exact Hfee|exact Hpos|].
  unfold Transaction.totalOutput in Hfunds. lia.
Qed.

(** In a ledger that owes no gold and holds a safe integer of it, a
    transaction with no negative fee or amount that is admitted moves gold
    as it says: the balance of every address grows by what the outputs pay
    to it, and the sender's is lowered by the fee and all the amounts. *)
Theorem addTransaction_transfers (b b' : Block) (tx : Transaction) (addr : string) :
  exact_ledger (balances b) ->
  pays_forward tx ->
  Block.addTransaction b tx = (b', true) ->
  Block.balanceOf b' addr
  = Block.balanceOf b addr + received addr (tx_outputs tx)
    - (if bool_decide (addr = tx_from tx) then Transaction.totalOutput tx else 0).
Proof.
  intros _ _ Hadd.
  apply addTransaction_true in Hadd as (_ & _ & _ & _ & _ & _ & Hbal).
  unfold Block.balanceOf. rewrite Hbal, balance_credit, get_or_0_insert.
  repeat case_bool_decide; subst; try done; lia.
Qed.

(** There, an admitted transaction takes its fee, and nothing else, out
    of the gold of the block. *)
Theorem addTransaction_burns_fee (b b' : Block) (tx : Transaction) :
  exact_ledger (balances b) ->
  pays_forward tx ->
  Block.addTransaction b tx = (b', true) ->
  total_gold (balances b') = total_gold (balances b) - tx_fee tx.
Proof.
  intros Hledger Hpays Hadd.
  apply addTransaction_true in Hadd as (_ & _ & Hfunds & _ & _ & _ & Hbal).
  rewrite Hbal, total_gold_credit, total_gold_insert.
  rewrite (totalOutput_sum tx (admitted_sums_exactly b tx Hledger Hpays Hfunds)).
  lia.
Qed.

(** Where no address owes gold and no output has a negative amount, no
    address owes gold after [addTransaction], admitted or refused. *)
Theorem addTransaction_keeps_solvent (b : Block) (tx : Transaction) :
  solvent (balances b) ->
  Forall (fun o => 0 <= amount o) (tx_outputs tx) ->
  solvent (balances (fst (Block.addTransaction b tx))).
Proof.
  intros Hb Hpos.
  destruct (Block.addTransaction b tx) as [b' [|]] eqn:Hadd; cbn [fst].
  - apply addTransaction_true in Hadd as (_ & _ & Hfunds & _ & _ & _ & Hbal).
    rewrite Hbal. apply solvent_credit; [|done].
    apply map_Forall_insert_2; [|done].
    unfold Transaction.sufficientFunds in Hfunds. unfold get_or_0.
    destruct (balances b !! tx_from tx) as [balance|]; [|discriminate].
    cbn [default from_option id]. apply Z.leb_le in Hfunds. lia.
  - by rewrite (addTransaction_false b tx b' Hadd).
Qed.

Lemma addTransaction_reward_fields b tx :
  coinbaseReward (fst (Block.addTransaction b tx)) = coinbaseReward b
  /\ rewardAddr (fst (Block.addTransaction b tx)) = rewardAddr b.
Proof.
  unfold Block.addTransaction.
  repeat (case_bool_decide || case_match); split; reflexivity.
Qed.

Lemma readd_gold txs b b' :
  exact_ledger (balances b) ->
  Forall pays_forward txs ->
  Block.readd b txs = (b', true) ->
  total_gold (balances b')
  = total_gold (balances b) - fold_right Z.add 0 (map tx_fee txs)
  /\ coinbaseReward b' = coinbaseReward b
  /\ rewardAddr b' = rewardAddr b.
Proof.
  intros Hledger Hpays. revert b Hledger.
  induction Hpays as [|tx txs Hpay _ IH]; intros b Hledger;
    cbn [Block.readd map fold_right].
  - intros [= <-]. repeat split. lia.
  - destruct (Block.addTransaction b tx) as [b1 [|]] eqn:E;
      [|intros [= _ ?]; discriminate].
    intros H.
    pose proof (addTransaction_reward_fields b tx) as [Hc1 Hr1].
    rewrite E in Hc1, Hr1. cbn [fst] in Hc1, Hr1.
    apply addTransaction_true in E as (_ & _ & Hfunds & _ & _ & _ & Hbal).
    assert (total_gold (balances b1) = total_gold (balances b) - tx_fee tx)
      as Hstep.
    { rewrite Hbal, total_gold_credit, total_gold_insert.
      rewrite (totalOutput_sum tx (admitted_sums_exactly b tx Hledger Hpay Hfunds)).
      lia. }
    assert (exact_ledger (balances b1)) as Hledger1.
    { destruct Hledger as [Hsolvent Hmax]. destruct Hpay as [Hfee Hpos]. split.
      - rewrite Hbal. apply solvent_credit; [|exact Hpos].
        apply map_Forall_insert_2; [|exact Hsolvent].
        unfold Transaction.sufficientFunds in Hfunds. unfold get_or_0.
        destruct (balances b !! tx_from tx) as [balance|]; [|discriminate].
        cbn [default from_option id]. apply Z.leb_le in Hfunds. lia.
      - rewrite Hstep. lia. }
    apply (IH b1 Hledger1) in H as (Hg & Hc & Hr).
    repeat split; [lia|congruence|congruence].
Qed.

Lemma totalRewards_fees b :
  Block.totalRewards b
  = coinbaseReward b + fold_right Z.add 0 (map (fun e => tx_fee (snd e)) (transactions b)).
Proof.
  unfold Block.totalRewards. generalize (coinbaseReward b).
  induction (transactions b) as [|e es IH]; intros z; cbn [fold_left map fold_right].
  - lia.
  - rewrite IH. lia.
Qed.

(** The fees that a block takes go, with its coinbase reward, to its
    reward address in the next block.  Take a block that starts empty with
    a ledger that owes no gold, a coinbase reward that is not negative and
    a safe integer of gold once the reward is counted in, and that admits
    in turn transactions with no negative fee or amount.  A block
    constructed on it holds the gold it started with and its coinbase
    reward.  On a parent with the empty reward address nothing is paid,
    and the child holds what the parent started with less the fees. *)
Theorem child_holds_parent_gold_and_coinbase
    (p0 p : Block) (txs : list Transaction) (now : Z) (addr : string) (tgt rew : Z) :
  solvent (balances p0) ->
  0 <= coinbaseReward p0 ->
  total_gold (balances p0) + coinbaseReward p0 <= MAX_SAFE_INTEGER ->
  Forall pays_forward txs ->
  transactions p0 = [] ->
  Block.readd p0 txs = (p, true) ->
  total_gold (balances (Block.new now addr (Some p) tgt rew))
  = if bool_decide (rewardAddr p0 = "")
    then total_gold (balances p0) - fold_right Z.add 0 (map tx_fee txs)
    else total_gold (balances p0) + coinbaseReward p0.
Proof.
  intros Hsolvent Hreward Hmax Hpays Hempty Hbuilt.
  pose proof (readd_transactions txs p0 p Hbuilt) as Htxs.
  rewrite Hempty in Htxs. cbn [app] in Htxs.
  assert (exact_ledger (balances p0)) as Hledger by (split; [exact Hsolvent|lia]).
  destruct (readd_gold txs p0 p Hledger Hpays Hbuilt) as (Hg & Hc & Hr).
  unfold Block.new. cbn [balances]. rewrite Hr.
  case_bool_decide as Hra; [exact Hg|].
  rewrite total_gold_insert, totalRewards_fees, Htxs, map_map, Hc, Hg.
  change (fun x : Transaction => tx_fee (snd (Transaction.id x, x))) with tx_fee.
  lia.
Qed.

End Gold.

(** ** A block sent and replayed *)

Section Restore.
Context {R : Runtime}.

Lemma assoc_get_None_keys {A} k (m : list (string * A)) :
  assoc_get k m = None -> k ∉ map fst m.
Proof.
  induction m as [|[k' v] m IH]; cbn [assoc_get map fst].
  - intros _. apply not_elem_of_nil.
  - destruct (String.eqb k' k) eqn:E; [discriminate|].
    intros Hm. apply not_elem_of_cons. split; [|by apply IH].
    intros ->. by rewrite String.eqb_refl in E.
Qed.

Lemma readd_keys_NoDup txs b b' :
  Block.readd b txs = (b', true) ->
  NoDup (map fst (transactions b)) -> NoDup (map fst (transactions b')).
Proof.
  revert b. induction txs as [|tx txs IH]; intros b; cbn [Block.readd].
  - by intros [= <-].
  - destruct (Block.addTransaction b tx) as [b1 [|]] eqn:E;
      [|intros [= _ ?]; discriminate].
    intros H Hnd. apply (IH b1 H).
    apply addTransaction_true in E as (Habs & _ & _ & _ & -> & _).
    rewrite (assoc_set_absent _ _ _ Habs), map_app. cbn [map fst].
    apply NoDup_app. split; [done|]. split; [|apply NoDup_singleton].
    intros k Hk ->%list_elem_of_singleton.
    by apply (assoc_get_None_keys _ _ Habs).
Qed.

Lemma addTransaction_set_proof pf b tx :
  Block.addTransaction (set_proof pf b) tx
  = (set_proof pf (fst (Block.addTransaction b tx)), snd (Block.addTransaction b tx)).
Proof.
  unfold Block.addTransaction. cbn [set_proof transactions balances nextNonce].
  repeat (case_bool_decide || case_match); reflexivity.
Qed.

Lemma readd_set_proof pf txs b :
  Block.readd (set_proof pf b) txs
  = (set_proof pf (fst (Block.readd b txs)), snd (Block.readd b txs)).
Proof.
  revert b. induction txs as [|tx txs IH]; intros b; cbn [Block.readd]; [done|].
  rewrite addTransaction_set_proof.
  destruct (Block.addTransaction b tx) as [b1 [|]]; cbn [fst snd]; [apply IH|done].
Qed.


Lemma addTransaction_frame b tx :
  let b' := fst (Block.addTransaction b tx) in
  target b' = target b /\ coinbaseReward b' = coinbaseReward b
  /\ same_header b b'.
Proof.
  cbv zeta. unfold Block.addTransaction, same_header.
  repeat (case_bool_decide || case_match); cbn; done.
Qed.

Lemma readd_frame txs b :
  let b' := fst (Block.readd b txs) in
  target b' = target b /\ coinbaseReward b' = coinbaseReward b
  /\ same_header b b'.
Proof.
  cbv zeta. revert b. induction txs as [|tx txs IH]; intros b; cbn [Block.readd].
  - by repeat split.
  - pose proof (addTransaction_frame b tx) as H1. cbv zeta in H1.
    destruct (Block.addTransaction b tx) as [b1 [|]]; cbn [fst] in *; [|done].
    specialize (IH b1). unfold same_header in *.
    destruct H1 as (T1 & C1 & E1 & E2 & E3 & E4 & E5).
    destruct IH as (T2 & C2 & F1 & F2 & F3 & F4 & F5).
    repeat split; congruence.
Qed.

(** Replaying a block that [rerun] has accepted on the same parent gives
    the same block again. *)
Theorem rerun_twice_is_rerun_once (b parent b' : Block) :
  Block.rerun b parent = (b', true) ->
  Block.rerun b' parent = (b', true).
Proof.
  intros Hrun. rewrite rerun_unfold in Hrun.
  pose proof (readd_transactions _ _ _ Hrun) as Htxs. cbn [app] in Htxs.
  change (transactions (rerun_start b parent)) with (@nil (string * Transaction))
    in Htxs.
  cbn [app] in Htxs.
  pose proof (readd_frame (map snd (transactions b)) (rerun_start b parent)) as Hf.
  cbv zeta in Hf. rewrite Hrun in Hf. cbn [fst] in Hf.
  destruct Hf as (T & C & H1 & H2 & H3 & H4 & H5).
  rewrite rerun_unfold.
  assert (rerun_start b' parent = rerun_start b parent) as ->.
  { unfold rerun_start, set_nextNonce, set_balances, set_transactions in *.
    cbn [chainLength prevBlockHash proof timestamp target coinbaseReward
         rewardAddr transactions balances nextNonce] in *.
    by rewrite T, C, H1, H2, H3, H4, H5. }
  rewrite Htxs, map_map. cbn [snd]. rewrite map_id. exact Hrun.
Qed.

End Restore.

(** ** Ids and addresses *)

Section Formats.
Context {R : Runtime}.

Lemma hex_encode_length bs : length (hex_encode bs) = (2 * length bs)%nat.
Proof.
  unfold hex_encode. induction bs as [|b bs IH]; cbn [flat_map length]; [done|].
  rewrite length_app, IH. cbn [hex_of_byte length]. lia.
Qed.

Lemma base64_encode_length k bs :
  length bs = (3 * k + 2)%nat -> length (base64_encode bs) = (4 * k + 4)%nat.
Proof.
  revert bs. induction k as [|k IH]; intros bs Hlen.
  - destruct bs as [|a [|b [|c rest]]]; try discriminate. reflexivity.
  - destruct bs as [|a [|b [|c rest]]]; try (cbn in Hlen; lia).
    cbn [base64_encode length]. rewrite (IH rest); [lia|].
    cbn [length] in Hlen. lia.
Qed.

(** The id of a block is 64 characters and an address is 44, whatever is
    hashed.  So a block that the constructor makes on a parent is never a
    genesis block, and a block it makes without a parent always is. *)
Theorem constructed_genesis_iff_parentless (now : Z) (addr : string)
    (prevBlock : option Block) (tgt rew : Z) (b : Block) (key : Key) :
  String.length (Block.id b) = 64%nat
  /\ String.length (Utils.calcAddress key) = 44%nat
  /\ Block.isGenesisBlock (Block.new now addr prevBlock tgt rew)
     = match prevBlock with None => true | Some _ => false end.
Proof.
  assert (forall s, String.length (text s) = length s) as Htext.
  { intros s. unfold text. induction s as [|c s IH]; cbn; [done|]. by rewrite IH. }
  assert (forall x, String.length (Block.id x) = 64%nat) as Hid.
  { intros x. unfold Block.id, Block.hashVal, Utils.hash.
    rewrite Htext, hex_encode_length, sha256_length. reflexivity. }
  split; [apply Hid|]. split.
  - unfold Utils.calcAddress, Utils.hash.
    rewrite Htext, (base64_encode_length 10); [reflexivity|apply sha256_length].
  - unfold Block.isGenesisBlock, Block.new. cbn [prevBlockHash].
    destruct prevBlock as [p|]; [|by apply bool_decide_eq_true_2].
    apply bool_decide_eq_false_2. intros Hempty.
    pose proof (Hid p) as Hlen. unfold Block.id in Hlen.
    rewrite Hempty in Hlen. discriminate.
Qed.

End Formats.

(** ** The genesis block *)

Section Genesis.
Context {R : Runtime}.

Lemma genesis_balances_lookup (m : list (Client * Z)) (bal : Balances) c v :
  NoDup (map (fun e => c_address (fst e)) m) ->
  (c, v) ∈ m ->
  fold_left (fun bal e => <[c_address (fst e) := snd e]> bal) m bal
    !! c_address c = Some v.
Proof.
  revert bal. induction m as [|[c0 v0] m IH]; intros bal Hnd Hin.
  - by apply elem_of_nil in Hin.
  - cbn [map fst] in Hnd. apply NoDup_cons in Hnd as [Hfresh Hnd].
    cbn [fold_left fst snd]. apply elem_of_cons in Hin as [[= -> ->]|Hin].
    + clear IH Hnd. revert bal.
      induction m as [|[c1 v1] m IH]; intros bal; cbn [fold_left fst snd].
      * apply lookup_insert_eq.
      * cbn [map fst] in Hfresh. apply not_elem_of_cons in Hfresh as [Hne Hfresh].
        rewrite insert_insert_ne by done. by apply IH.
    + by apply IH.
Qed.

Lemma genesis_balances_total (m : list (Client * Z)) (bal : Balances) :
  NoDup (map (fun e => c_address (fst e)) m) ->
  (forall e, e ∈ m -> bal !! c_address (fst e) = None) ->
  total_gold (fold_left (fun bal e => <[c_address (fst e) := snd e]> bal) m bal)
  = total_gold bal + fold_right Z.add 0 (map snd m).
Proof.
  revert bal. induction m as [|[c0 v0] m IH]; intros bal Hnd Hfresh;
    cbn [fold_left map fold_right fst snd]; [lia|].
  cbn [map fst] in Hnd. apply NoDup_cons in Hnd as [Hc0 Hnd].
  rewrite IH; [|done|].
  - rewrite total_gold_insert_fresh; [lia|].
    apply (Hfresh (c0, v0)). by left.
  - intros e He. rewrite lookup_insert_ne.
    + apply Hfresh. by right.
    + intros Heq. apply Hc0. rewrite Heq.
      apply (list_elem_of_fmap_2 (fun e => c_address (fst e))). exact He.
Qed.

(** [makeGenesis] for clients with distinct addresses that have no block
    yet: the block is a genesis block that holds exactly the gold of the
    map, and each client gets it as its last and confirmed block, stores it
    under its id, and has the balance the map gives it as its confirmed
    balance. *)
Theorem makeGenesis_gives_each_client_its_gold (now : Z)
    (clientBalanceMap : list (Client * Z)) :
  NoDup (map (fun e => c_address (fst e)) clientBalanceMap) ->
  Forall (fun e => lastBlock (fst e) = None) clientBalanceMap ->
  let g := fst (Node.makeGenesis now clientBalanceMap) in
  Block.isGenesisBlock g = true
  /\ chainLength g = 0
  /\ total_gold (balances g) = fold_right Z.add 0 (map snd clientBalanceMap)
  /\ forall c v,
       (c, v) ∈ clientBalanceMap ->
       exists c',
         Node.setGenesisBlock g c = Returned tt c'
         /\ Returned tt c' ∈ snd (Node.makeGenesis now clientBalanceMap)
         /\ lastBlock c' = Some g
         /\ lastConfirmedBlock c' = Some g
         /\ blocks c' !! Block.id g = Some g
         /\ Node.confirmedBalance c' = Returned v c'.
Proof.
  intros Hnd Hnone. cbv zeta.
  split; [reflexivity|]. split; [reflexivity|]. split.
  - unfold Node.makeGenesis. cbn [fst balances set_balances].
    rewrite genesis_balances_total; [done|done|].
    intros e _. apply lookup_empty.
  - intros c v Hin.
    assert (lastBlock c = None) as Hlast.
    { rewrite Forall_forall in Hnone. exact (Hnone (c, v) Hin). }
    set (g := fst (Node.makeGenesis now clientBalanceMap)).
    assert (exists c', Node.setGenesisBlock g c = Returned tt c'
                       /\ lastBlock c' = Some g /\ lastConfirmedBlock c' = Some g
                       /\ blocks c' !! Block.id g = Some g
                       /\ c_address c' = c_address c)
      as (c' & Hset & Hl & Hc & Hb & Ha).
    { unfold Node.setGenesisBlock. rewrite Hlast. eexists. split; [reflexivity|].
      cbn. split; [done|]. split; [done|]. split; [|done].
      apply lookup_insert_eq. }
    exists c'. split; [exact Hset|]. split.
    { unfold Node.makeGenesis. cbn [snd]. fold g. rewrite <- Hset.
      apply (list_elem_of_fmap_2 (fun e => Node.setGenesisBlock g (fst e)) _ (c, v)).
      exact Hin. }
    split; [exact Hl|]. split; [exact Hc|]. split; [exact Hb|].
    unfold Node.confirmedBalance. rewrite Hc, Ha. f_equal.
    unfold Block.balanceOf, get_or_0, g, Node.makeGenesis.
    cbn [fst balances set_balances].
    by rewrite (genesis_balances_lookup clientBalanceMap _ c v Hnd Hin).
Qed.

End Genesis.

(** ** Blocks that arrive before their parent *)

Section Orphans.
Context {R : Runtime}.
Local Open Scope node_scope.

(** A block with a valid proof whose parent the node does not store is
    not stored: it comes last among the blocks that wait for that parent,
    and [receiveBlock] returns [null], on a client and on a miner.  The
    request for the parent is broadcast for the first such block only, and
    the node is otherwise as before.  The block is one the node is given
    as text, or as an object that does not wait for that parent yet, and
    its numbers are written as they are. *)
Theorem orphan_waits_for_its_parent (fuel : nat) (now : Z) (c : Client)
    (input : Block + string) (b : Block) :
  incoming now input = Some b ->
  written_exactly b ->
  (forall given stuck,
     input = inl given ->
     pendingBlocks c !! prevBlockHash b = Some stuck -> b ∉ stuck) ->
  blocks c !! Block.id b = None ->
  Block.hasValidProof b = true ->
  blocks c !! prevBlockHash b = None ->
  let waiting := default [] (pendingBlocks c !! prevBlockHash b) in
  let request :=
    Broadcast MISSING_BLOCK
      (PString (Json.stringify (JObj [("from", JStr (c_address c));
                                      ("missing", JStr (prevBlockHash b))]))) in
  Node.receiveBlock (S fuel) now input c
  = Returned None
      {| name := name c; keyPair := keyPair c; c_address := c_address c;
         nonce := nonce c; pendingSpent := pendingSpent c; blocks := blocks c;
         pendingBlocks := <[prevBlockHash b := waiting ++ [b]]> (pendingBlocks c);
         lastConfirmedBlock := lastConfirmedBlock c; lastBlock := lastBlock c;
         net := net c ++ match pendingBlocks c !! prevBlockHash b with
                         | Some _ => []
                         | None => [request]
                         end;
         miner := miner c |}.
Proof.
  intros Hin _ _ Hnew Hvalid Hparent. cbv zeta.
  rewrite (receiveBlock_incoming (S fuel) now input b c Hin).
  assert (forall self,
            Node.Client_receiveBlock self fuel now (inl b) c
            = Returned None
      {| name := name c; keyPair := keyPair c; c_address := c_address c;
         nonce := nonce c; pendingSpent := pendingSpent c; blocks := blocks c;
         pendingBlocks :=
           <[prevBlockHash b := default [] (pendingBlocks c !! prevBlockHash b) ++ [b]]>
             (pendingBlocks c);
         lastConfirmedBlock := lastConfirmedBlock c; lastBlock := lastBlock c;
         net := net c ++ match pendingBlocks c !! prevBlockHash b with
                         | Some _ => []
                         | None =>
                             [Broadcast MISSING_BLOCK
                                (PString (Json.stringify
                                   (JObj [("from", JStr (c_address c));
                                          ("missing", JStr (prevBlockHash b))])))]
                         end;
         miner := miner c |}) as Hclient.
  { intros self. unfold Node.Client_receiveBlock. unfold bind at 1, get at 1.
    rewrite bool_decide_eq_false_2 by (rewrite Hnew; by intros [? ?]).
    rewrite Hvalid, Hparent. cbn [negb].
    destruct (pendingBlocks c !! prevBlockHash b); cbn.
    - rewrite app_nil_r. by destruct c.
    - reflexivity. }
  assert (miner c = None \/ exists m, miner c = Some m) as [Hm|[m Hm]]
    by (destruct (miner c); by eauto).
  - rewrite (receiveBlock_client fuel now (inl b) c Hm). apply Hclient.
  - rewrite (receiveBlock_miner fuel now (inl b) c m Hm).
    unfold Node.Miner_receiveBlock, bind. rewrite Hclient. reflexivity.
Qed.

Lemma settled_refl k c : settled k c c.
Proof. by intros Hk. Qed.

Lemma settled_trans k c1 c2 c3 : settled k c1 c2 -> settled k c2 c3 -> settled k c1 c3.
Proof.
  intros H12 H23 Hk. destruct (H12 Hk) as [Hk2 Hp2].
  destruct (H23 Hk2) as [Hk3 Hp3]. split; [done|auto].
Qed.

Lemma settled_same k c c' :
  blocks c' = blocks c -> pendingBlocks c' = pendingBlocks c -> settled k c c'.
Proof. intros Hb Hp Hk. by rewrite Hb, Hp. Qed.

Lemma settled_store k b c : settled k c (Node.store_block b c).
Proof.
  intros Hk. split; [|done]. unfold Node.store_block. cbn [blocks set_blocks].
  destruct (decide (Block.id b = k)) as [<-|Hne].
  - rewrite lookup_insert_eq. by eexists.
  - by rewrite lookup_insert_ne.
Qed.

Lemma settled_receiveBlock k fuel now input :
  steps (settled k) (Node.receiveBlock fuel now input).
Proof.
  assert (forall b c, settled k c (set_lastBlock (Some b) c)) as Hlast
    by (intros; by apply settled_same).
  assert (forall b c, settled k c (set_lastConfirmedBlock (Some b) c)) as Hconf
    by (intros; by apply settled_same).
  apply (steps_receiveBlock (settled k) (settled_refl k) (settled_trans k)).
  - intros; by apply settled_same.
  - intros b us c Hparent Hk. split; [done|].
    cbn [pendingBlocks set_pendingBlocks].
    rewrite lookup_insert_ne; [done|]. intros Heq. rewrite Heq in Hparent.
    rewrite Hparent in Hk. by destruct Hk.
  - intros k' c Hk. split; [done|]. cbn [pendingBlocks set_pendingBlocks].
    intros Hnone. rewrite lookup_delete. by case_decide.
  - apply settled_store.
  - apply chain_startNewSearch; [apply settled_refl|].
    intros; by apply settled_same.
  - apply assigned_choose_fork;
      first [exact (settled_refl k)|exact (settled_trans k)|exact Hlast|exact Hconf].
Qed.

Lemma choose_fork_same_store fuel b c :
  match Node.choose_fork fuel b c with
  | Returned _ c' | Thrown _ c' =>
      blocks c' = blocks c /\ pendingBlocks c' = pendingBlocks c
  | OutOfFuel => True
  end.
Proof.
  apply (assigned_choose_fork
           (fun c c' => blocks c' = blocks c /\ pendingBlocks c' = pendingBlocks c)).
  - by intros c0.
  - intros c1 c2 c3 [H1 H2] [H3 H4]. split; congruence.
  - by intros b0 c0.
  - by intros b0 c0.
Qed.

(** What is known once the block under [k] is stored and released: in a
    final state it is stored and nothing waits for it; where the call has
    thrown it is stored. *)
Lemma released_bind {A B} k (m : M A) (f : A -> M B) c :
  match m c with
  | Returned _ c' => is_Some (blocks c' !! k) /\ pendingBlocks c' !! k = None
  | Thrown _ c' => is_Some (blocks c' !! k)
  | OutOfFuel => True
  end ->
  (forall a, steps (settled k) (f a)) ->
  match bind m f c with
  | Returned _ c' => is_Some (blocks c' !! k) /\ pendingBlocks c' !! k = None
  | Thrown _ c' => is_Some (blocks c' !! k)
  | OutOfFuel => True
  end.
Proof.
  intros Hm Hf. unfold bind. destruct (m c) as [a c1|e c1|]; [|done|done].
  destruct Hm as [Hk Hnone]. specialize (Hf a c1).
  destruct (f a c1) as [x c2|e c2|]; [| |done]; destruct (Hf Hk) as [Hk2 Hp2];
    [split; by auto|done].
Qed.

Lemma Client_receiveBlock_released self fuel now c b parent b' :
  (forall i, steps (settled (Block.id b')) (self i)) ->
  blocks c !! Block.id b = None ->
  Block.hasValidProof b = true ->
  blocks c !! prevBlockHash b = Some parent ->
  Block.rerun b parent = (b', true) ->
  match Node.Client_receiveBlock self fuel now (inl b) c with
  | Returned _ c' =>
      is_Some (blocks c' !! Block.id b') /\ pendingBlocks c' !! Block.id b' = None
  | Thrown _ c' => is_Some (blocks c' !! Block.id b')
  | OutOfFuel => True
  end.
Proof.
  intros Hself Hnew Hvalid Hparent Hrerun.
  rewrite (Client_receiveBlock_accept self fuel now c b parent b'
             Hnew Hvalid Hparent Hrerun).
  assert (is_Some (blocks (Node.store_block b' c) !! Block.id b')) as Hstored.
  { unfold Node.store_block. cbn [blocks set_blocks].
    rewrite lookup_insert_eq. by eexists. }
  unfold bind at 1.
  pose proof (choose_fork_same_store fuel b' (Node.store_block b' c)) as Hfork.
  destruct (Node.choose_fork fuel b' (Node.store_block b' c)) as [[] c1|e c1|];
    [|destruct Hfork as [-> _]; exact Hstored|exact I].
  destruct Hfork as [Hb1 _].
  apply released_bind; [|intros; apply steps_ret; apply settled_refl].
  unfold Node.release. unfold bind at 1, get at 1. cbv beta iota.
  unfold bind at 1, modify at 1. cbv beta iota.
  assert (forall u, steps (settled (Block.id b')) (self (inl u);;; ret tt)%node)
    as Hbody.
  { intros u. apply steps_bind; [apply settled_trans|apply Hself|].
    intros _. apply steps_ret. apply settled_refl. }
  pose proof (steps_for_each (settled (Block.id b')) (settled_refl _)
                (settled_trans _) _
                (default [] (pendingBlocks c1 !! Block.id b')) Hbody) as Hloop.
  match goal with
  | |- context [for_each ?f ?l ?st] =>
      specialize (Hloop st); destruct (for_each f l st) as [x c3|e c3|]
  end; [| |exact I].
  - destruct Hloop as [Hk3 Hp3];
      [cbn [blocks set_pendingBlocks]; by rewrite Hb1|].
    split; [exact Hk3|]. apply Hp3.
    cbn [pendingBlocks set_pendingBlocks]. apply lookup_delete_eq.
  - destruct Hloop as [Hk3 _];
      [cbn [blocks set_pendingBlocks]; by rewrite Hb1|exact Hk3].
Qed.

(** A block that [receiveBlock] accepts is in the store from then on, and
    when the call returns no block waits for it any more: the blocks that
    did were received in turn, and none can come to wait for a block that
    is stored.  Where the call throws, in the fork choice or while a
    waiting block is received, the accepted block is stored all the same. *)
Theorem accepted_block_is_stored_and_released (fuel : nat) (now : Z) (c : Client)
    (b parent b' : Block) :
  blocks c !! Block.id b = None ->
  Block.hasValidProof b = true ->
  blocks c !! prevBlockHash b = Some parent ->
  Block.rerun b parent = (b', true) ->
  match Node.receiveBlock fuel now (inl b) c with
  | Returned _ c' =>
      is_Some (blocks c' !! Block.id b') /\ pendingBlocks c' !! Block.id b' = None
  | Thrown _ c' => is_Some (blocks c' !! Block.id b')
  | OutOfFuel => True
  end.
Proof.
  intros Hnew Hvalid Hparent Hrerun.
  destruct fuel as [|fuel]; [exact I|]. cbn [Node.receiveBlock].
  pose proof (Client_receiveBlock_released (Node.receiveBlock fuel now) fuel now
                c b parent b' (settled_receiveBlock _ fuel now)
                Hnew Hvalid Hparent Hrerun) as Hclient.
  destruct (miner c) as [m|]; [|exact Hclient].
  unfold Node.Miner_receiveBlock. apply released_bind; [exact Hclient|].
  intros [x|]; [|apply steps_ret; apply settled_refl].
  apply steps_bind; [apply settled_trans|apply steps_get; apply settled_refl|].
  intros c0. destruct (miner c0) as [m0|]; [|apply steps_ret; apply settled_refl].
  apply steps_bind; [apply settled_trans| |].
  - destruct (chainLength x >? chainLength (currentBlock m0));
      [|apply steps_ret; apply settled_refl].
    apply chain_startNewSearch; [apply settled_refl|].
    intros; by apply settled_same.
  - intros _. apply steps_ret. apply settled_refl.
Qed.

End Orphans.

(** ** The search for a proof *)

Section Mining.
Context {R : Runtime}.
Local Open Scope node_scope.

Lemma set_proof_same b p : proof b = Some p -> set_proof (Some p) b = b.
Proof. destruct b. cbn. by intros ->. Qed.

Lemma set_miner_same c m : miner c = Some m -> set_miner (Some m) c = c.
Proof. destruct c. cbn. by intros ->. Qed.

(** A round of the loop on a proof that is not valid, and on one that is. *)
Lemma search_step fuel now rounds c m :
  miner c = Some m ->
  Block.hasValidProof (currentBlock m) = false ->
  Node.search fuel now (S rounds) c
  = Node.search fuel now rounds
      (set_miner (Some {| miningRounds := miningRounds m;
                          currentBlock :=
                            set_proof (option_map Z.succ (proof (currentBlock m)))
                                      (currentBlock m) |}) c).
Proof.
  intros Hm Hinvalid. cbn [Node.search]. unfold bind at 1, get at 1.
  rewrite Hm, Hinvalid. reflexivity.
Qed.

Lemma search_found fuel now rounds c m :
  miner c = Some m ->
  Block.hasValidProof (currentBlock m) = true ->
  Node.search fuel now (S rounds) c
  = (Node.announceProof ;;;
     Node.receiveBlock fuel now (inl (currentBlock m)) ;;;
     Node.startNewSearch now) c.
Proof.
  intros Hm Hvalid. cbn [Node.search]. unfold bind at 1, get at 1.
  rewrite Hm, Hvalid. reflexivity.
Qed.

Lemma search_skips fuel now k rounds c rounds_ cb p :
  miner c = Some {| miningRounds := rounds_; currentBlock := cb |} ->
  proof cb = Some p ->
  (forall i, (i < k)%nat ->
             Block.hasValidProof (set_proof (Some (p + Z.of_nat i)) cb) = false) ->
  Node.search fuel now (k + rounds) c
  = Node.search fuel now rounds
      (set_miner (Some {| miningRounds := rounds_;
                          currentBlock := set_proof (Some (p + Z.of_nat k)) cb |}) c).
Proof.
  revert c cb p. induction k as [|k IH]; intros c cb p Hm Hp Hinvalid.
  - cbn [Nat.add Z.of_nat]. rewrite Z.add_0_r, (set_proof_same cb p Hp).
    by rewrite (set_miner_same c _ Hm).
  - cbn [Nat.add].
    assert (Block.hasValidProof cb = false) as H0.
    { rewrite <- (set_proof_same cb p Hp), <- (Z.add_0_r p).
      apply (Hinvalid 0%nat). lia. }
    rewrite (search_step fuel now (k + rounds) c _ Hm H0).
    cbn [miningRounds currentBlock]. rewrite Hp. cbn [option_map].
    rewrite (IH _ (set_proof (Some (Z.succ p)) cb) (Z.succ p)); [|done|done|].
    + replace (Z.succ p + Z.of_nat k) with (p + Z.of_nat (S k)) by lia.
      reflexivity.
    + intros i Hi. specialize (Hinvalid (S i) ltac:(lia)).
      replace (Z.succ p + Z.of_nat i) with (p + Z.of_nat (S i)) by lia.
      exact Hinvalid.
Qed.

(** No method takes back a message handed to the network. *)
Lemma run_sends_more fuel now call :
  steps (fun c c' => net c `prefix_of` net c') (Node.run fuel now call).
Proof.
  apply assigned_run; try (by intros).
  - intros c1 c2 c3 H12 H23. by etrans.
  - intros e c. cbn. by apply prefix_app_r.
Qed.

(** The loop of [findProof], for a candidate whose numbers are written as
    they are and whose proof stays a safe integer as it is counted up.
    Where the candidate block has the proof [p] and none
    of the proofs [p], ..., [p + rounds - 1] is valid, the loop ends with
    the candidate at the proof [p + rounds], and the node is otherwise as
    before: nothing is broadcast.  Where the proofs [p], ..., [p + k - 1]
    are not valid and [p + k] is, with [k] less than the rounds of the
    loop, the first message that the node hands to the network is the
    broadcast, as PROOF_FOUND, of the text of the candidate with the proof
    [p + k], whether the call then returns or throws. *)
Theorem search_takes_the_first_valid_proof (fuel : nat) (now : Z) (rounds k : nat)
    (c : Client) (rounds_ : Z) (cb : Block) (p : Z) :
  miner c = Some {| miningRounds := rounds_; currentBlock := cb |} ->
  proof cb = Some p ->
  written_exactly cb ->
  safe_integer (p + Z.of_nat rounds) ->
  let candidate q :=
    {| chainLength := chainLength cb; prevBlockHash := prevBlockHash cb;
       proof := Some q; timestamp := timestamp cb; target := target cb;
       coinbaseReward := coinbaseReward cb; rewardAddr := rewardAddr cb;
       transactions := transactions cb; balances := balances cb;
       nextNonce := nextNonce cb |} in
  (forall i, (i < k)%nat ->
             Block.hasValidProof (candidate (p + Z.of_nat i)) = false) ->
  (k = rounds ->
   Node.search fuel now rounds c
   = Returned tt
       {| name := name c; keyPair := keyPair c; c_address := c_address c;
          nonce := nonce c; pendingSpent := pendingSpent c; blocks := blocks c;
          pendingBlocks := pendingBlocks c;
          lastConfirmedBlock := lastConfirmedBlock c; lastBlock := lastBlock c;
          net := net c;
          miner := Some {| miningRounds := rounds_;
                           currentBlock := candidate (p + Z.of_nat rounds) |} |})
  /\ ((k < rounds)%nat ->
      Block.hasValidProof (candidate (p + Z.of_nat k)) = true ->
      match Node.search fuel now rounds c with
      | Returned _ c' | Thrown _ c' =>
          (net c ++ [Broadcast PROOF_FOUND
                       (PString (Block.serialize (candidate (p + Z.of_nat k))))])
            `prefix_of` net c'
      | OutOfFuel => True
      end).
Proof.
  intros Hm Hp _ _ candidate Hinvalid.
  assert (forall q, candidate q = set_proof (Some q) cb) as Hcand by reflexivity.
  assert (forall i, (i < k)%nat ->
            Block.hasValidProof (set_proof (Some (p + Z.of_nat i)) cb) = false)
    as Hinvalid'.
  { intros i Hi. rewrite <- Hcand. by apply Hinvalid. }
  split.
  - intros <-.
    pose proof (search_skips fuel now k 0 c rounds_ cb p Hm Hp Hinvalid') as H.
    rewrite Nat.add_0_r in H. rewrite H. reflexivity.
  - intros Hlt Hvalid. rewrite Hcand in Hvalid.
    replace rounds with (k + S (rounds - S k))%nat by lia.
    rewrite (search_skips fuel now k _ c rounds_ cb p Hm Hp Hinvalid').
    rewrite (search_found fuel now _ _
               {| miningRounds := rounds_;
                  currentBlock := set_proof (Some (p + Z.of_nat k)) cb |});
      [|reflexivity|exact Hvalid].
    cbn [currentBlock]. rewrite Hcand.
    set (found := set_proof (Some (p + Z.of_nat k)) cb).
    unfold bind at 1. unfold Node.announceProof at 1, bind at 1, get at 1.
    cbn [miner set_miner currentBlock]. unfold modify at 1.
    match goal with
    | |- context [bind _ _ ?st] => set (announced := st)
    end.
    assert (net announced
            = net c ++ [Broadcast PROOF_FOUND (PString (Block.serialize found))])
      as Hnet by reflexivity.
    rewrite <- Hnet. clearbody announced.
    pose proof (run_sends_more fuel now (Node.CallReceiveBlock (inl found)) announced)
      as Hreceive.
    cbn [Node.run] in Hreceive. unfold bind in Hreceive |- *.
    destruct (Node.receiveBlock fuel now (inl found) announced) as [r c1|e c1|];
      [|exact Hreceive|exact I].
    unfold ret in Hreceive.
    pose proof (run_sends_more fuel now Node.CallStartNewSearch c1) as Hsearch.
    cbn [Node.run] in Hsearch.
    destruct (Node.startNewSearch now c1) as [x c2|e c2|]; [| |exact I];
      by etrans.
Qed.

End Mining.

(** ** The simulated network *)

Section FakeNetFacts.
Context {ClientRef : Type}.
Variable address : ClientRef -> string.

Lemma assoc_set_keys {A} k (v : A) m :
  map fst (assoc_set k v m)
  = if bool_decide (k ∈ map fst m) then map fst m else map fst m ++ [k].
Proof.
  induction m as [|[k' v'] m IH]; cbn [assoc_set map fst].
  - rewrite bool_decide_eq_false_2 by apply not_elem_of_nil. reflexivity.
  - destruct (String.eqb k' k) eqn:E.
    + apply String.eqb_eq in E as ->. cbn [map fst].
      rewrite bool_decide_eq_true_2 by (by left). reflexivity.
    + cbn [map fst]. rewrite IH.
      assert (k' <> k) as Hne by (intros ->; by rewrite String.eqb_refl in E).
      case_bool_decide as Hin.
      * rewrite bool_decide_eq_true_2 by (by right). reflexivity.
      * rewrite bool_decide_eq_false_2; [reflexivity|].
        intros [?|?]%elem_of_cons; [by subst|done].
Qed.

Lemma assoc_set_keys_NoDup {A} k (v : A) m :
  NoDup (map fst m) -> NoDup (map fst (assoc_set k v m)).
Proof.
  intros Hnd. rewrite assoc_set_keys. case_bool_decide as Hin; [done|].
  apply NoDup_app. split; [done|]. split; [|apply NoDup_singleton].
  intros x Hx ->%list_elem_of_singleton. done.
Qed.

Lemma assoc_get_NoDup {A} k (v : A) m :
  NoDup (map fst m) -> (k, v) ∈ m -> assoc_get k m = Some v.
Proof.
  induction m as [|[k' v'] m IH]; intros Hnd Hin.
  - by apply elem_of_nil in Hin.
  - cbn [map fst] in Hnd. apply NoDup_cons in Hnd as [Hfresh Hnd].
    cbn [assoc_get]. apply elem_of_cons in Hin as [[= <- <-]|Hin].
    + by rewrite String.eqb_refl.
    + destruct (String.eqb k' k) eqn:E; [|by apply IH].
      apply String.eqb_eq in E as ->. exfalso. apply Hfresh.
      apply (list_elem_of_fmap_2 fst _ (k, v)). exact Hin.
Qed.

Lemma register_clients_NoDup clientList (net : FakeNet.FakeNet) :
  NoDup (map fst (FakeNet.clients net)) ->
  NoDup (map fst (FakeNet.clients (FakeNet.register address clientList net))).
Proof.
  revert net. induction clientList as [|cl cls IH]; intros net Hnd; [done|].
  cbn [FakeNet.register fold_left]. apply IH. cbn [FakeNet.clients].
  by apply assoc_set_keys_NoDup.
Qed.

Lemma sendMessage_clients addr msg o (net net' : FakeNet.FakeNet (ClientRef:=ClientRef)) :
  FakeNet.sendMessage addr msg o net = FakeNet.Done net'
  \/ FakeNet.sendMessage addr msg o net = FakeNet.Threw net' ->
  FakeNet.clients net' = FakeNet.clients net.
Proof.
  unfold FakeNet.sendMessage. destruct (assoc_get addr (FakeNet.clients net));
    intros [[= <-]|[= <-]]; reflexivity.
Qed.

Lemma broadcast_to_clients addrs msg o (net net' : FakeNet.FakeNet (ClientRef:=ClientRef)) :
  FakeNet.broadcast_to addrs msg o net = FakeNet.Done net'
  \/ FakeNet.broadcast_to addrs msg o net = FakeNet.Threw net' ->
  FakeNet.clients net' = FakeNet.clients net.
Proof.
  revert net. induction addrs as [|a addrs IH]; intros net; cbn [FakeNet.broadcast_to].
  - intros [[= <-]|[=]]. reflexivity.
  - destruct (FakeNet.sendMessage a msg o net) as [net1|net1] eqn:E.
    + intros H. rewrite (IH net1 H). apply (sendMessage_clients a msg o). by left.
    + intros [[=]|[= <-]]. apply (sendMessage_clients a msg o). by right.
Qed.

Lemma reachable_clients_NoDup net :
  FakeNet.reachable address net -> NoDup (map fst (FakeNet.clients net)).
Proof.
  induction 1 as [|cls net _ IH|a msg o net net' _ IH Hs|msg o net net' _ IH Hb].
  - apply NoDup_nil_2.
  - by apply register_clients_NoDup.
  - by rewrite (sendMessage_clients a msg o net net' Hs).
  - by rewrite (broadcast_to_clients _ msg o net net' Hb).
Qed.

Lemma broadcast_to_all msg o (entries : list (string * ClientRef)) net :
  (forall e, e ∈ entries -> assoc_get (fst e) (FakeNet.clients net) = Some (snd e)) ->
  FakeNet.broadcast_to (map fst entries) msg o net
  = FakeNet.Done
      {| FakeNet.clients := FakeNet.clients net;
         FakeNet.scheduled :=
           FakeNet.scheduled net ++ map (fun e => (snd e, msg, o)) entries |}.
Proof.
  revert net. induction entries as [|[a cl] es IH]; intros net Hget;
    cbn [map fst FakeNet.broadcast_to].
  - rewrite app_nil_r. by destruct net.
  - pose proof (Hget (a, cl) ltac:(by left)) as Ha. cbn [fst snd] in Ha.
    unfold FakeNet.sendMessage. rewrite Ha. rewrite IH.
    + cbn [FakeNet.clients FakeNet.scheduled]. by rewrite <- app_assoc.
    + intros e He. cbn [FakeNet.clients]. apply Hget. by right.
Qed.

(** On a network made by [register], [sendMessage] and [broadcast],
    [broadcast] does not throw and schedules one delivery of the message
    for every registered address, to the client registered under it, in the
    order of the map; [sendMessage] to an address that is not registered
    throws and schedules nothing. *)
Theorem broadcast_reaches_every_client (net : FakeNet.FakeNet) (msg : string)
    (o : Payload) (addr : string) :
  FakeNet.reachable address net ->
  FakeNet.broadcast msg o net
  = FakeNet.Done
      {| FakeNet.clients := FakeNet.clients net;
         FakeNet.scheduled :=
           FakeNet.scheduled net
           ++ map (fun e => (snd e, msg, o)) (FakeNet.clients net) |}
  /\ NoDup (map fst (FakeNet.clients net))
  /\ (addr ∉ map fst (FakeNet.clients net) ->
      FakeNet.sendMessage addr msg o net = FakeNet.Threw net).
Proof.
  intros Hreach. pose proof (reachable_clients_NoDup net Hreach) as Hnd.
  split; [|split; [exact Hnd|]].
  - unfold FakeNet.broadcast. apply broadcast_to_all.
    intros [a cl] He. by apply assoc_get_NoDup.
  - intros Hnot. unfold FakeNet.sendMessage.
    destruct (assoc_get addr (FakeNet.clients net)) as [cl|] eqn:E; [|done].
    exfalso. apply Hnot. clear Hnot Hnd Hreach.
    induction (FakeNet.clients net) as [|[k v] m IH]; [discriminate|].
    cbn [assoc_get] in E. cbn [map fst].
    destruct (String.eqb k addr) eqn:Ek.
    + apply String.eqb_eq in Ek as ->. by left.
    + right. by apply IH.
Qed.

End FakeNetFacts.

(** ** Blocks received as text *)

Section WireReceive.
Context {R : Runtime}.
Local Open Scope node_scope.

Lemma rerun_wire_image b parent :
  target b = Block.HIT_POW_TARGET ->
  coinbaseReward b = COINBASE_AMT_ALLOWED ->
  Block.rerun (wire_image b) parent = Block.rerun b parent.
Proof.
  intros Ht Hc. rewrite !rerun_unfold.
  unfold rerun_start, wire_image, set_nextNonce, set_balances, set_transactions.
  cbn [chainLength prevBlockHash proof timestamp target coinbaseReward
       rewardAddr transactions balances nextNonce].
  by rewrite Ht, Hc.
Qed.


End WireReceive.

(** ** The block a miner works on *)

Section MinerFacts.
Context {R : Runtime}.
Local Open Scope node_scope.

Lemma addTransaction_keys b tx :
  well_keyed b -> NoDup (map fst (transactions b)) ->
  well_keyed (fst (Block.addTransaction b tx))
  /\ NoDup (map fst (transactions (fst (Block.addTransaction b tx)))).
Proof.
  intros Hk Hnd.
  destruct (Block.addTransaction b tx) as [b' [|]] eqn:Hadd; cbn [fst].
  - apply addTransaction_true in Hadd as (Habs & _ & _ & _ & Htxs & _).
    unfold well_keyed. rewrite Htxs, (assoc_set_absent _ _ _ Habs). split.
    + rewrite !map_app. cbn [map snd]. by rewrite <- Hk.
    + rewrite map_app. cbn [map fst]. apply NoDup_app. split; [done|].
      split; [|apply NoDup_singleton].
      intros k Hin ->%list_elem_of_singleton.
      by apply (assoc_get_None_keys _ _ Habs).
  - by rewrite (addTransaction_false b tx b' Hadd).
Qed.

Lemma fresh_candidate_ready now addr prevBlock c :
  c_address c = addr ->
  let cb := set_proof (Some 0) (Block.new_default now addr prevBlock) in
  is_Some (proof cb)
  /\ rewardAddr cb = c_address c
  /\ target cb = Block.HIT_POW_TARGET
  /\ coinbaseReward cb = COINBASE_AMT_ALLOWED
  /\ well_keyed cb
  /\ NoDup (map fst (transactions cb)).
Proof.
  intros <-. cbv zeta. split; [by eexists|]. split; [reflexivity|].
  split; [reflexivity|]. split; [reflexivity|]. split; [reflexivity|].
  apply NoDup_nil_2.
Qed.

Lemma candidate_ready_run fuel now call :
  steps (fun c c' => candidate_ready c -> candidate_ready c') (Node.run fuel now call).
Proof.
  set (Rel := fun c c' : Client => candidate_ready c -> candidate_ready c').
  assert (forall c, Rel c c) as Hrefl by (unfold Rel; auto).
  assert (forall c1 c2 c3, Rel c1 c2 -> Rel c2 c3 -> Rel c1 c3) as Htrans
    by (unfold Rel; auto).
  assert (forall c c', miner c' = miner c -> c_address c' = c_address c -> Rel c c')
    as Hsame.
  { intros c0 c1 Hm Ha Hc m. rewrite Hm, Ha. apply Hc. }
  apply (steps_run Rel Hrefl Htrans); try (intros; by apply Hsame).
  - intros m c0 Hm Hc0 m' [= <-]. cbn [currentBlock set_miner c_address].
    destruct (Hc0 m Hm) as ([p Hp] & Hr & Ht & Hcb & Hk & Hnd).
    rewrite Hp. split; [by eexists|done].
  - intros now' c0. unfold Node.startNewSearch, bind, get, modify.
    destruct (miner c0) as [m|]; [|apply Hrefl].
    intros _ m' [= <-]. cbn [currentBlock set_miner c_address].
    by apply fresh_candidate_ready.
  - intros tx c0. unfold Node.addTransaction, bind, get, modify, ret.
    destruct (miner c0) as [m|] eqn:Hm; [|apply Hrefl].
    pose proof (addTransaction_frame (currentBlock m) tx) as Hf.
    pose proof (addTransaction_keys (currentBlock m) tx) as Hkeys.
    cbv zeta in Hf.
    destruct (Block.addTransaction (currentBlock m) tx) as [cb ok].
    cbn [fst] in Hf, Hkeys.
    intros Hc0 m' [= <-]. cbn [currentBlock set_miner c_address].
    destruct (Hc0 m Hm) as (Hp & Hr & Ht & Hcb & Hk & Hnd).
    destruct Hf as (T & C & _ & _ & P & _ & A).
    destruct (Hkeys Hk Hnd) as [Hk' Hnd'].
    split; [congruence|]. split; [congruence|]. split; [congruence|].
    split; [congruence|]. done.
  - apply assigned_setGenesisBlock; try done; intros; by apply Hsame.
  - apply assigned_setLastConfirmed; try done; intros; by apply Hsame.
  - apply assigned_choose_fork; try done; intros; by apply Hsame.
Qed.


End MinerFacts.

(** ** Transactions as text *)

Section TransactionText.
Context {R : Runtime}.

(** A transaction written by [JSON.stringify] and rebuilt by
    [new Transaction] from what [JSON.parse] reads is the same transaction,
    signed or not: same fields, hence same id and the same verdict of
    [validSignature]. *)
Theorem transaction_survives_json (tx : Transaction) :
  exists j,
    Json.parse (Json.stringify (Transaction.to_json tx)) = Some j
    /\ Transaction.of_json j = Some tx
    /\ forall tx',
         Transaction.of_json j = Some tx' ->
         Transaction.id tx' = Transaction.id tx
         /\ Transaction.validSignature tx' = Transaction.validSignature tx.
Proof.
  exists (Json.norm (Transaction.to_json tx)).
  split; [apply JsonFacts.parse_stringify, distinct_names_tx|].
  pose proof (tx_reads_back tx) as Hback.
  split; [exact Hback|].
  intros tx' Htx'. rewrite Hback in Htx'. injection Htx' as <-. by split.
Qed.

End TransactionText.

(** * The statements on the fixtures *)

Import Fixture.



(** C6 on [alice0], whose confirmed block is the genesis block and gives
    it 500: it posts the outputs of [tx0], 60 with a fee of 1, and is left
    with the nonce 1 and [tx0] broadcast. *)
Lemma postTransaction_spec_witness :
  lastConfirmedBlock alice0 = Some genesis
  /\ sums_exactly 0 (map amount outputs0 ++ [1])
  /\ sums_exactly (Block.balanceOf genesis (c_address alice0)) [- pendingSpent alice0]
  /\ sums_exactly (nonce alice0) [1]
  /\ 1 + fold_right Z.add 0 (map amount outputs0)
     <= Block.balanceOf genesis (c_address alice0) - pendingSpent alice0
  /\ exists c',
       Node.postTransaction outputs0 1 alice0 = Returned tt c'
       /\ nonce c' = 1
       /\ net c' = [Broadcast POST_TRANSACTION (PTransaction tx0)].
Proof.
  assert (lastConfirmedBlock alice0 = Some genesis) as Hconf by reflexivity.
  assert (sums_exactly 0 (map amount outputs0 ++ [1])) as Hsum
    by (vm_compute; intuition discriminate).
  assert (sums_exactly (Block.balanceOf genesis (c_address alice0))
            [- pendingSpent alice0]) as Hgold
    by (vm_compute; intuition discriminate).
  assert (sums_exactly (nonce alice0) [1]) as Hnonce
    by (vm_compute; intuition discriminate).
  assert (1 + fold_right Z.add 0 (map amount outputs0)
          <= Block.balanceOf genesis (c_address alice0) - pendingSpent alice0)
    as Hfunds by (vm_compute; discriminate).
  split; [exact Hconf|]. split; [exact Hsum|]. split; [exact Hgold|].
  split; [exact Hnonce|]. split; [exact Hfunds|].
  destruct (postTransaction_spec alice0 genesis outputs0 1 Hconf Hsum Hgold Hnonce)
    as (_ & _ & _ & Hposts & _).
  eexists. split; [exact (Hposts Hfunds)|]. split; reflexivity.
Defined.

(** Against C6 as stated: [wealthy] has [2^53] of available gold.  The
    fee 0 plus the amounts [2^53] and 1 is [2^53 + 1] and exceeds it; the
    sum of the numbers [2^53] and 1 is [2^53], and [postTransaction]
    returns, with the nonce stepped and the transaction broadcast. *)
Lemma postTransaction_adds_in_numbers :
  Node.availableGold wealthy = Returned (2 ^ 53) wealthy
  /\ 2 ^ 53 < 0 + fold_right Z.add 0 (map amount outputs_large)
  /\ match Node.postTransaction outputs_large 0 wealthy with
     | Returned _ c' =>
         nonce c' = nonce wealthy + 1
         /\ exists tx,
              net c' = [Broadcast POST_TRANSACTION (PTransaction tx)]
              /\ tx_outputs tx = outputs_large
              /\ tx_fee tx = 0
     | _ => False
     end.
Proof.
  split; [vm_compute; reflexivity|]. split; [vm_compute; reflexivity|].
  vm_compute. split; [reflexivity|].
  eexists. split; [reflexivity|]. split; reflexivity.
Qed.

(** C10 on [alice0]: constructed, then given its genesis block. *)
Lemma pendingSpent_stays_zero_witness :
  Node.reachable alice0 /\ pendingSpent alice0 = 0.
Proof.
  assert (Node.reachable alice0) as Hreach.
  { apply (Node.reach_returned alice 0 0 (Node.CallSetGenesisBlock genesis)).
    - apply Node.reach_client.
    - reflexivity. }
  split; [exact Hreach|].
  exact (proj1 (pendingSpent_stays_zero alice0 Hreach)).
Defined.

(** C9 on [heap0]. *)
Lemma rerun_leaves_parent_witness :
  1%nat <> 0%nat
  /\ Heap.load heap0 1 = Some candidate1
  /\ Heap.load heap0 0 = Some genesis
  /\ exists h',
       Heap.rerun 1 0 heap0 = Some (h', snd (Block.rerun candidate1 genesis))
       /\ Heap.load h' 0 = Some genesis.
Proof.
  assert (1%nat <> 0%nat) as Hne by discriminate.
  assert (Heap.load heap0 1 = Some candidate1) as Hb.
  { unfold Heap.load. cbn [heap0 objects maps lookup list_lookup
                            balances_ref nextNonce_ref fields].
    rewrite set_maps_eta. reflexivity. }
  assert (Heap.load heap0 0 = Some genesis) as Hp.
  { unfold Heap.load. cbn [heap0 objects maps lookup list_lookup
                            balances_ref nextNonce_ref fields].
    rewrite set_maps_eta. reflexivity. }
  split; [exact Hne|]. split; [exact Hb|]. split; [exact Hp|].
  destruct (rerun_leaves_parent heap0 1 0 candidate1 genesis Hne Hb Hp)
    as (h' & o' & Hrun & _ & _ & Hload & _).
  exists h'. split; assumption.
Defined.

(** C4 on [sealed1], received by [alice0]: accepted, longer than the
    genesis block, so it becomes the last block and the genesis block, 0
    long, the confirmed one. *)
Lemma fork_choice_on_accept_witness :
  let replayed := fst (Block.rerun sealed1 genesis) in
  let stored := Node.store_block replayed alice0 in
  blocks alice0 !! Block.id sealed1 = None
  /\ Block.hasValidProof sealed1 = true
  /\ blocks alice0 !! prevBlockHash sealed1 = Some genesis
  /\ Block.rerun sealed1 genesis = (replayed, true)
  /\ lastBlock alice0 = Some genesis
  /\ chainLength genesis < chainLength replayed
  /\ linked (blocks stored) replayed
  /\ Node.Client_receiveBlock (Node.receiveBlock 6 1003) 6 1003 (inl sealed1) alice0
     = (Node.choose_fork 6 replayed ;;;
        Node.release (Node.receiveBlock 6 1003) replayed ;;;
        ret (Some replayed))%node stored
  /\ exists a,
       Node.choose_fork 6 replayed stored
       = Returned tt (set_lastConfirmedBlock (Some a)
                        (set_lastBlock (Some replayed) stored))
       /\ ancestor (blocks stored) a replayed
       /\ chainLength a = Z.max 0 (chainLength replayed - 6).
Proof.
  cbv zeta.
  assert (blocks alice0 !! Block.id sealed1 = None) as H1
    by (vm_compute; reflexivity).
  assert (Block.hasValidProof sealed1 = true) as H2
    by (vm_compute; reflexivity).
  assert (blocks alice0 !! prevBlockHash sealed1 = Some genesis) as H3
    by (vm_compute; reflexivity).
  assert (Block.rerun sealed1 genesis = (fst (Block.rerun sealed1 genesis), true))
    as H4 by (vm_compute; reflexivity).
  assert (lastBlock alice0 = Some genesis) as H5 by reflexivity.
  assert (chainLength genesis < chainLength (fst (Block.rerun sealed1 genesis)))
    as Hlonger by (vm_compute; reflexivity).
  assert (linked (blocks (Node.store_block (fst (Block.rerun sealed1 genesis)) alice0))
                 (fst (Block.rerun sealed1 genesis))) as Hlinked.
  { apply (linked_child _ _ genesis).
    - vm_compute. reflexivity.
    - vm_compute. reflexivity.
    - vm_compute. reflexivity.
    - apply linked_genesis. reflexivity. }
  destruct (fork_choice_on_accept (Node.receiveBlock 6 1003) 6 1003 alice0
              sealed1 genesis _ genesis H1 H2 H3 H4 H5)
    as (Hsteps & _ & _ & Hreplaces).
  split; [exact H1|]. split; [exact H2|]. split; [exact H3|].
  split; [exact H4|]. split; [exact H5|]. split; [exact Hlonger|].
  split; [exact Hlinked|]. split; [exact Hsteps|].
  exact (Hreplaces Hlonger Hlinked (le_n 6)).
Defined.

(** Against C4 as stated: [alice0] receives the text of [liar], a block on
    the genesis block whose [chainLength] reads 100.  It is accepted and
    becomes the last block; the confirmed block is the genesis block, whose
    length is 0 and not [max 0 (100 - 6)]. *)
Lemma confirmed_block_of_a_dishonest_length :
  match Node.receiveBlock 8 1003 (inr (Block.serialize liar)) alice0 with
  | Returned (Some b') c' =>
      lastBlock c' = Some b'
      /\ chainLength b' = 100
      /\ exists confirmed,
           lastConfirmedBlock c' = Some confirmed
           /\ chainLength confirmed = 0
           /\ chainLength confirmed <> Z.max 0 (chainLength b' - 6)
  | _ => False
  end.
Proof.
  vm_compute. split; [reflexivity|]. split; [reflexivity|].
  eexists. split; [reflexivity|]. split; [reflexivity|]. discriminate.
Qed.



(** Replay on [sealed1], which names a reward address: [candidate2], its
    two maps emptied, gets them back. *)
Lemma rerun_matches_construction_witness :
  let received := set_nextNonce ∅ (set_balances ∅ candidate2) in
  rewardAddr sealed1 <> ""
  /\ Block.readd (Block.new_default 1002 addr (Some sealed1)) [tx1]
     = (candidate2, true)
  /\ transactions received = transactions candidate2
  /\ exists replayed,
       Block.rerun received sealed1 = (replayed, true)
       /\ balances replayed = balances candidate2
       /\ nextNonce replayed = nextNonce candidate2.
Proof.
  cbv zeta.
  assert (rewardAddr sealed1 <> "") as Hne by (vm_compute; discriminate).
  assert (Block.readd (Block.new_default 1002 addr (Some sealed1)) [tx1]
          = (candidate2, true)) as Hbuilt by (vm_compute; reflexivity).
  assert (transactions (set_nextNonce ∅ (set_balances ∅ candidate2))
          = transactions candidate2) as Htxs
    by exact (transactions_set_maps candidate2 ∅ ∅).
  split; [exact Hne|]. split; [exact Hbuilt|]. split; [exact Htxs|].
  destruct (rerun_matches_construction sealed1 1002 addr Block.HIT_POW_TARGET
              COINBASE_AMT_ALLOWED [tx1] candidate2 _ Hne Hbuilt Htxs)
    as (replayed & Hrun & Hb & Hn & _).
  exists replayed. split; [exact Hrun|]. split; [exact Hb|exact Hn].
Defined.

(** ** The further properties on the fixtures *)

(** [alice1] is a state of a node: constructed, given its genesis block,
    then two blocks received. *)
Lemma alice1_reachable : Node.reachable alice1.
Proof.
  unfold alice1.
  apply (reachable_receiveBlock 8 1005 sealed1 alice_waiting);
    [|vm_compute; reflexivity].
  unfold alice_waiting.
  apply (reachable_receiveBlock 8 1004 sealed2 alice0); [|vm_compute; reflexivity].
  apply (Node.reach_returned alice 0 0 (Node.CallSetGenesisBlock genesis)).
  - apply Node.reach_client.
  - reflexivity.
Qed.

(** [alice1], a client that is no miner. *)
Lemma reachable_node_invariants_witness :
  Node.reachable alice1
  /\ miner alice1 = None
  /\ c_address alice1 = Utils.calcAddress (kp_public (keyPair alice1))
  /\ (is_Some (lastBlock alice1) <-> is_Some (lastConfirmedBlock alice1))
  /\ store_keyed alice1.
Proof.
  assert (miner alice1 = None) as Hm by (vm_compute; reflexivity).
  split; [exact alice1_reachable|]. split; [exact Hm|].
  destruct (reachable_node_invariants alice1 alice1_reachable) as (Ha & Hl & Hs).
  split; [exact Ha|]. split; [exact Hl|exact (Hs Hm)].
Defined.

(** [alice0] posts the outputs of [tx0] with a fee of 1: what it
    broadcasts is [tx0], which [fresh1] admits. *)
Lemma posted_transaction_admitted_witness :
  Node.reachable alice0
  /\ rsa_key (kp_public (keyPair alice0)) = true
  /\ (forall m, rsa_verify (kp_public (keyPair alice0)) m
                  (rsa_sign (kp_private (keyPair alice0)) m) = true)
  /\ lastConfirmedBlock alice0 = Some genesis
  /\ 0 <= 1
  /\ Forall (fun o => 0 <= amount o) outputs0
  /\ sums_exactly (Block.balanceOf genesis (c_address alice0)) [- pendingSpent alice0]
  /\ sums_exactly (nonce alice0) [1]
  /\ safe_integer 500
  /\ 1 + fold_right Z.add 0 (map amount outputs0)
     <= Block.balanceOf genesis (c_address alice0) - pendingSpent alice0
  /\ balances fresh1 !! c_address alice0 = Some 500
  /\ 1 + fold_right Z.add 0 (map amount outputs0) <= 500
  /\ get_or_0 (nextNonce fresh1) (c_address alice0) = nonce alice0
  /\ exists c',
       Node.postTransaction outputs0 1 alice0 = Returned tt c'
       /\ net c' = net alice0 ++ [Broadcast POST_TRANSACTION (PTransaction tx0)]
       /\ Transaction.validSignature tx0 = true
       /\ snd (Block.addTransaction fresh1 tx0) = true.
Proof.
  assert (Node.reachable alice0) as Hreach.
  { apply (Node.reach_returned alice 0 0 (Node.CallSetGenesisBlock genesis)).
    - apply Node.reach_client.
    - reflexivity. }
  assert (rsa_key (kp_public (keyPair alice0)) = true) as Hkey by reflexivity.
  assert (forall m, rsa_verify (kp_public (keyPair alice0)) m
                      (rsa_sign (kp_private (keyPair alice0)) m) = true) as Hkeys.
  { intros m. apply bool_decide_eq_true_2. reflexivity. }
  assert (lastConfirmedBlock alice0 = Some genesis) as Hconf by reflexivity.
  assert (0 <= 1) as Hfee by discriminate.
  assert (Forall (fun o => 0 <= amount o) outputs0) as Hpos
    by (repeat constructor; discriminate).
  assert (sums_exactly (Block.balanceOf genesis (c_address alice0))
            [- pendingSpent alice0]) as Hgold
    by (vm_compute; intuition discriminate).
  assert (sums_exactly (nonce alice0) [1]) as Hcount
    by (vm_compute; intuition discriminate).
  assert (safe_integer 500) as Hsafe by (vm_compute; intuition discriminate).
  assert (1 + fold_right Z.add 0 (map amount outputs0)
          <= Block.balanceOf genesis (c_address alice0) - pendingSpent alice0)
    as Hfunds by (vm_compute; discriminate).
  assert (balances fresh1 !! c_address alice0 = Some 500) as Hbal
    by (vm_compute; reflexivity).
  assert (1 + fold_right Z.add 0 (map amount outputs0) <= 500) as Hle
    by (vm_compute; discriminate).
  assert (get_or_0 (nextNonce fresh1) (c_address alice0) = nonce alice0) as Hnonce
    by (vm_compute; reflexivity).
  split; [exact Hreach|]. split; [exact Hkey|]. split; [exact Hkeys|].
  split; [exact Hconf|]. split; [exact Hfee|]. split; [exact Hpos|].
  split; [exact Hgold|]. split; [exact Hcount|]. split; [exact Hsafe|].
  split; [exact Hfunds|]. split; [exact Hbal|]. split; [exact Hle|].
  split; [exact Hnonce|].
  destruct (posted_transaction_admitted alice0 genesis fresh1 outputs0 1 500
              Hreach Hkey Hkeys Hconf Hfee Hpos Hgold Hcount Hsafe Hfunds Hbal Hle
              Hnonce)
    as (tx & c' & Hpost & Hnet & _ & _ & _ & Hvalid & Hadmit).
  assert (tx = tx0) as ->.
  { assert (Node.postTransaction outputs0 1 alice0
            = Returned tt (do_effect (Broadcast POST_TRANSACTION (PTransaction tx0))
                             (set_nonce 1 alice0))) as Hrun by reflexivity.
    rewrite Hrun in Hpost. injection Hpost as <-.
    cbn [net do_effect set_nonce] in Hnet.
    apply app_inv_head in Hnet. by injection Hnet as ->. }
  exists c'. split; [exact Hpost|]. split; [exact Hnet|]. split; [exact Hvalid|].
  apply Hadmit. reflexivity.
Defined.

(** [tx0] admitted into [fresh1]: the receiver ["ffff"] has 20 more. *)
Lemma addTransaction_transfers_witness :
  exact_ledger (balances fresh1)
  /\ pays_forward tx0
  /\ Block.addTransaction fresh1 tx0 = (candidate1, true)
  /\ Block.balanceOf candidate1 "ffff"
     = Block.balanceOf fresh1 "ffff" + received "ffff" (tx_outputs tx0)
       - (if bool_decide ("ffff" = tx_from tx0) then Transaction.totalOutput tx0 else 0).
Proof.
  assert (exact_ledger (balances fresh1)) as Hledger.
  { unfold exact_ledger, solvent. apply (bool_decide_unpack _).
    vm_compute. reflexivity. }
  assert (pays_forward tx0) as Hpays.
  { split; [discriminate|].
    cbn [tx0 Transaction.sign Transaction.set_sig tx_outputs outputs0].
    repeat constructor; discriminate. }
  assert (Block.addTransaction fresh1 tx0 = (candidate1, true)) as Hadd
    by (vm_compute; reflexivity).
  split; [exact Hledger|]. split; [exact Hpays|]. split; [exact Hadd|].
  exact (addTransaction_transfers fresh1 candidate1 tx0 "ffff" Hledger Hpays Hadd).
Defined.

Lemma addTransaction_burns_fee_witness :
  exact_ledger (balances fresh1)
  /\ pays_forward tx0
  /\ Block.addTransaction fresh1 tx0 = (candidate1, true)
  /\ total_gold (balances candidate1) = total_gold (balances fresh1) - tx_fee tx0.
Proof.
  assert (exact_ledger (balances fresh1)) as Hledger.
  { unfold exact_ledger, solvent. apply (bool_decide_unpack _).
    vm_compute. reflexivity. }
  assert (pays_forward tx0) as Hpays.
  { split; [discriminate|].
    cbn [tx0 Transaction.sign Transaction.set_sig tx_outputs outputs0].
    repeat constructor; discriminate. }
  assert (Block.addTransaction fresh1 tx0 = (candidate1, true)) as Hadd
    by (vm_compute; reflexivity).
  split; [exact Hledger|]. split; [exact Hpays|]. split; [exact Hadd|].
  exact (addTransaction_burns_fee fresh1 candidate1 tx0 Hledger Hpays Hadd).
Defined.

Lemma addTransaction_keeps_solvent_witness :
  solvent (balances fresh1)
  /\ Forall (fun o => 0 <= amount o) (tx_outputs tx0)
  /\ solvent (balances (fst (Block.addTransaction fresh1 tx0))).
Proof.
  assert (solvent (balances fresh1)) as Hsolvent.
  { apply map_Forall_to_list. vm_compute. repeat constructor; discriminate. }
  assert (Forall (fun o => 0 <= amount o) (tx_outputs tx0)) as Hpos.
  { cbn [tx0 Transaction.sign Transaction.set_sig tx_outputs outputs0].
    repeat constructor; discriminate. }
  split; [exact Hsolvent|]. split; [exact Hpos|].
  exact (addTransaction_keeps_solvent fresh1 tx0 Hsolvent Hpos).
Defined.

(** A block on [candidate1], which started as [fresh1] and admitted [tx0]:
    it holds the gold of [fresh1] and the coinbase reward. *)
Lemma child_holds_parent_gold_and_coinbase_witness :
  solvent (balances fresh1)
  /\ 0 <= coinbaseReward fresh1
  /\ total_gold (balances fresh1) + coinbaseReward fresh1 <= MAX_SAFE_INTEGER
  /\ Forall pays_forward [tx0]
  /\ transactions fresh1 = []
  /\ Block.readd fresh1 [tx0] = (candidate1, true)
  /\ total_gold (balances (Block.new 1002 addr (Some candidate1)
                             Block.HIT_POW_TARGET COINBASE_AMT_ALLOWED))
     = if bool_decide (rewardAddr fresh1 = "")
       then total_gold (balances fresh1) - fold_right Z.add 0 (map tx_fee [tx0])
       else total_gold (balances fresh1) + coinbaseReward fresh1.
Proof.
  assert (solvent (balances fresh1)) as Hsolvent.
  { apply map_Forall_to_list. vm_compute. repeat constructor; discriminate. }
  assert (0 <= coinbaseReward fresh1) as Hreward by discriminate.
  assert (total_gold (balances fresh1) + coinbaseReward fresh1 <= MAX_SAFE_INTEGER)
    as Hsafe by (vm_compute; discriminate).
  assert (Forall pays_forward [tx0]) as Hpays.
  { constructor; [|constructor]. split; [discriminate|].
    cbn [tx0 Transaction.sign Transaction.set_sig tx_outputs outputs0].
    repeat constructor; discriminate. }
  assert (transactions fresh1 = []) as Hempty by reflexivity.
  assert (Block.readd fresh1 [tx0] = (candidate1, true)) as Hbuilt
    by (vm_compute; reflexivity).
  split; [exact Hsolvent|]. split; [exact Hreward|]. split; [exact Hsafe|].
  split; [exact Hpays|]. split; [exact Hempty|]. split; [exact Hbuilt|].
  exact (child_holds_parent_gold_and_coinbase fresh1 candidate1 [tx0] 1002 addr
           Block.HIT_POW_TARGET COINBASE_AMT_ALLOWED Hsolvent Hreward Hsafe Hpays
           Hempty Hbuilt).
Defined.


Lemma rerun_twice_is_rerun_once_witness :
  let replayed := fst (Block.rerun sealed1 genesis) in
  Block.rerun sealed1 genesis = (replayed, true)
  /\ Block.rerun replayed genesis = (replayed, true).
Proof.
  cbv zeta.
  assert (Block.rerun sealed1 genesis = (fst (Block.rerun sealed1 genesis), true))
    as Hrun by (vm_compute; reflexivity).
  split; [exact Hrun|].
  exact (rerun_twice_is_rerun_once sealed1 genesis _ Hrun).
Defined.

Lemma makeGenesis_gives_each_client_its_gold_witness :
  NoDup (map (fun e => c_address (fst e)) [(alice, 500); (Node.Client_new None kp_bob None, 7)])
  /\ Forall (fun e => lastBlock (fst e) = None)
            [(alice, 500); (Node.Client_new None kp_bob None, 7)]
  /\ total_gold (balances (fst (Node.makeGenesis 1000
                                  [(alice, 500); (Node.Client_new None kp_bob None, 7)])))
     = 507.
Proof.
  assert (NoDup (map (fun e => c_address (fst e))
                     [(alice, 500); (Node.Client_new None kp_bob None, 7)])) as Hnd.
  { apply (bool_decide_unpack _). vm_compute. reflexivity. }
  assert (Forall (fun e => lastBlock (fst e) = None)
                 [(alice, 500); (Node.Client_new None kp_bob None, 7)]) as Hnone.
  { repeat constructor. }
  split; [exact Hnd|]. split; [exact Hnone|].
  exact (proj1 (proj2 (proj2 (makeGenesis_gives_each_client_its_gold 1000 _ Hnd Hnone)))).
Defined.

(** [alice0] receives [sealed2] before its parent [sealed1]. *)
Lemma orphan_waits_for_its_parent_witness :
  incoming 1004 (inl sealed2) = Some sealed2
  /\ written_exactly sealed2
  /\ blocks alice0 !! Block.id sealed2 = None
  /\ Block.hasValidProof sealed2 = true
  /\ blocks alice0 !! prevBlockHash sealed2 = None
  /\ pendingBlocks alice0 !! prevBlockHash sealed2 = None
  /\ Node.receiveBlock 8 1004 (inl sealed2) alice0 = Returned None alice_waiting
  /\ pendingBlocks alice_waiting !! prevBlockHash sealed2 = Some [sealed2]
  /\ blocks alice_waiting = blocks alice0
  /\ length (net alice_waiting) = 1%nat.
Proof.
  assert (incoming 1004 (inl sealed2) = Some sealed2) as Hin by reflexivity.
  assert (written_exactly sealed2) as Hwritten.
  { unfold written_exactly, safe_integer. apply (bool_decide_unpack _).
    vm_compute. reflexivity. }
  assert (blocks alice0 !! Block.id sealed2 = None) as Hnew
    by (vm_compute; reflexivity).
  assert (Block.hasValidProof sealed2 = true) as Hvalid
    by (vm_compute; reflexivity).
  assert (blocks alice0 !! prevBlockHash sealed2 = None) as Hparent
    by (vm_compute; reflexivity).
  assert (pendingBlocks alice0 !! prevBlockHash sealed2 = None) as Hfirst
    by reflexivity.
  assert (forall given stuck,
            @inl Block string sealed2 = inl given ->
            pendingBlocks alice0 !! prevBlockHash sealed2 = Some stuck ->
            sealed2 ∉ stuck) as Hfresh.
  { intros given stuck _ Hstuck. rewrite Hfirst in Hstuck. discriminate. }
  split; [exact Hin|]. split; [exact Hwritten|]. split; [exact Hnew|].
  split; [exact Hvalid|]. split; [exact Hparent|]. split; [exact Hfirst|].
  pose proof (orphan_waits_for_its_parent 7 1004 alice0 (inl sealed2) sealed2
                Hin Hwritten Hfresh Hnew Hvalid Hparent) as Hwaits.
  cbv zeta in Hwaits. rewrite Hfirst in Hwaits.
  unfold alice_waiting. rewrite Hwaits.
  split; [reflexivity|].
  cbn [pendingBlocks blocks net default from_option id app].
  split; [apply lookup_insert_eq|]. split; reflexivity.
Defined.

(** [alice_waiting], where [sealed2] waits for [sealed1], receives
    [sealed1]. *)
Lemma accepted_block_is_stored_and_released_witness :
  let replayed := fst (Block.rerun sealed1 genesis) in
  blocks alice_waiting !! Block.id sealed1 = None
  /\ Block.hasValidProof sealed1 = true
  /\ blocks alice_waiting !! prevBlockHash sealed1 = Some genesis
  /\ Block.rerun sealed1 genesis = (replayed, true)
  /\ is_Some (pendingBlocks alice_waiting !! Block.id replayed)
  /\ is_returned (Node.receiveBlock 8 1005 (inl sealed1) alice_waiting) = true
  /\ is_Some (blocks alice1 !! Block.id replayed)
  /\ pendingBlocks alice1 !! Block.id replayed = None.
Proof.
  cbv zeta.
  assert (blocks alice_waiting !! Block.id sealed1 = None) as Hnew
    by (vm_compute; reflexivity).
  assert (Block.hasValidProof sealed1 = true) as Hvalid
    by (vm_compute; reflexivity).
  assert (blocks alice_waiting !! prevBlockHash sealed1 = Some genesis) as Hparent
    by (vm_compute; reflexivity).
  assert (Block.rerun sealed1 genesis = (fst (Block.rerun sealed1 genesis), true))
    as Hrun by (vm_compute; reflexivity).
  assert (is_Some (pendingBlocks alice_waiting
                     !! Block.id (fst (Block.rerun sealed1 genesis)))) as Hwaits.
  { apply (bool_decide_unpack _). vm_compute. reflexivity. }
  assert (is_returned (Node.receiveBlock 8 1005 (inl sealed1) alice_waiting) = true)
    as Hret by (vm_compute; reflexivity).
  split; [exact Hnew|]. split; [exact Hvalid|]. split; [exact Hparent|].
  split; [exact Hrun|]. split; [exact Hwaits|]. split; [exact Hret|].
  pose proof (accepted_block_is_stored_and_released 8 1005 alice_waiting sealed1
                genesis _ Hnew Hvalid Hparent Hrun) as H.
  unfold alice1.
  destruct (Node.receiveBlock 8 1005 (inl sealed1) alice_waiting);
    [exact H|discriminate Hret|discriminate Hret].
Defined.

(** [digger] mines: six proofs fail, the seventh seals [sealed1], and the
    first message it sends is the text of [sealed1]. *)
Lemma search_takes_the_first_valid_proof_witness :
  let cb := set_proof (Some 20450) candidate1 in
  let candidate q :=
    {| chainLength := chainLength cb; prevBlockHash := prevBlockHash cb;
       proof := Some q; timestamp := timestamp cb; target := target cb;
       coinbaseReward := coinbaseReward cb; rewardAddr := rewardAddr cb;
       transactions := transactions cb; balances := balances cb;
       nextNonce := nextNonce cb |} in
  miner digger = Some {| miningRounds := 10; currentBlock := cb |}
  /\ proof cb = Some 20450
  /\ written_exactly cb
  /\ safe_integer (20450 + Z.of_nat 10)
  /\ (forall i, (i < 6)%nat ->
                Block.hasValidProof (candidate (20450 + Z.of_nat i)) = false)
  /\ Block.hasValidProof (candidate (20450 + Z.of_nat 6)) = true
  /\ candidate (20450 + Z.of_nat 6) = sealed1
  /\ match Node.search 8 1006 10 digger with
     | Returned _ c' | Thrown _ c' =>
         (net digger
          ++ [Broadcast PROOF_FOUND
                (PString (Block.serialize (candidate (20450 + Z.of_nat 6))))])
           `prefix_of` net c'
     | OutOfFuel => True
     end.
Proof.
  intros cb candidate.
  assert (miner digger = Some {| miningRounds := 10; currentBlock := cb |}) as Hm
    by reflexivity.
  assert (proof cb = Some 20450) as Hp by reflexivity.
  assert (written_exactly cb) as Hsafe.
  { unfold written_exactly, safe_integer. apply (bool_decide_unpack _).
    vm_compute. reflexivity. }
  assert (safe_integer (20450 + Z.of_nat 10)) as Hsafe'
    by (vm_compute; intuition discriminate).
  assert (forall i, (i < 6)%nat ->
                    Block.hasValidProof (candidate (20450 + Z.of_nat i)) = false)
    as Hinvalid.
  { intros i Hi.
    destruct i as [|[|[|[|[|[|i]]]]]]; [vm_compute; reflexivity..|lia]. }
  assert (Block.hasValidProof (candidate (20450 + Z.of_nat 6)) = true) as Hvalid
    by (vm_compute; reflexivity).
  assert (candidate (20450 + Z.of_nat 6) = sealed1) as Hsealed
    by (vm_compute; reflexivity).
  split; [exact Hm|]. split; [exact Hp|]. split; [exact Hsafe|].
  split; [exact Hsafe'|]. split; [exact Hinvalid|]. split; [exact Hvalid|].
  split; [exact Hsealed|].
  exact (proj2 (search_takes_the_first_valid_proof 8 1006 10 6 digger 10 cb 20450
                  Hm Hp Hsafe Hsafe' Hinvalid) ltac:(lia) Hvalid).
Defined.

(** [net0]: three nodes registered, two addresses; a message for each. *)
Lemma broadcast_reaches_every_client_witness :
  FakeNet.reachable c_address net0
  /\ FakeNet.clients net0 = [(c_address alice0, minnie); (c_address bob, bob)]
  /\ FakeNet.broadcast PROOF_FOUND (PString "block") net0
     = FakeNet.Done
         {| FakeNet.clients := FakeNet.clients net0;
            FakeNet.scheduled :=
              FakeNet.scheduled net0
              ++ map (fun e => (snd e, PROOF_FOUND, PString "block"))
                     (FakeNet.clients net0) |}.
Proof.
  assert (FakeNet.reachable c_address net0) as Hreach.
  { apply FakeNet.reach_register, FakeNet.reach_new. }
  split; [exact Hreach|]. split; [vm_compute; reflexivity|].
  exact (proj1 (broadcast_reaches_every_client c_address net0 PROOF_FOUND
                  (PString "block") "" Hreach)).
Defined.


